(** * Production schedule reflow: a shallow embedding and its properties

    The development follows the four components of the repository:
    - [DateUtils]          (src/utils/date-utils.ts)
    - [DependencyGraph]    (src/reflow/dependency-graph.ts)
    - [ConstraintChecker]  (src/reflow/constraint-checker.ts)
    - [ReflowService]      (src/reflow/reflow-service.ts)

    In the snapshot of the sources the text of constraint-checker.ts
    follows that of src/reflow/dependency-graph.ts in the same file, the
    texts of date-utils.ts and types.ts follow the tests in
    tests/reflow-service.test.ts, and reflow-service.ts is unnamed/part_002.

    Conventions of the embedding.
    - An instant (an ISO-8601 string in the source, a Luxon [DateTime] in UTC
      once parsed) is the integer number of milliseconds since the epoch.
      Luxon compares instants by that number and [toISO] prints it in one
      canonical form, so two printed instants are equal as strings exactly
      when the numbers are equal; input instants are taken in that form.
    - Quantities the source keeps in (possibly fractional) minutes are kept
      in milliseconds, one minute being 60000, so that they stay exact.
    - A JavaScript [Map] or [Set] iterates in insertion order; both are
      lists in insertion order ([omap], [oset_add]).
    - A [throw] is the [Err] case of [Result]; [try]/[catch] is a match.
    - A loop without a bound in the source ([hasCycles], the queue of
      [topologicalSort]) takes fuel; [hasCycles_fuel_enough] and
      [kahn_fuel_enough] show that the fuel given never runs out on a
      constructed graph.
    - [DateTime.utc()] is a clock that is read several times during one
      call of [reflow]; the readings are a function of their number.

    Inputs. The records are those of src/reflow/types.ts. The hours of a
    shift are in 0..23, as that file documents. The [docId] of a work order
    identifies it: the properties of a whole schedule are stated for lists
    of work orders with distinct ids ([uniqueIds]), and each theorem that
    needs this says so. *)

From Stdlib Require Import ZArith Lia String List Bool.
From stdpp Require Import base list strings relations sorting.

Local Open Scope Z_scope.

(** ** Errors raised by the components *)

Inductive Error : Type :=
| DependsOnMissing (childId parentId : string)
    (* "Work order C depends on P, but P does not exist" *)
| CircularDependencyDetected
    (* "Circular dependency detected: ... Cannot create valid schedule." *)
| CycleDetected
    (* "Cycle detected in dependency graph" *)
| WorkOrderNotFound (workOrderId : string)
    (* "Work order W not found" *)
| WorkCenterNotFound (workCenterId : string)
    (* "Work center W not found" *)
| NoShiftFound
    (* "No shift found in the next 30 days" *)
| CouldNotSchedule
    (* "Could not schedule work order within 365 days. ..." *).

Inductive Result (A : Type) : Type :=
| Ok (a : A)
| Err (e : Error).
Arguments Ok {A} a.
Arguments Err {A} e.

Definition bind {A B} (r : Result A) (k : A -> Result B) : Result B :=
  match r with
  | Ok a => k a
  | Err e => Err e
  end.

Notation "'let*' x ':=' r 'in' k" := (bind r (fun x => k))
  (at level 10, x pattern, r at level 100, k at level 200).

(** ** Data model (src/reflow/types.ts) *)

Record Shift : Type := mkShift {
  dayOfWeek : Z;   (* 0-6, Sunday = 0 *)
  startHour : Z;   (* 0-23 *)
  endHour : Z      (* 0-23 *)
}.

Record MaintenanceWindow : Type := mkMaintenanceWindow {
  mw_startDate : Z;
  mw_endDate : Z;
  mw_reason : option string
}.

Record WorkCenterDocument : Type := mkWorkCenter {
  wc_docId : string;
  wc_name : string;
  shifts : list Shift;
  maintenanceWindows : list MaintenanceWindow
}.

Record WorkOrderDocument : Type := mkWorkOrder {
  docId : string;
  workOrderNumber : string;
  manufacturingOrderId : string;
  workCenterId : string;
  startDate : Z;
  endDate : Z;
  durationMinutes : Z;
  isMaintenance : bool;
  dependsOnWorkOrderIds : list string
}.

Record ManufacturingOrderDocument : Type := mkManufacturingOrder {
  mo_docId : string;
  manufacturingOrderNumber : string;
  itemId : string;
  quantity : Z;
  dueDate : Z
}.

(** ** DateUtils *)

Module DateUtils.

Definition msPerMinute : Z := 60000.
Definition msPerHour : Z := 3600000.
Definition msPerDay : Z := 86400000.

(** [dt.startOf('day')] in UTC. *)
Definition startOfDay (dt : Z) : Z := dt - dt mod msPerDay.

(** [dt.plus({ days: 1 }).startOf('day')]. *)
Definition nextDayStart (dt : Z) : Z := startOfDay (dt + msPerDay).

(** [dt.set({ hour: h, minute: 0, second: 0, millisecond: 0 })], for an hour
    in 0..23 as the [Shift] type documents. *)
Definition setHour (dt h : Z) : Z := startOfDay dt + h * msPerHour.

(** [dt.hour]. *)
Definition hourOf (dt : Z) : Z := (dt mod msPerDay) / msPerHour.

(** [dt.weekday] of Luxon: 1 = Monday .. 7 = Sunday; day 0 of the epoch was
    a Thursday. *)
Definition weekday (dt : Z) : Z := (dt / msPerDay + 3) mod 7 + 1.

Definition getShiftForDay (luxonWeekday : Z) (shifts : list Shift) : option Shift :=
  let jsWeekday := if luxonWeekday =? 7 then 0 else luxonWeekday in
  List.find (fun shift => dayOfWeek shift =? jsWeekday) shifts.

Definition getEffectiveShiftEnd (shiftStart shiftEnd : Z)
    (windows : list MaintenanceWindow) : Z :=
  fold_left
    (fun effectiveEnd window =>
       let maintenanceStart := mw_startDate window in
       let maintenanceEnd := mw_endDate window in
       if (maintenanceStart <? shiftEnd) && (maintenanceEnd >? shiftStart) then
         if (maintenanceStart >? shiftStart) && (maintenanceStart <? effectiveEnd)
         then maintenanceStart
         else effectiveEnd
       else effectiveEnd)
    windows shiftEnd.

Definition maxDays : nat := 365.

(** The [while] loop of [calculateEndDate]. [daysLeft] is
    [maxDays - daysProcessed]; the loop returns the final [currentDate]
    together with the [daysLeft] it stopped at. [remaining] is
    [remainingMinutes], in milliseconds. *)
Fixpoint calculateEndDate_loop (daysLeft : nat) (currentDate remaining : Z)
    (shifts : list Shift) (windows : list MaintenanceWindow) : Z * nat :=
  if remaining <=? 0 then (currentDate, daysLeft) else
  match daysLeft with
  | O => (currentDate, O)
  | S daysLeft' =>
    match getShiftForDay (weekday currentDate) shifts with
    | None =>
      calculateEndDate_loop daysLeft' (nextDayStart currentDate) remaining shifts windows
    | Some shift =>
      let shiftStart := setHour currentDate (startHour shift) in
      let shiftEnd := setHour currentDate (endHour shift) in
      let workStart := if currentDate >? shiftStart then currentDate else shiftStart in
      if workStart >=? shiftEnd then
        calculateEndDate_loop daysLeft' (nextDayStart currentDate) remaining shifts windows
      else
        let effectiveShiftEnd := getEffectiveShiftEnd workStart shiftEnd windows in
        let availableMinutes := effectiveShiftEnd - workStart in
        if availableMinutes <=? 0 then
          calculateEndDate_loop daysLeft' (nextDayStart currentDate) remaining shifts windows
        else
          let minutesToWork := Z.min remaining availableMinutes in
          let remaining' := remaining - minutesToWork in
          if remaining' >? 0 then
            calculateEndDate_loop daysLeft' (nextDayStart currentDate) remaining' shifts windows
          else
            calculateEndDate_loop daysLeft' (workStart + minutesToWork) remaining' shifts windows
    end
  end.

Definition calculateEndDate (startDate durationMinutes : Z)
    (shifts : list Shift) (windows : list MaintenanceWindow) : Result Z :=
  let '(currentDate, daysLeft) :=
    calculateEndDate_loop maxDays startDate (durationMinutes * msPerMinute)
      shifts windows in
  match daysLeft with
  | O => Err CouldNotSchedule      (* daysProcessed >= maxDays *)
  | S _ => Ok currentDate
  end.

Definition overlapsMaintenance (startDate endDate : Z)
    (windows : list MaintenanceWindow) : bool :=
  existsb
    (fun window => (startDate <? mw_endDate window) && (endDate >? mw_startDate window))
    windows.

Definition isDuringShift (date : Z) (shifts : list Shift) : bool :=
  match getShiftForDay (weekday date) shifts with
  | None => false
  | Some shift =>
    let hour := hourOf date in
    (hour >=? startHour shift) && (hour <? endHour shift)
  end.

Definition timePeriodsOverlap (start1 end1 start2 end2 : Z) : bool :=
  (start1 <? end2) && (end1 >? start2).

(** The [for (let i = 0; i < 30; i++)] loop of [findNextShiftStart];
    [n] counts the iterations that are left. *)
Fixpoint findNextShiftStart_loop (n : nat) (currentDate : Z)
    (shifts : list Shift) : Result Z :=
  match n with
  | O => Err NoShiftFound
  | S n' =>
    match getShiftForDay (weekday currentDate) shifts with
    | Some shift =>
      let shiftStart := setHour currentDate (startHour shift) in
      if shiftStart >? currentDate then Ok shiftStart
      else findNextShiftStart_loop n' (nextDayStart currentDate) shifts
    | None => findNextShiftStart_loop n' (nextDayStart currentDate) shifts
    end
  end.

Definition findNextShiftStart (fromDate : Z) (shifts : list Shift) : Result Z :=
  findNextShiftStart_loop 30 fromDate shifts.

Definition getEarliestStartTime (parentEndTimes : list Z)
    (workCenterAvailableFrom : Z) (shifts : list Shift) : Result Z :=
  let latestParentEnd :=
    fold_left (fun latest current => if current >? latest then current else latest)
      parentEndTimes 0 in
  let wcAvailable := workCenterAvailableFrom in
  let parentsDone := latestParentEnd in
  let earliestPossible := if wcAvailable >? parentsDone then wcAvailable else parentsDone in
  match getShiftForDay (weekday earliestPossible) shifts with
  | None => findNextShiftStart earliestPossible shifts
  | Some shift =>
    let shiftStart := setHour earliestPossible (startHour shift) in
    let shiftEnd := setHour earliestPossible (endHour shift) in
    if earliestPossible <? shiftStart then Ok shiftStart
    else if earliestPossible <? shiftEnd then Ok earliestPossible
    else findNextShiftStart earliestPossible shifts
  end.

(** An instant given by its calendar day (days since the epoch), hour and
    minute; used to write examples. *)
Definition at_ (day hour minute : Z) : Z :=
  day * msPerDay + hour * msPerHour + minute * msPerMinute.

End DateUtils.

Import DateUtils.


(** ** Insertion-ordered maps and sets

    [Map.set] keeps the position of a key that is already present and
    appends a new key; [Set.add] appends an element that is not yet there. *)

Section OrderedMap.
Context {V : Type}.

Fixpoint omap_get (k : string) (m : list (string * V)) : option V :=
  match m with
  | [] => None
  | (k', v) :: m' => if String.eqb k' k then Some v else omap_get k m'
  end.

Fixpoint omap_set (k : string) (v : V) (m : list (string * V)) : list (string * V) :=
  match m with
  | [] => [(k, v)]
  | (k', v') :: m' =>
    if String.eqb k' k then (k', v) :: m' else (k', v') :: omap_set k v m'
  end.

Definition omap_keys (m : list (string * V)) : list string := map fst m.

End OrderedMap.

Definition mem (x : string) (s : list string) : bool := existsb (String.eqb x) s.

Definition oset_add (x : string) (s : list string) : list string :=
  if mem x s then s else s ++ [x].

Fixpoint oset_delete (x : string) (s : list string) : list string :=
  match s with
  | [] => []
  | y :: s' => if String.eqb y x then s' else y :: oset_delete x s'
  end.

(** ** DependencyGraph *)

Module DependencyGraph.

Record t : Type := mkGraph {
  adjacencyList : list (string * list string);  (* workOrderId -> dependents *)
  inDegree : list (string * Z);                 (* workOrderId -> number of parents *)
  workOrders : list (string * WorkOrderDocument)
}.

Definition empty : t := mkGraph [] [] [].

(** First loop of [buildGraph]: initialise all nodes. *)
Definition initNode (g : t) (workOrder : WorkOrderDocument) : t :=
  let id := docId workOrder in
  mkGraph (omap_set id [] (adjacencyList g))
          (omap_set id 0 (inDegree g))
          (omap_set id workOrder (workOrders g)).

(** Inner loop of the second loop: add the edges from the parents to one
    child, raising on a parent that is not a node. *)
Fixpoint addEdges (childId : string) (parentIds : list string)
    (adj : list (string * list string)) : Result (list (string * list string)) :=
  match parentIds with
  | [] => Ok adj
  | parentId :: rest =>
    match omap_get parentId adj with
    | None => Err (DependsOnMissing childId parentId)
    | Some children =>
      addEdges childId rest (omap_set parentId (oset_add childId children) adj)
    end
  end.

(** Second loop of [buildGraph]: in-degrees and edges. *)
Fixpoint buildEdges (workOrders : list WorkOrderDocument) (g : t) : Result t :=
  match workOrders with
  | [] => Ok g
  | workOrder :: rest =>
    let childId := docId workOrder in
    let parentIds := dependsOnWorkOrderIds workOrder in
    let inDegree' := omap_set childId (Z.of_nat (length parentIds)) (inDegree g) in
    let* adj' := addEdges childId parentIds (adjacencyList g) in
    buildEdges rest (mkGraph adj' inDegree' (DependencyGraph.workOrders g))
  end.

(** The constructor: [new DependencyGraph(workOrders)]. *)
Definition buildGraph (workOrders : list WorkOrderDocument) : Result t :=
  buildEdges workOrders (fold_left initNode workOrders empty).

Definition neighbors (g : t) (nodeId : string) : list string :=
  match omap_get nodeId (adjacencyList g) with
  | Some children => children
  | None => []
  end.

(** [hasCycles]. The state of the traversal is the pair of the [visited]
    set and the [recursionStack] set. [dfs] is the inner closure and
    [dfs_neighbors] its [for] loop over the neighbours of a node, with the
    closure itself as [dfs_rec]. [fuel] bounds the depth of the recursion,
    and [None] means that it ran out (which [hasCycles_fuel_enough] below
    excludes for the fuel that [hasCycles] takes). *)
Definition DfsState : Type := (list string * list string)%type.

Fixpoint dfs_neighbors
    (dfs_rec : string -> list string -> list string -> option (bool * DfsState))
    (nodeId : string) (ns : list string) (visited recursionStack : list string)
    : option (bool * DfsState) :=
  match ns with
  | [] => Some (false, (visited, oset_delete nodeId recursionStack))
  | neighborId :: ns' =>
    if negb (mem neighborId visited) then
      match dfs_rec neighborId visited recursionStack with
      | None => None
      | Some (true, st) => Some (true, st)
      | Some (false, (visited', recursionStack')) =>
        dfs_neighbors dfs_rec nodeId ns' visited' recursionStack'
      end
    else if mem neighborId recursionStack then
      Some (true, (visited, recursionStack))
    else dfs_neighbors dfs_rec nodeId ns' visited recursionStack
  end.

Fixpoint dfs (fuel : nat) (g : t) (nodeId : string)
    (visited recursionStack : list string) : option (bool * DfsState) :=
  match fuel with
  | O => None
  | S fuel' =>
    dfs_neighbors (dfs fuel' g) nodeId (neighbors g nodeId)
      (oset_add nodeId visited) (oset_add nodeId recursionStack)
  end.

(** The outer [for] loop of [hasCycles] over [this.workOrders.keys()]. *)
Fixpoint hasCycles_roots (fuel : nat) (g : t) (roots : list string)
    (visited recursionStack : list string) : option bool :=
  match roots with
  | [] => Some false
  | nodeId :: roots' =>
    if negb (mem nodeId visited) then
      match dfs fuel g nodeId visited recursionStack with
      | None => None
      | Some (true, _) => Some true
      | Some (false, (visited', recursionStack')) =>
        hasCycles_roots fuel g roots' visited' recursionStack'
      end
    else hasCycles_roots fuel g roots' visited recursionStack
  end.

Definition hasCycles_opt (g : t) : option bool :=
  hasCycles_roots (length (workOrders g)) g (omap_keys (workOrders g)) [] [].

Definition hasCycles (g : t) : bool :=
  match hasCycles_opt g with
  | Some b => b
  | None => true
  end.

(** The [for] loop over the children of a dequeued node in
    [topologicalSort]. A child that is no key of [inDegreeClone] would get
    the degree [NaN], which never compares equal to 0: it is left alone. *)
Fixpoint decrementChildren (children : list string)
    (queue : list string) (inDegreeClone : list (string * Z))
    : list string * list (string * Z) :=
  match children with
  | [] => (queue, inDegreeClone)
  | childId :: rest =>
    match omap_get childId inDegreeClone with
    | None => decrementChildren rest queue inDegreeClone
    | Some degree =>
      let newDegree := degree - 1 in
      let inDegreeClone := omap_set childId newDegree inDegreeClone in
      if newDegree =? 0
      then decrementChildren rest (queue ++ [childId]) inDegreeClone
      else decrementChildren rest queue inDegreeClone
    end
  end.

(** The [while (queue.length > 0)] loop of [topologicalSort]; [None] when
    the fuel runs out ([kahn_fuel_enough] excludes it). The queue only
    ever holds keys of [workOrders] ([ki_keys]), so that
    [this.workOrders.get(nodeId)!] finds an order. *)
Fixpoint kahn_loop (fuel : nat) (g : t) (queue : list string)
    (result : list WorkOrderDocument) (inDegreeClone : list (string * Z))
    : option (list WorkOrderDocument) :=
  match queue with
  | [] => Some result
  | nodeId :: queue' =>
    match fuel with
    | O => None
    | S fuel' =>
      let result' :=
        match omap_get nodeId (workOrders g) with
        | Some workOrder => result ++ [workOrder]
        | None => result
        end in
      let '(queue'', inDegreeClone') :=
        decrementChildren (neighbors g nodeId) queue' inDegreeClone in
      kahn_loop fuel' g queue'' result' inDegreeClone'
    end
  end.

Definition zeroDegreeNodes (inDegreeClone : list (string * Z)) : list string :=
  map fst (List.filter (fun '(_, degree) => degree =? 0) inDegreeClone).

Definition kahn (g : t) : option (list WorkOrderDocument) :=
  kahn_loop (length (workOrders g)) g (zeroDegreeNodes (inDegree g)) [] (inDegree g).

Definition topologicalSort (g : t) : Result (list WorkOrderDocument) :=
  if hasCycles g then Err CircularDependencyDetected
  else
    match kahn g with
    | None => Err CycleDetected
    | Some result =>
      if negb (Nat.eqb (length result) (length (workOrders g)))
      then Err CycleDetected
      else Ok result
    end.

Definition getParents (g : t) (workOrderId : string) : Result (list WorkOrderDocument) :=
  match omap_get workOrderId (workOrders g) with
  | None => Err (WorkOrderNotFound workOrderId)
  | Some workOrder =>
    Ok (omap (fun id => omap_get id (workOrders g)) (dependsOnWorkOrderIds workOrder))
  end.

(** [getCycle]. The traversal is the one of [hasCycles]; here the
    recursion stack is an array ([push], [pop], [includes], [indexOf],
    [slice]) and a [parent] map records the node from which each node was
    first reached (it is written and never read). [None] of the outer
    option means that the fuel ran out; the inner option is the
    [string[] | null] of the source. *)
Definition CycleState : Type :=
  (list string * list string * list (string * string))%type.

(** [recursionStack.slice(recursionStack.indexOf(x))]. *)
Fixpoint sliceFrom (x : string) (recursionStack : list string) : list string :=
  match recursionStack with
  | [] => []
  | y :: rest => if String.eqb y x then recursionStack else sliceFrom x rest
  end.

Fixpoint getCycle_neighbors
    (dfs_rec : string -> list string -> list string -> list (string * string)
               -> option (option (list string) * CycleState))
    (nodeId : string) (ns : list string)
    (visited recursionStack : list string) (parent : list (string * string))
    : option (option (list string) * CycleState) :=
  match ns with
  | [] => Some (None, (visited, removelast recursionStack, parent))
  | neighborId :: ns' =>
    if negb (mem neighborId visited) then
      match dfs_rec neighborId visited recursionStack
              (omap_set neighborId nodeId parent) with
      | None => None
      | Some (Some cycle, st) => Some (Some cycle, st)
      | Some (None, (visited', recursionStack', parent')) =>
        getCycle_neighbors dfs_rec nodeId ns' visited' recursionStack' parent'
      end
    else if mem neighborId recursionStack then
      Some (Some (sliceFrom neighborId recursionStack),
            (visited, recursionStack, parent))
    else getCycle_neighbors dfs_rec nodeId ns' visited recursionStack parent
  end.

Fixpoint getCycle_dfs (fuel : nat) (g : t) (nodeId : string)
    (visited recursionStack : list string) (parent : list (string * string))
    : option (option (list string) * CycleState) :=
  match fuel with
  | O => None
  | S fuel' =>
    getCycle_neighbors (getCycle_dfs fuel' g) nodeId (neighbors g nodeId)
      (oset_add nodeId visited) (recursionStack ++ [nodeId]) parent
  end.

(** The outer [for] loop of [getCycle]. *)
Fixpoint getCycle_roots (fuel : nat) (g : t) (roots : list string)
    (visited recursionStack : list string) (parent : list (string * string))
    : option (option (list string)) :=
  match roots with
  | [] => Some None
  | nodeId :: roots' =>
    if negb (mem nodeId visited) then
      match getCycle_dfs fuel g nodeId visited recursionStack parent with
      | None => None
      | Some (Some cycle, _) => Some (Some cycle)
      | Some (None, (visited', recursionStack', parent')) =>
        getCycle_roots fuel g roots' visited' recursionStack' parent'
      end
    else getCycle_roots fuel g roots' visited recursionStack parent
  end.

Definition getCycle_opt (g : t) : option (option (list string)) :=
  getCycle_roots (length (workOrders g)) g (omap_keys (workOrders g)) [] [] [].

Definition getCycle (g : t) : option (list string) :=
  match getCycle_opt g with
  | Some cycle => cycle
  | None => None
  end.

Definition getChildren (g : t) (workOrderId : string) : list WorkOrderDocument :=
  omap (fun id => omap_get id (workOrders g)) (neighbors g workOrderId).

Definition canStart (g : t) (workOrderId : string)
    (completedWorkOrderIds : list string) : Result bool :=
  let* parents := getParents g workOrderId in
  Ok (forallb (fun parent => mem (docId parent) completedWorkOrderIds) parents).

End DependencyGraph.

(** ** ConstraintChecker *)

Inductive ViolationType : Type :=
| WORK_CENTER_OVERLAP
| DEPENDENCY_NOT_MET
| OUTSIDE_SHIFT
| DURING_MAINTENANCE.

(** [v_other] is [details.conflictsWith] of an overlap and
    [details.parentId] of an unmet dependency. *)
Record ConstraintViolation : Type := mkViolation {
  v_type : ViolationType;
  v_workOrderId : string;
  v_other : option string
}.

Definition workCenterMapOf (workCenters : list WorkCenterDocument)
    : list (string * WorkCenterDocument) :=
  fold_left (fun m wc => omap_set (wc_docId wc) wc m) workCenters [].

Module ConstraintChecker.

(** [byWorkCenter]: the orders of each work center, in input order. *)
Definition groupByWorkCenter (workOrders : list WorkOrderDocument)
    : list (string * list WorkOrderDocument) :=
  fold_left
    (fun byWorkCenter wo =>
       let wcId := workCenterId wo in
       match omap_get wcId byWorkCenter with
       | None => omap_set wcId [wo] byWorkCenter
       | Some orders => omap_set wcId (orders ++ [wo]) byWorkCenter
       end)
    workOrders [].

(** [orders.sort((a, b) => a.startDate - b.startDate)]: [Array.prototype.sort]
    is stable, so its result is the one of a stable insertion sort. *)
Fixpoint insertByStart (x : WorkOrderDocument) (l : list WorkOrderDocument)
    : list WorkOrderDocument :=
  match l with
  | [] => [x]
  | y :: l' =>
    if startDate x <=? startDate y then x :: y :: l' else y :: insertByStart x l'
  end.

Definition sortByStart (orders : list WorkOrderDocument) : list WorkOrderDocument :=
  foldr insertByStart [] orders.

(** The scan of consecutive orders of one work center. *)
Fixpoint scanConsecutive (sorted : list WorkOrderDocument) : list ConstraintViolation :=
  match sorted with
  | [] => []
  | current :: rest =>
    match rest with
    | [] => []
    | next :: _ =>
      (if timePeriodsOverlap (startDate current) (endDate current)
            (startDate next) (endDate next)
       then [mkViolation WORK_CENTER_OVERLAP (docId next) (Some (docId current))]
       else [])
      ++ scanConsecutive rest
    end
  end.

(** [workCenterMap] only gives the name of the work center for the text
    of the message. *)
Definition checkWorkCenterConflicts (workOrders : list WorkOrderDocument)
    (workCenterMap : list (string * WorkCenterDocument)) : list ConstraintViolation :=
  flat_map (fun '(wcId, orders) => scanConsecutive (sortByStart orders))
    (groupByWorkCenter workOrders).

Definition checkDependencies (workOrders : list WorkOrderDocument)
    : Result (list ConstraintViolation) :=
  let* dag := DependencyGraph.buildGraph workOrders in
  fold_left
    (fun acc workOrder =>
       let* violations := acc in
       let* parents := DependencyGraph.getParents dag (docId workOrder) in
       let childStart := startDate workOrder in
       Ok (violations ++
           flat_map
             (fun parent =>
                if endDate parent >? childStart
                then [mkViolation DEPENDENCY_NOT_MET (docId workOrder) (Some (docId parent))]
                else [])
             parents))
    workOrders (Ok []).

Definition checkShiftBoundaries (workOrders : list WorkOrderDocument)
    (workCenterMap : list (string * WorkCenterDocument)) : list ConstraintViolation :=
  flat_map
    (fun workOrder =>
       match omap_get (workCenterId workOrder) workCenterMap with
       | None => []
       | Some workCenter =>
         (if negb (isDuringShift (startDate workOrder) (shifts workCenter))
          then [mkViolation OUTSIDE_SHIFT (docId workOrder) None] else [])
         ++
         (if negb (isDuringShift (endDate workOrder) (shifts workCenter))
          then [mkViolation OUTSIDE_SHIFT (docId workOrder) None] else [])
       end)
    workOrders.

Definition checkMaintenanceConflicts (workOrders : list WorkOrderDocument)
    (workCenterMap : list (string * WorkCenterDocument)) : list ConstraintViolation :=
  flat_map
    (fun workOrder =>
       match omap_get (workCenterId workOrder) workCenterMap with
       | None => []
       | Some workCenter =>
         if overlapsMaintenance (startDate workOrder) (endDate workOrder)
              (maintenanceWindows workCenter)
         then [mkViolation DURING_MAINTENANCE (docId workOrder) None]
         else []
       end)
    workOrders.

Definition validate (workOrders : list WorkOrderDocument)
    (workCenters : list WorkCenterDocument) : Result (list ConstraintViolation) :=
  let workCenterMap := workCenterMapOf workCenters in
  let v1 := checkWorkCenterConflicts workOrders workCenterMap in
  let* v2 := checkDependencies workOrders in
  let v3 := checkShiftBoundaries workOrders workCenterMap in
  let v4 := checkMaintenanceConflicts workOrders workCenterMap in
  Ok (v1 ++ v2 ++ v3 ++ v4).

Definition isValid (workOrders : list WorkOrderDocument)
    (workCenters : list WorkCenterDocument) : Result bool :=
  let* violations := validate workOrders workCenters in
  Ok (Nat.eqb (length violations) 0).

End ConstraintChecker.

(** ** ReflowService *)

Inductive ChangedField : Type := FieldStartDate | FieldEndDate.

(** The parts that [getChangeReason] joins with "; "; no part at all reads
    "optimizing schedule". *)
Inductive ReasonPart : Type :=
| WaitingForDependencies (parentNumbers : list string)
| WorkCenterOccupied.

Record WorkOrderChange : Type := mkChange {
  ch_workOrderId : string;
  ch_workOrderNumber : string;
  ch_field : ChangedField;
  ch_oldValue : Z;
  ch_newValue : Z;
  ch_delayMinutes : Z;      (* in milliseconds *)
  ch_reason : list ReasonPart
}.

(** The entries of [violations] and the [explanation], by what they say. *)
Inductive Message : Type :=
| MsgCircularDependency                 (* "Circular dependency: ..." *)
| MsgError (e : Error)                  (* error.message *)
| MsgViolation (v : ConstraintViolation) (* v.message *).

Inductive Explanation : Type :=
| ExplCircular
| ExplFailed (e : Error)
| ExplCompleted (totalOrders changedOrders : nat) (isValid : bool)
    (violations : list ConstraintViolation).

Record ReflowInput : Type := mkInput {
  in_workOrders : list WorkOrderDocument;
  in_workCenters : list WorkCenterDocument;
  in_manufacturingOrders : list ManufacturingOrderDocument  (* carried, not read *)
}.

Record ReflowResult : Type := mkResult {
  updatedWorkOrders : list WorkOrderDocument;
  changes : list WorkOrderChange;
  explanation : Explanation;
  isValid : bool;
  violations : list Message
}.

Module ReflowService.

Section WithClock.

(** [DateTime.utc()]: the [n]-th reading of the clock during one call. *)
Variable clock : nat -> Z.

Definition getChangeReason (workOrder : WorkOrderDocument)
    (parents : list WorkOrderDocument) (wcAvailable : Z) (tick : nat)
    : list ReasonPart :=
  (match parents with
   | [] => []
   | _ => [WaitingForDependencies (map workOrderNumber parents)]
   end)
  ++ (if wcAvailable >? clock tick then [WorkCenterOccupied] else []).

(** Step 4: the initial availability of every work center. *)
Fixpoint initAvailability (workCenters : list WorkCenterDocument)
    (workCenterAvailability : list (string * Z)) (tick : nat)
    : Result (list (string * Z) * nat) :=
  match workCenters with
  | [] => Ok (workCenterAvailability, tick)
  | wc :: rest =>
    let now := clock tick in
    let* nextShift := findNextShiftStart now (shifts wc) in
    initAvailability rest (omap_set (wc_docId wc) nextShift workCenterAvailability)
      (S tick)
  end.

Record LoopState : Type := mkState {
  st_availability : list (string * Z);
  st_updated : list WorkOrderDocument;
  st_changes : list WorkOrderChange;
  st_tick : nat
}.

Definition withDates (workOrder : WorkOrderDocument) (newStartDate newEndDate : Z)
    : WorkOrderDocument :=
  mkWorkOrder (docId workOrder) (workOrderNumber workOrder)
    (manufacturingOrderId workOrder) (workCenterId workOrder)
    newStartDate newEndDate (durationMinutes workOrder)
    (isMaintenance workOrder) (dependsOnWorkOrderIds workOrder).

(** The end time of a parent: the one of its updated version when it has
    been processed, its original one otherwise. *)
Definition parentEndTime (updated : list WorkOrderDocument) (p : WorkOrderDocument) : Z :=
  match List.find (fun w => String.eqb (docId w) (docId p)) updated with
  | Some u => endDate u
  | None => endDate p
  end.

(** Step 5: the body of the loop over the ordered work orders. *)
Definition scheduleOne (dag : DependencyGraph.t)
    (workCenterMap : list (string * WorkCenterDocument))
    (st : LoopState) (workOrder : WorkOrderDocument) : Result LoopState :=
  if isMaintenance workOrder then
    Ok (mkState (st_availability st) (st_updated st ++ [workOrder])
          (st_changes st) (st_tick st))
  else
    match omap_get (workCenterId workOrder) workCenterMap with
    | None => Err (WorkCenterNotFound (workCenterId workOrder))
    | Some workCenter =>
      let* parents := DependencyGraph.getParents dag (docId workOrder) in
      let parentEndTimes := map (parentEndTime (st_updated st)) parents in
      let parentEndTimes :=
        match parentEndTimes with [] => [0] | _ => parentEndTimes end in
      let '(wcAvailable, tick) :=
        match omap_get (wc_docId workCenter) (st_availability st) with
        | Some available => (available, st_tick st)
        | None => (clock (st_tick st), S (st_tick st))
        end in
      let* newStartDate :=
        getEarliestStartTime parentEndTimes wcAvailable (shifts workCenter) in
      let* newEndDate :=
        calculateEndDate newStartDate (durationMinutes workOrder)
          (shifts workCenter) (maintenanceWindows workCenter) in
      let availability :=
        omap_set (wc_docId workCenter) newEndDate (st_availability st) in
      let updatedWorkOrder := withDates workOrder newStartDate newEndDate in
      if negb (startDate workOrder =? newStartDate)
         || negb (endDate workOrder =? newEndDate) then
        let delayMinutes := newStartDate - startDate workOrder in
        let change1 :=
          mkChange (docId workOrder) (workOrderNumber workOrder) FieldStartDate
            (startDate workOrder) newStartDate delayMinutes
            (getChangeReason workOrder parents wcAvailable tick) in
        let change2 :=
          mkChange (docId workOrder) (workOrderNumber workOrder) FieldEndDate
            (endDate workOrder) newEndDate delayMinutes
            (getChangeReason workOrder parents wcAvailable (S tick)) in
        Ok (mkState availability (st_updated st ++ [updatedWorkOrder])
              (st_changes st ++ [change1; change2]) (S (S tick)))
      else
        Ok (mkState availability (st_updated st ++ [updatedWorkOrder])
              (st_changes st) tick)
    end.

Fixpoint scheduleAll (dag : DependencyGraph.t)
    (workCenterMap : list (string * WorkCenterDocument))
    (orderedWorkOrders : list WorkOrderDocument) (st : LoopState) : Result LoopState :=
  match orderedWorkOrders with
  | [] => Ok st
  | workOrder :: rest =>
    let* st' := scheduleOne dag workCenterMap st workOrder in
    scheduleAll dag workCenterMap rest st'
  end.

(** The body of the [try] block. *)
Definition reflow_try (input : ReflowInput) : Result ReflowResult :=
  let* dag := DependencyGraph.buildGraph (in_workOrders input) in
  if DependencyGraph.hasCycles dag then
    Ok (mkResult [] [] ExplCircular false [MsgCircularDependency])
  else
    let* orderedWorkOrders := DependencyGraph.topologicalSort dag in
    let workCenterMap := workCenterMapOf (in_workCenters input) in
    let* init := initAvailability (in_workCenters input) [] 0%nat in
    let* st :=
      scheduleAll dag workCenterMap orderedWorkOrders
        (mkState (fst init) [] [] (snd init)) in
    let* violations :=
      ConstraintChecker.validate (st_updated st) (in_workCenters input) in
    let isValid := Nat.eqb (length violations) 0 in
    Ok (mkResult (st_updated st) (st_changes st)
          (ExplCompleted (length (in_workOrders input))
             (Nat.div (length (st_changes st)) 2) isValid violations)
          isValid (map MsgViolation violations)).

(** [reflow]: the [try] block and its [catch]. *)
Definition reflow (input : ReflowInput) : ReflowResult :=
  match reflow_try input with
  | Ok result => result
  | Err e => mkResult [] [] (ExplFailed e) false [MsgError e]
  end.

End WithClock.

End ReflowService.

(** ** Example data

    2025-01-13 is day 20101 of the epoch, a Monday; 2025-01-15 is day 20103,
    a Wednesday. *)

Module Examples.

Definition weekShifts : list Shift :=
  [mkShift 1 8 17; mkShift 2 8 17; mkShift 3 8 17; mkShift 4 8 17; mkShift 5 8 17].

Definition maintenance_10_14 (day : Z) : MaintenanceWindow :=
  mkMaintenanceWindow (at_ day 10 0) (at_ day 14 0) None.

Definition order (id wc : string) (start finish duration : Z)
    (maintenance : bool) (deps : list string) : WorkOrderDocument :=
  mkWorkOrder id id "mo-1" wc start finish duration maintenance deps.

(** A parent listed twice by its only child. *)
Definition duplicatedParent : list WorkOrderDocument :=
  [order "A" "wc-1" (at_ 20103 8 0) (at_ 20103 9 0) 60 false [];
   order "B" "wc-1" (at_ 20103 9 0) (at_ 20103 10 0) 60 false ["A"; "A"]].

(** A shift that starts at midnight, on Mondays only. *)
Definition midnightShift : list Shift := [mkShift 1 0 8].

(** A work center that is open from Monday to Friday, 08:00-17:00. *)
Definition line1 : WorkCenterDocument := mkWorkCenter "wc-1" "Line 1" weekShifts [].

(** The cascade A -> B -> C on that work center, with a maintenance order M
    on another center that the input does not list. *)
Definition cascade : ReflowInput :=
  mkInput
    [order "A" "wc-1" (at_ 20101 8 0) (at_ 20101 10 0) 120 false [];
     order "B" "wc-1" (at_ 20101 9 0) (at_ 20101 12 0) 180 false ["A"];
     order "C" "wc-1" (at_ 20101 10 0) (at_ 20101 11 0) 60 false ["B"];
     order "M" "wc-9" (at_ 20101 5 0) (at_ 20101 7 0) 120 true []]
    [line1] [].

(** A clock that reads Monday 06:00 throughout. *)
Definition mondayMorning : nat -> Z := fun _ => at_ 20101 6 0.

(** Two orders of one work center that overlap from 09:00 to 10:00. *)
Definition overlapping : list WorkOrderDocument :=
  [order "A" "wc-1" (at_ 20101 8 0) (at_ 20101 10 0) 120 false [];
   order "B" "wc-1" (at_ 20101 9 0) (at_ 20101 11 0) 120 false []].

(** One order to schedule, on a work center that the input does not list. *)
Definition missingCenter : ReflowInput :=
  mkInput [order "A" "wc-9" (at_ 20101 8 0) (at_ 20101 10 0) 120 false []] [line1] [].

End Examples.

(** ** Specification predicates *)

(** The shift table has the 08:00-17:00 shift on the weekday of [day]. *)
Definition dayShift_8_17 (day : Z) (shifts : list Shift) : Prop :=
  exists shift, getShiftForDay (weekday (at_ day 0 0)) shifts = Some shift
                /\ startHour shift = 8 /\ endHour shift = 17.

(** The dependency relation that a list of work orders declares:
    [child] lists [parent] in its [dependsOnWorkOrderIds]. *)
Definition dependsOn (workOrders : list WorkOrderDocument) (child parent : string) : Prop :=
  exists w, w ∈ workOrders /\ docId w = child /\ parent ∈ dependsOnWorkOrderIds w.

(** No work order depends on itself through a chain of dependencies. *)
Definition acyclic (workOrders : list WorkOrderDocument) : Prop :=
  forall id, ~ tc (dependsOn workOrders) id id.

(** The ids of the work orders identify them. *)
Definition uniqueIds (workOrders : list WorkOrderDocument) : Prop :=
  NoDup (map docId workOrders).

(** What the three maps of a constructed graph have in common: one set of
    keys, without repetition, and children that are keys. *)
Record graph_wf (g : DependencyGraph.t) : Prop := mkGraphWf {
  wf_adj_keys :
    omap_keys (DependencyGraph.adjacencyList g) = omap_keys (DependencyGraph.workOrders g);
  wf_deg_keys :
    omap_keys (DependencyGraph.inDegree g) = omap_keys (DependencyGraph.workOrders g);
  wf_keys_NoDup : NoDup (omap_keys (DependencyGraph.workOrders g));
  wf_children :
    forall p cs, omap_get p (DependencyGraph.adjacencyList g) = Some cs ->
      NoDup cs /\ forall c, c ∈ cs -> c ∈ omap_keys (DependencyGraph.workOrders g)
}.

(** The children that the second loop of [buildGraph] adds to the set of
    the parent [p], starting from the set [init]. *)
Definition childrenOf (workOrders : list WorkOrderDocument) (p : string)
    (init : list string) : list string :=
  fold_left
    (fun cs w => if mem p (dependsOnWorkOrderIds w) then oset_add (docId w) cs else cs)
    workOrders init.

(** *** Kahn's algorithm, seen through the ids it emits *)

(** The children that reach degree 0 when a node is dequeued, and the
    degrees after that node is dequeued. *)
Definition pushedChildren (children : list string) (deg : list (string * Z)) : list string :=
  List.filter
    (fun c => match omap_get c deg with Some d => d - 1 =? 0 | None => false end)
    children.

Definition decrementAll (children : list string) (deg : list (string * Z))
    : list (string * Z) :=
  fold_left
    (fun m c => match omap_get c m with Some d => omap_set c (d - 1) m | None => m end)
    children deg.

(** The ids in the order in which [kahn_loop] dequeues them. *)
Fixpoint kahn_ids (fuel : nat) (g : DependencyGraph.t) (queue : list string)
    (deg : list (string * Z)) : option (list string) :=
  match queue with
  | [] => Some []
  | nodeId :: queue' =>
    match fuel with
    | O => None
    | S fuel' =>
      let '(queue'', deg') :=
        DependencyGraph.decrementChildren (DependencyGraph.neighbors g nodeId) queue' deg in
      match kahn_ids fuel' g queue'' deg' with
      | Some ids => Some (nodeId :: ids)
      | None => None
      end
    end
  end.

Definition lookupAll (g : DependencyGraph.t) (ids : list string) : list WorkOrderDocument :=
  omap (fun id => omap_get id (DependencyGraph.workOrders g)) ids.

(** The invariant of the queue: [done] are the ids dequeued so far. *)
Record kahn_inv (g : DependencyGraph.t) (done queue : list string)
    (deg : list (string * Z)) : Prop := mkKahnInv {
  ki_NoDup : NoDup (done ++ queue);
  ki_keys : forall x, x ∈ done ++ queue -> x ∈ omap_keys (DependencyGraph.workOrders g);
  ki_deg_keys : omap_keys deg = omap_keys (DependencyGraph.workOrders g);
  ki_deg_le : forall x d, x ∈ done ++ queue -> omap_get x deg = Some d -> d <= 0
}.

(** The number of the parents of [c] among the ids [done]. *)
Definition parentCount (g : DependencyGraph.t) (c : string) (done : list string) : Z :=
  Z.of_nat (length (filter (fun p => c ∈ DependencyGraph.neighbors g p) done)).

(** Every id of the list comes after all the ids it depends on. *)
Definition parentsFirst (workOrders : list WorkOrderDocument) (ids : list string) : Prop :=
  forall l1 x l2, ids = l1 ++ x :: l2 ->
    forall p, dependsOn workOrders x p -> p ∈ l1.

(** The invariant that ties the degrees to the declared dependencies. *)
Record kahn_deps (workOrders : list WorkOrderDocument) (g : DependencyGraph.t)
    (done queue : list string) (deg : list (string * Z)) : Prop := mkKahnDeps {
  kd_deg : forall w, w ∈ workOrders ->
    omap_get (docId w) deg
    = Some (Z.of_nat (length (dependsOnWorkOrderIds w)) - parentCount g (docId w) done);
  kd_queue : forall x p, x ∈ queue -> dependsOn workOrders x p -> p ∈ done;
  kd_done : parentsFirst workOrders done
}.

(** *** The traversal of [hasCycles] *)

(** An edge of the graph, from a parent to a child. *)
Definition edge (g : DependencyGraph.t) (p c : string) : Prop :=
  c ∈ DependencyGraph.neighbors g p.

(** The number of nodes that the traversal has not visited yet. *)
Definition unvisited (g : DependencyGraph.t) (visited : list string) : nat :=
  length (filter (fun k => k ∉ visited) (omap_keys (DependencyGraph.workOrders g))).

(** *** The schedule that the loop of [reflow] builds *)

(** The orders scheduled so far follow one another on every work center:
    an order that is not a maintenance order ends no earlier than it
    starts and no later than the availability recorded for its work
    center, and it ends before every later such order of the same work
    center starts. *)
Record sequenced (updated : list WorkOrderDocument)
    (availability : list (string * Z)) : Prop := mkSequenced {
  sq_each : forall w, w ∈ updated -> isMaintenance w = false ->
    startDate w <= endDate w
    /\ exists a, omap_get (workCenterId w) availability = Some a /\ endDate w <= a;
  sq_pair : forall (i j : nat) wi wj, (i < j)%nat ->
    updated !! i = Some wi -> updated !! j = Some wj ->
    isMaintenance wi = false -> isMaintenance wj = false ->
    workCenterId wi = workCenterId wj ->
    endDate wi <= startDate wj
}.

(** An order and its updated version: a maintenance order is passed on
    as it is, another order gets new dates and keeps its other fields. *)
Definition updates (w u : WorkOrderDocument) : Prop :=
  (isMaintenance w = true /\ u = w)
  \/ (isMaintenance w = false
      /\ exists newStartDate newEndDate,
           u = ReflowService.withDates w newStartDate newEndDate).

(** Every updated order that is not a maintenance order starts at or
    after the end of an earlier updated order for each id it depends on. *)
Definition startsAfterParents (updated : list WorkOrderDocument) : Prop :=
  forall (i : nat) w pid,
    updated !! i = Some w -> isMaintenance w = false ->
    pid ∈ dependsOnWorkOrderIds w ->
    exists (j : nat) p,
      (j < i)%nat /\ updated !! j = Some p /\ docId p = pid /\ endDate p <= startDate w.

(** *** Schedules *)

(** Two orders at different positions of the list are assigned to the same
    work center and their half-open intervals [startDate, endDate) meet. *)
Definition overlappingPair (workOrders : list WorkOrderDocument) : Prop :=
  exists (i j : nat) wi wj,
    i <> j /\ workOrders !! i = Some wi /\ workOrders !! j = Some wj
    /\ workCenterId wi = workCenterId wj
    /\ startDate wi < endDate wj /\ startDate wj < endDate wi.

Definition hasOverlapViolation (vs : list ConstraintViolation) : Prop :=
  exists v, v ∈ vs /\ v_type v = WORK_CENTER_OVERLAP.

(** Every id in a dependency list is the id of an order of the list. *)
Definition dependenciesExist (workOrders : list WorkOrderDocument) : Prop :=
  forall w p, w ∈ workOrders -> p ∈ dependsOnWorkOrderIds w -> p ∈ map docId workOrders.

(** The orders meet as half-open intervals. *)
Definition meet (a b : WorkOrderDocument) : Prop :=
  startDate a < endDate b /\ startDate b < endDate a.

(** The result that [reflow] returns for a failure: invalid, without
    orders and changes, and with one entry that describes the failure. *)
Definition failureResult (r : ReflowResult) : Prop :=
  isValid r = false /\ updatedWorkOrders r = [] /\ changes r = []
  /\ (violations r = [MsgCircularDependency]
      \/ exists e, violations r = [MsgError e]).


(** One iteration of the grouping loop of [checkWorkCenterConflicts]. *)
Definition groupStep (byWorkCenter : list (string * list WorkOrderDocument))
    (w : WorkOrderDocument) : list (string * list WorkOrderDocument) :=
  match omap_get (workCenterId w) byWorkCenter with
  | None => omap_set (workCenterId w) [w] byWorkCenter
  | Some orders => omap_set (workCenterId w) (orders ++ [w]) byWorkCenter
  end.

(** The order that the comparator of the sort induces. *)
Definition startLe (a b : WorkOrderDocument) : Prop := startDate a <= startDate b.

(** The shape of a call of [reflow]: it fails, it reports a cycle, or it
    went through every step. *)
Inductive reflow_outcome (clock : nat -> Z) (input : ReflowInput) (r : ReflowResult)
    : Prop :=
| reflow_failed e :
    ReflowService.reflow_try clock input = Err e ->
    r = mkResult [] [] (ExplFailed e) false [MsgError e] ->
    reflow_outcome clock input r
| reflow_circular dag :
    DependencyGraph.buildGraph (in_workOrders input) = Ok dag ->
    DependencyGraph.hasCycles dag = true ->
    r = mkResult [] [] ExplCircular false [MsgCircularDependency] ->
    reflow_outcome clock input r
| reflow_scheduled dag ordered init st vs :
    DependencyGraph.buildGraph (in_workOrders input) = Ok dag ->
    DependencyGraph.hasCycles dag = false ->
    DependencyGraph.topologicalSort dag = Ok ordered ->
    ReflowService.initAvailability clock (in_workCenters input) [] 0%nat = Ok init ->
    ReflowService.scheduleAll clock dag (workCenterMapOf (in_workCenters input)) ordered
      (ReflowService.mkState (fst init) [] [] (snd init)) = Ok st ->
    ConstraintChecker.validate (ReflowService.st_updated st) (in_workCenters input) = Ok vs ->
    updatedWorkOrders r = ReflowService.st_updated st ->
    changes r = ReflowService.st_changes st ->
    isValid r = Nat.eqb (length vs) 0 ->
    violations r = map MsgViolation vs ->
    reflow_outcome clock input r.

(** Consecutive entries of the list are related. *)
Definition chain (R : relation string) (l : list string) : Prop :=
  forall (i : nat) x y, l !! i = Some x -> l !! S i = Some y -> R x y.

(** Every key whose degree has reached 0 has been put in the queue. *)
Definition kahn_zero (done queue : list string) (deg : list (string * Z)) : Prop :=
  forall k, omap_get k deg = Some 0 -> k ∈ done ++ queue.

(** The calendar day of an instant, in days since the epoch. *)
Definition dayOf (dt : Z) : Z := dt / msPerDay.

(** The instant at which the shift of a calendar day starts, when the day
    has one. *)
Definition shiftStartOn (shifts : list Shift) (day : Z) : option Z :=
  match getShiftForDay (weekday (day * msPerDay)) shifts with
  | Some shift => Some (day * msPerDay + startHour shift * msPerHour)
  | None => None
  end.

(** ** Tactics *)

(** Decides the integer comparisons of the goal that [lia] can settle. *)
Ltac zbool :=
  rewrite ?Z.gtb_ltb, ?Z.geb_leb;
  repeat match goal with
  | |- context [?a <? ?b] =>
    first [ rewrite (proj2 (Z.ltb_lt a b)) by lia
          | rewrite (proj2 (Z.ltb_ge a b)) by lia ]
  | |- context [?a <=? ?b] =>
    first [ rewrite (proj2 (Z.leb_le a b)) by lia
          | rewrite (proj2 (Z.leb_gt a b)) by lia ]
  | _ => progress cbn [andb orb negb]
  end.


(** ** Predicates for the further properties *)

(** [w] is the first order of the list, and [p] the first id in its
    dependency list, that is the id of no order of the list. *)
Definition firstMissingParent (workOrders : list WorkOrderDocument)
    (w : WorkOrderDocument) (p : string) : Prop :=
  exists before after ps1 ps2,
    workOrders = before ++ w :: after
    /\ dependsOnWorkOrderIds w = ps1 ++ p :: ps2
    /\ (p ∉ map docId workOrders)
    /\ (forall w' q, w' ∈ before -> q ∈ dependsOnWorkOrderIds w' ->
          q ∈ map docId workOrders)
    /\ (forall q, q ∈ ps1 -> q ∈ map docId workOrders).

(** A node that the traversal has left: visited, and no longer on the
    recursion stack. *)
Definition finished (visited recursionStack : list string) (x : string) : Prop :=
  x ∈ visited /\ x ∉ recursionStack.

(** The nodes that the traversal has left are closed under the edges, and
    none of them lies on a cycle. *)
Definition dfs_closed (g : DependencyGraph.t) (visited recursionStack : list string)
    : Prop :=
  forall x, finished visited recursionStack x ->
    (forall y, edge g x y -> finished visited recursionStack y)
    /\ ~ tc (edge g) x x.

(** A path without repetition along a relation whose last node is
    related to the first. *)
Definition closedPath (R : relation string) (path : list string) : Prop :=
  NoDup path
  /\ chain R path
  /\ exists first final,
       head path = Some first /\ last path = Some final /\ R final first.

(** [parent] is listed by [child]: the direction of the edges of the
    graph. *)
Definition parentOf (workOrders : list WorkOrderDocument) (parent child : string)
    : Prop :=
  dependsOn workOrders child parent.


Module MoreExamples.

(** Three orders that wait for one another: A for C, B for A, C for B. *)
Definition circular : list WorkOrderDocument :=
  [Examples.order "A" "wc-1" (at_ 20101 8 0) (at_ 20101 9 0) 60 false ["C"];
   Examples.order "B" "wc-1" (at_ 20101 9 0) (at_ 20101 10 0) 60 false ["A"];
   Examples.order "C" "wc-1" (at_ 20101 10 0) (at_ 20101 11 0) 60 false ["B"]].

(** An order that names a parent which is not in the list. *)
Definition dangling : list WorkOrderDocument :=
  [Examples.order "A" "wc-1" (at_ 20101 8 0) (at_ 20101 9 0) 60 false [];
   Examples.order "B" "wc-1" (at_ 20101 9 0) (at_ 20101 10 0) 60 false ["A"; "Z"]].

(** Two orders of one work center that follow one another during the
    Monday shift. *)
Definition sequence : list WorkOrderDocument :=
  [Examples.order "A" "wc-1" (at_ 20101 8 0) (at_ 20101 10 0) 120 false [];
   Examples.order "B" "wc-1" (at_ 20101 10 0) (at_ 20101 12 0) 120 false ["A"]].

(** One order of nine hours on the work center that is open from 08:00 to
    17:00. *)
Definition fullShift : ReflowInput :=
  mkInput [Examples.order "A" "wc-1" (at_ 20101 8 0) (at_ 20101 17 0) 540 false []]
    [Examples.line1] [].

End MoreExamples.

(** What a call of the closure [dfs] of [hasCycles] that finds no cycle
    does: it restores the recursion stack and leaves the node it was
    called on. *)
Definition dfs_leaves (g : DependencyGraph.t)
    (dfs_rec : string -> list string -> list string
               -> option (bool * DependencyGraph.DfsState)) : Prop :=
  forall nb visited recursionStack visited' recursionStack',
    dfs_rec nb visited recursionStack = Some (false, (visited', recursionStack')) ->
    nb ∉ visited ->
    dfs_closed g visited recursionStack ->
    (forall x, x ∈ recursionStack -> x ∈ visited) ->
    NoDup recursionStack ->
    recursionStack' = recursionStack
    /\ (forall x, x ∈ visited -> x ∈ visited')
    /\ nb ∈ visited'
    /\ dfs_closed g visited' recursionStack'.

(** The closures of [hasCycles] and of [getCycle] agree on a call: they
    run out of fuel together, find a cycle together (and then [getCycle]
    has a closed path), or leave the same state, with the recursion stack
    as it was. *)
Definition dfs_agree (g : DependencyGraph.t)
    (r1 : option (bool * DependencyGraph.DfsState))
    (r2 : option (option (list string) * DependencyGraph.CycleState))
    (visited recursionStack : list string) : Prop :=
  match r1, r2 with
  | None, None => True
  | Some (true, _), Some (Some cycle, _) => closedPath (edge g) cycle
  | Some (false, (v1, s1)), Some (None, (v2, s2, _)) =>
      v1 = v2 /\ s1 = s2 /\ s1 = recursionStack /\ forall x, x ∈ visited -> x ∈ v1
  | _, _ => False
  end.

Definition getCycle_follows (g : DependencyGraph.t)
    (rec1 : string -> list string -> list string
            -> option (bool * DependencyGraph.DfsState))
    (rec2 : string -> list string -> list string -> list (string * string)
            -> option (option (list string) * DependencyGraph.CycleState)) : Prop :=
  forall nb visited recursionStack parent,
    nb ∉ visited ->
    (forall x, x ∈ recursionStack -> x ∈ visited) ->
    NoDup recursionStack ->
    chain (edge g) (recursionStack ++ [nb]) ->
    dfs_agree g (rec1 nb visited recursionStack)
      (rec2 nb visited recursionStack parent) visited recursionStack.

(** *** What the checks of [ConstraintChecker] report *)

(** The violation that [checkDependencies] records for the order [w] and
    its parent [p] when [p] ends after [w] starts. *)
Definition unmetDependency (workOrders : list WorkOrderDocument)
    (v : ConstraintViolation) : Prop :=
  exists w p,
    w ∈ workOrders /\ p ∈ workOrders /\ docId p ∈ dependsOnWorkOrderIds w
    /\ startDate w < endDate p
    /\ v = mkViolation DEPENDENCY_NOT_MET (docId w) (Some (docId p)).

(** The violations that one iteration of the loop of [checkDependencies]
    adds. *)
Definition dependencyViolations (g : DependencyGraph.t) (workOrder : WorkOrderDocument)
    : list ConstraintViolation :=
  match DependencyGraph.getParents g (docId workOrder) with
  | Ok parents =>
    flat_map
      (fun parent =>
         if endDate parent >? startDate workOrder
         then [mkViolation DEPENDENCY_NOT_MET (docId workOrder) (Some (docId parent))]
         else [])
      parents
  | Err _ => []
  end.

(** Every order starts at or after the end of each order it depends on. *)
Definition dependenciesMet (workOrders : list WorkOrderDocument) : Prop :=
  forall w p, w ∈ workOrders -> p ∈ workOrders ->
    docId p ∈ dependsOnWorkOrderIds w -> endDate p <= startDate w.

(** Every order whose work center is listed starts and ends during a
    shift of that work center. *)
Definition withinShifts (workOrders : list WorkOrderDocument)
    (workCenters : list WorkCenterDocument) : Prop :=
  forall w wc, w ∈ workOrders ->
    omap_get (workCenterId w) (workCenterMapOf workCenters) = Some wc ->
    isDuringShift (startDate w) (shifts wc) = true
    /\ isDuringShift (endDate w) (shifts wc) = true.

(** No order whose work center is listed meets a maintenance window of
    that work center. *)
Definition clearOfMaintenance (workOrders : list WorkOrderDocument)
    (workCenters : list WorkCenterDocument) : Prop :=
  forall w wc, w ∈ workOrders ->
    omap_get (workCenterId w) (workCenterMapOf workCenters) = Some wc ->
    overlapsMaintenance (startDate w) (endDate w) (maintenanceWindows wc) = false.

(** *** What [reflow] records *)



(** The instant is after one of the first [n] readings of the clock. *)
Definition afterClock (clock : nat -> Z) (n : nat) (v : Z) : Prop :=
  exists t, (t < n)%nat /\ clock t < v.

(** The hours of the shifts are as the type documents, and every shift
    ends after it starts. *)
Definition wellFormedShifts (shifts : list Shift) : Prop :=
  forall shift, shift ∈ shifts ->
    0 <= startHour shift < endHour shift /\ startHour shift <= 23 /\ endHour shift <= 24.
(* ================================================================== *)
(** * Properties *)
(* ================================================================== *)

(** ** DateUtils: calendar arithmetic *)

Section Calendar.

Lemma startOfDay_at d h m :
  0 <= h * msPerHour + m * msPerMinute < msPerDay ->
  startOfDay (at_ d h m) = d * msPerDay.
Proof.
  unfold startOfDay, at_, msPerHour, msPerMinute, msPerDay. intros H.
  replace (d * 86400000 + h * 3600000 + m * 60000)
    with ((h * 3600000 + m * 60000) + d * 86400000) by lia.
  rewrite Z_mod_plus_full, Z.mod_small by exact H. lia.
Qed.

Lemma weekday_at d h m :
  0 <= h * msPerHour + m * msPerMinute < msPerDay ->
  weekday (at_ d h m) = (d + 3) mod 7 + 1.
Proof.
  unfold weekday, at_, msPerHour, msPerMinute, msPerDay. intros H.
  replace (d * 86400000 + h * 3600000 + m * 60000)
    with ((h * 3600000 + m * 60000) + d * 86400000) by lia.
  rewrite Z_div_plus_full, Z.div_small by (exact H || lia). reflexivity.
Qed.

Lemma nextDayStart_at d h m :
  0 <= h * msPerHour + m * msPerMinute < msPerDay ->
  nextDayStart (at_ d h m) = at_ (d + 1) 0 0.
Proof.
  intros H. unfold nextDayStart.
  replace (at_ d h m + msPerDay) with (at_ (d + 1) h m)
    by (unfold at_, msPerDay; lia).
  rewrite startOfDay_at by exact H. unfold at_. lia.
Qed.

Lemma setHour_at d h m k :
  0 <= h * msPerHour + m * msPerMinute < msPerDay ->
  setHour (at_ d h m) k = at_ d k 0.
Proof.
  intros H. unfold setHour. rewrite startOfDay_at by exact H. unfold at_. lia.
Qed.

Lemma startOfDay_le dt : startOfDay dt <= dt.
Proof.
  unfold startOfDay, msPerDay.
  pose proof (Z.mod_pos_bound dt 86400000). lia.
Qed.

Lemma nextDayStart_gt dt : dt < nextDayStart dt.
Proof.
  unfold nextDayStart, startOfDay, msPerDay.
  replace (dt + 86400000) with (dt + 1 * 86400000) by lia.
  rewrite Z_mod_plus_full.
  pose proof (Z.mod_pos_bound dt 86400000). lia.
Qed.

End Calendar.

Lemma calculateEndDate_loop_S n currentDate remaining shifts windows :
  calculateEndDate_loop (S n) currentDate remaining shifts windows =
  if remaining <=? 0 then (currentDate, S n) else
    match getShiftForDay (weekday currentDate) shifts with
    | None =>
      calculateEndDate_loop n (nextDayStart currentDate) remaining shifts windows
    | Some shift =>
      let shiftStart := setHour currentDate (startHour shift) in
      let shiftEnd := setHour currentDate (endHour shift) in
      let workStart := if currentDate >? shiftStart then currentDate else shiftStart in
      if workStart >=? shiftEnd then
        calculateEndDate_loop n (nextDayStart currentDate) remaining shifts windows
      else
        let effectiveShiftEnd := getEffectiveShiftEnd workStart shiftEnd windows in
        let availableMinutes := effectiveShiftEnd - workStart in
        if availableMinutes <=? 0 then
          calculateEndDate_loop n (nextDayStart currentDate) remaining shifts windows
        else
          let minutesToWork := Z.min remaining availableMinutes in
          let remaining' := remaining - minutesToWork in
          if remaining' >? 0 then
            calculateEndDate_loop n (nextDayStart currentDate) remaining' shifts windows
          else
            calculateEndDate_loop n (workStart + minutesToWork) remaining' shifts windows
    end.
Proof. reflexivity. Qed.

Lemma calculateEndDate_loop_done n currentDate remaining shifts windows :
  remaining <= 0 ->
  calculateEndDate_loop n currentDate remaining shifts windows = (currentDate, n).
Proof.
  intros H. destruct n; simpl; destruct (Z.leb_spec remaining 0); try lia; reflexivity.
Qed.

(** One iteration of the loop on a day that has a shift, in its two
    productive outcomes. *)
Section LoopSteps.

Variables (n : nat) (currentDate remaining : Z).
Variables (shifts : list Shift) (windows : list MaintenanceWindow) (shift : Shift).
Hypothesis Hshift : getShiftForDay (weekday currentDate) shifts = Some shift.

Let workStart := Z.max currentDate (setHour currentDate (startHour shift)).
Let shiftEnd := setHour currentDate (endHour shift).
Let available := getEffectiveShiftEnd workStart shiftEnd windows - workStart.

Lemma calculateEndDate_loop_pause :
  workStart < shiftEnd -> 0 < available < remaining ->
  calculateEndDate_loop (S n) currentDate remaining shifts windows =
  calculateEndDate_loop n (nextDayStart currentDate) (remaining - available)
    shifts windows.
Proof.
  intros Hlt Hav. rewrite calculateEndDate_loop_S, Hshift. cbv zeta.
  replace (if currentDate >? setHour currentDate (startHour shift)
           then currentDate else setHour currentDate (startHour shift))
    with workStart
    by (subst workStart; rewrite Z.gtb_ltb;
        destruct (Z.ltb_spec (setHour currentDate (startHour shift)) currentDate); lia).
  fold shiftEnd. fold available.
  rewrite Z.min_r by lia.
  zbool. reflexivity.
Qed.

Lemma calculateEndDate_loop_complete :
  workStart < shiftEnd -> 0 < remaining <= available ->
  calculateEndDate_loop (S n) currentDate remaining shifts windows =
  (workStart + remaining, n).
Proof.
  intros Hlt Hav. rewrite calculateEndDate_loop_S, Hshift. cbv zeta.
  replace (if currentDate >? setHour currentDate (startHour shift)
           then currentDate else setHour currentDate (startHour shift))
    with workStart
    by (subst workStart; rewrite Z.gtb_ltb;
        destruct (Z.ltb_spec (setHour currentDate (startHour shift)) currentDate); lia).
  fold shiftEnd. fold available.
  rewrite Z.min_l by lia.
  zbool. apply calculateEndDate_loop_done. lia.
Qed.

End LoopSteps.

(** ** C1: the maintenance-fragmentation example *)

(** C1, as the code has it: a 300-minute order that starts at 08:00 on a day
    with an 08:00-17:00 shift and a 10:00-14:00 maintenance window works its
    first 120 minutes before the maintenance, then stops for the day; when
    the next day also has an 08:00-17:00 shift it works the remaining 180
    minutes from 08:00 and completes at 11:00 on that next day. *)
Theorem C1_calculateEndDate_stops_at_maintenance (day : Z) (shifts : list Shift) :
  dayShift_8_17 day shifts ->
  dayShift_8_17 (day + 1) shifts ->
  calculateEndDate (at_ day 8 0) 300 shifts [Examples.maintenance_10_14 day]
  = Ok (at_ (day + 1) 11 0).
Proof.
  intros (s1 & Hs1 & Hs1a & Hs1b) (s2 & Hs2 & Hs2a & Hs2b).
  assert (Hr : forall h, 0 <= h < 24 -> 0 <= h * msPerHour + 0 * msPerMinute < msPerDay)
    by (unfold msPerHour, msPerMinute, msPerDay; lia).
  assert (Hw1 : weekday (at_ day 8 0) = weekday (at_ day 0 0))
    by (rewrite !weekday_at by (apply Hr; lia); reflexivity).
  rewrite <- Hw1 in Hs1.
  unfold calculateEndDate.
  change maxDays with (S (S (S 362))).
  (* first day: 08:00-10:00, where the maintenance window caps the shift *)
  rewrite (calculateEndDate_loop_pause _ _ _ _ _ _ Hs1); rewrite Hs1a, Hs1b;
    rewrite !setHour_at by (apply Hr; lia);
    unfold getEffectiveShiftEnd, Examples.maintenance_10_14;
    cbn [fold_left mw_startDate mw_endDate].
  2, 3: unfold at_, msPerDay, msPerHour, msPerMinute; zbool; lia.
  rewrite nextDayStart_at by (apply Hr; lia).
  (* next day: the remaining 180 minutes from 08:00 *)
  rewrite (calculateEndDate_loop_complete _ _ _ _ _ _ Hs2); rewrite ?Hs2a, ?Hs2b;
    rewrite !setHour_at by (apply Hr; lia);
    unfold getEffectiveShiftEnd; cbn [fold_left mw_startDate mw_endDate].
  2, 3: unfold at_, msPerDay, msPerHour, msPerMinute; zbool; lia.
  f_equal. unfold at_, msPerDay, msPerHour, msPerMinute. zbool. lia.
Qed.

(** C1 at the concrete Wednesday 2025-01-15 of a Monday-to-Friday week. *)
Lemma C1_witness :
  calculateEndDate (at_ 20103 8 0) 300 Examples.weekShifts
    [Examples.maintenance_10_14 20103] = Ok (at_ 20104 11 0).
Proof.
  apply (C1_calculateEndDate_stops_at_maintenance 20103 Examples.weekShifts).
  - exists (mkShift 3 8 17). vm_compute. auto.
  - exists (mkShift 4 8 17). vm_compute. auto.
Defined.

(** The completion instant of the example is not 15:00 of the same day. *)
Lemma C1_counterexample :
  calculateEndDate (at_ 20103 8 0) 300 Examples.weekShifts
    [Examples.maintenance_10_14 20103] <> Ok (at_ 20103 15 0).
Proof. vm_compute. discriminate. Qed.

(** ** C9: the next shift start *)

(** C9 at a failing input: from Monday 05:00, with a single shift that
    starts at midnight on Mondays, the Monday one week later is a shift
    start strictly after the given instant and seven days ahead, yet the
    search fails. On the days after the first the scan stands at midnight,
    and a shift start at midnight is not strictly after it. *)
Theorem C9_findNextShiftStart_midnight_shift :
  findNextShiftStart (at_ 20101 5 0) Examples.midnightShift = Err NoShiftFound
  /\ (exists shift,
        getShiftForDay (weekday (at_ 20108 0 0)) Examples.midnightShift = Some shift
        /\ setHour (at_ 20108 0 0) (startHour shift) = at_ 20108 0 0)
  /\ at_ 20101 5 0 < at_ 20108 0 0 < at_ 20101 5 0 + 30 * msPerDay.
Proof.
  split; [vm_compute; reflexivity|]. split.
  - exists (mkShift 1 0 8). vm_compute. auto.
  - vm_compute. split; reflexivity.
Qed.

(** ** DateUtils: the computed instants never move backwards *)

Lemma findNextShiftStart_loop_gt n currentDate shifts r :
  findNextShiftStart_loop n currentDate shifts = Ok r -> currentDate < r.
Proof.
  revert currentDate. induction n as [|n IH]; intros currentDate; simpl; [done|].
  pose proof (nextDayStart_gt currentDate) as Hnext.
  destruct (getShiftForDay (weekday currentDate) shifts) as [shift|].
  - destruct (Z.gtb_spec (setHour currentDate (startHour shift)) currentDate).
    + intros [= <-]. lia.
    + intros Hr. apply IH in Hr. lia.
  - intros Hr. apply IH in Hr. lia.
Qed.

Lemma findNextShiftStart_gt fromDate shifts r :
  findNextShiftStart fromDate shifts = Ok r -> fromDate < r.
Proof. apply findNextShiftStart_loop_gt. Qed.

(** ** DateUtils: [findNextShiftStart] for shifts that start after midnight *)

Section NextShift.

Lemma startOfDay_dayOf dt : startOfDay dt = dayOf dt * msPerDay.
Proof.
  unfold startOfDay, dayOf, msPerDay.
  pose proof (Z.div_mod dt 86400000). lia.
Qed.

Lemma dayOf_bounds dt : dayOf dt * msPerDay <= dt < (dayOf dt + 1) * msPerDay.
Proof.
  unfold dayOf, msPerDay.
  pose proof (Z.div_mod dt 86400000). pose proof (Z.mod_pos_bound dt 86400000). lia.
Qed.

Lemma dayOf_midnight d : dayOf (d * msPerDay) = d.
Proof. unfold dayOf, msPerDay. by rewrite Z_div_mult_full. Qed.

Lemma weekday_dayOf dt : weekday dt = weekday (dayOf dt * msPerDay).
Proof. unfold weekday, dayOf. by rewrite Z_div_mult_full. Qed.

Lemma nextDayStart_dayOf dt : nextDayStart dt = (dayOf dt + 1) * msPerDay.
Proof.
  unfold nextDayStart. rewrite startOfDay_dayOf. f_equal.
  unfold dayOf, msPerDay.
  replace (dt + 86400000) with (dt + 1 * 86400000) by lia.
  by rewrite Z_div_plus_full.
Qed.

Lemma getShiftForDay_elem wd shifts shift :
  getShiftForDay wd shifts = Some shift -> shift ∈ shifts.
Proof.
  unfold getShiftForDay. intros H. apply find_some in H as [H _].
  by apply list_elem_of_In.
Qed.

Variable shifts : list Shift.
Hypothesis Hhours : forall shift, shift ∈ shifts -> 1 <= startHour shift <= 23.

Lemma shiftStartOn_bounds d t :
  shiftStartOn shifts d = Some t ->
  d * msPerDay < t < (d + 1) * msPerDay.
Proof.
  unfold shiftStartOn.
  destruct (getShiftForDay _ shifts) as [shift|] eqn:E; [|done].
  intros [= <-]. apply getShiftForDay_elem, Hhours in E.
  unfold msPerDay, msPerHour. lia.
Qed.

Lemma findNextShiftStart_loop_found n currentDate r :
  findNextShiftStart_loop n currentDate shifts = Ok r ->
  (exists d, dayOf currentDate <= d < dayOf currentDate + Z.of_nat n
             /\ shiftStartOn shifts d = Some r)
  /\ forall d t, dayOf currentDate <= d -> shiftStartOn shifts d = Some t ->
       currentDate < t -> r <= t.
Proof.
  revert currentDate. induction n as [|n IH]; intros currentDate; [done|].
  cbn [findNextShiftStart_loop]. unfold setHour.
  rewrite startOfDay_dayOf, nextDayStart_dayOf, weekday_dayOf.
  pose proof (dayOf_bounds currentDate) as Hday.
  assert (Hlater : forall d t, dayOf currentDate < d -> shiftStartOn shifts d = Some t ->
                     (dayOf currentDate + 1) * msPerDay < t).
  { intros d t Hd Ht. apply shiftStartOn_bounds in Ht. unfold msPerDay in *. nia. }
  assert (Hnext : findNextShiftStart_loop n ((dayOf currentDate + 1) * msPerDay) shifts = Ok r ->
            (forall t, shiftStartOn shifts (dayOf currentDate) = Some t -> t <= currentDate) ->
            (exists d, dayOf currentDate <= d < dayOf currentDate + Z.of_nat (S n)
                       /\ shiftStartOn shifts d = Some r)
            /\ forall d t, dayOf currentDate <= d -> shiftStartOn shifts d = Some t ->
                 currentDate < t -> r <= t).
  { intros Hr Htoday. apply IH in Hr as [(d & Hd & Hsd) Hmin].
    rewrite dayOf_midnight in Hd, Hmin. split.
    - exists d. split; [lia|done].
    - intros d' t Hd' Ht Hlt. destruct (decide (d' = dayOf currentDate)) as [->|Hne].
      + apply Htoday in Ht. lia.
      + apply (Hmin d' t); [lia|done|]. apply (Hlater d' t); [lia|done]. }
  destruct (getShiftForDay _ shifts) as [shift|] eqn:E.
  - destruct (Z.gtb_spec (dayOf currentDate * msPerDay + startHour shift * msPerHour)
                currentDate) as [Hgt|Hle].
    + intros [= <-]. split.
      * exists (dayOf currentDate). split; [lia|]. unfold shiftStartOn. by rewrite E.
      * intros d t Hd Ht Hlt. destruct (decide (d = dayOf currentDate)) as [->|Hne].
        -- unfold shiftStartOn in Ht. rewrite E in Ht. injection Ht as <-. lia.
        -- apply shiftStartOn_bounds in Ht. apply getShiftForDay_elem, Hhours in E.
           unfold msPerDay, msPerHour in *. nia.
    + intros Hr. apply Hnext; [done|]. intros t Ht.
      unfold shiftStartOn in Ht. rewrite E in Ht. injection Ht as <-. lia.
  - intros Hr. apply Hnext; [done|]. intros t Ht.
    unfold shiftStartOn in Ht. by rewrite E in Ht.
Qed.

Lemma findNextShiftStart_loop_none n currentDate e :
  findNextShiftStart_loop n currentDate shifts = Err e ->
  forall d t, dayOf currentDate <= d < dayOf currentDate + Z.of_nat n ->
    shiftStartOn shifts d = Some t -> t <= currentDate.
Proof.
  revert currentDate. induction n as [|n IH]; intros currentDate; [intros; lia|].
  cbn [findNextShiftStart_loop]. unfold setHour.
  rewrite startOfDay_dayOf, nextDayStart_dayOf, weekday_dayOf.
  pose proof (dayOf_bounds currentDate) as Hday.
  assert (Hnext : findNextShiftStart_loop n ((dayOf currentDate + 1) * msPerDay) shifts = Err e ->
            (forall t, shiftStartOn shifts (dayOf currentDate) = Some t -> t <= currentDate) ->
            forall d t, dayOf currentDate <= d < dayOf currentDate + Z.of_nat (S n) ->
              shiftStartOn shifts d = Some t -> t <= currentDate).
  { intros Hr Htoday d t Hd Ht.
    destruct (decide (d = dayOf currentDate)) as [->|Hne]; [by apply Htoday|].
    pose proof (IH _ Hr d t) as Hle. rewrite dayOf_midnight in Hle.
    specialize (Hle ltac:(lia) Ht). apply shiftStartOn_bounds in Ht.
    unfold msPerDay in *. nia. }
  destruct (getShiftForDay _ shifts) as [shift|] eqn:E.
  - destruct (Z.gtb_spec (dayOf currentDate * msPerDay + startHour shift * msPerHour)
                currentDate) as [Hgt|Hle]; [done|].
    intros Hr. apply Hnext; [done|]. intros t Ht.
    unfold shiftStartOn in Ht. rewrite E in Ht. injection Ht as <-. lia.
  - intros Hr. apply Hnext; [done|]. intros t Ht.
    unfold shiftStartOn in Ht. by rewrite E in Ht.
Qed.

(** X7: where every shift starts at hour 1 or later, [findNextShiftStart]
    returns the earliest shift start strictly after the given instant, on
    one of the 30 days from the day of that instant on; it fails only when
    none of these days has a shift start after the instant. *)
Theorem findNextShiftStart_earliest_after_midnight fromDate :
  match findNextShiftStart fromDate shifts with
  | Ok r =>
      fromDate < r
      /\ (exists d, dayOf fromDate <= d < dayOf fromDate + 30
                    /\ shiftStartOn shifts d = Some r)
      /\ forall d t, shiftStartOn shifts d = Some t -> fromDate < t -> r <= t
  | Err _ =>
      forall d t, d < dayOf fromDate + 30 -> shiftStartOn shifts d = Some t ->
        t <= fromDate
  end.
Proof.
  pose proof (dayOf_bounds fromDate) as Hday.
  assert (Hbefore : forall d t, d < dayOf fromDate -> shiftStartOn shifts d = Some t ->
                      t <= fromDate).
  { intros d t Hd Ht. apply shiftStartOn_bounds in Ht. unfold msPerDay in *. nia. }
  unfold findNextShiftStart.
  destruct (findNextShiftStart_loop 30 fromDate shifts) as [r|e] eqn:E.
  - pose proof (findNextShiftStart_loop_gt _ _ _ _ E) as Hgt.
    apply findNextShiftStart_loop_found in E as [Hd Hmin].
    split; [done|]. split; [exact Hd|].
    intros d t Ht Hlt. destruct (Z.lt_ge_cases d (dayOf fromDate)) as [Hlo|Hhi].
    + pose proof (Hbefore d t Hlo Ht). lia.
    + by apply (Hmin d t).
  - intros d t Hd Ht. destruct (Z.lt_ge_cases d (dayOf fromDate)) as [Hlo|Hhi].
    + by apply (Hbefore d t).
    + apply (findNextShiftStart_loop_none _ _ _ E d t); [lia|done].
Qed.

End NextShift.

Lemma latest_ge (l : list Z) (init : Z) :
  let latest := fold_left (fun latest current =>
                  if current >? latest then current else latest) l init in
  init <= latest /\ forall x, x ∈ l -> x <= latest.
Proof.
  revert init. induction l as [|y l IH]; intros init; simpl.
  - split; [lia|]. intros x H. by apply elem_of_nil in H.
  - destruct (IH (if y >? init then y else init)) as [H1 H2].
    destruct (Z.gtb_spec y init); (split; [lia|]);
      intros x Hx; apply elem_of_cons in Hx as [->|Hx]; try lia; by apply H2.
Qed.

Lemma getEarliestStartTime_ge parentEndTimes available shifts r :
  getEarliestStartTime parentEndTimes available shifts = Ok r ->
  available <= r /\ forall p, p ∈ parentEndTimes -> p <= r.
Proof.
  unfold getEarliestStartTime.
  destruct (latest_ge parentEndTimes 0) as [_ Hlatest].
  set (latest := fold_left _ parentEndTimes 0) in *.
  set (earliest := if available >? latest then available else latest).
  assert (He : available <= earliest /\ latest <= earliest)
    by (subst earliest; destruct (Z.gtb_spec available latest); lia).
  intros H.
  assert (Hr : earliest <= r).
  { destruct (getShiftForDay (weekday earliest) shifts) as [shift|].
    - destruct (Z.ltb_spec earliest (setHour earliest (startHour shift))).
      + injection H as <-. lia.
      + destruct (Z.ltb_spec earliest (setHour earliest (endHour shift))).
        * injection H as <-. lia.
        * apply findNextShiftStart_gt in H. lia.
    - apply findNextShiftStart_gt in H. lia. }
  split; [lia|]. intros p Hp. apply Hlatest in Hp. lia.
Qed.

Lemma calculateEndDate_loop_ge n currentDate remaining shifts windows :
  currentDate <= fst (calculateEndDate_loop n currentDate remaining shifts windows).
Proof.
  revert currentDate remaining. induction n as [|n IH]; intros currentDate remaining.
  - simpl. destruct (remaining <=? 0); simpl; lia.
  - rewrite calculateEndDate_loop_S.
    pose proof (nextDayStart_gt currentDate) as Hnext.
    assert (Hday : forall rem,
      currentDate <= fst (calculateEndDate_loop n (nextDayStart currentDate) rem shifts windows)).
    { intros rem. specialize (IH (nextDayStart currentDate) rem). lia. }
    destruct (Z.leb_spec remaining 0); [simpl; lia|].
    destruct (getShiftForDay (weekday currentDate) shifts) as [shift|]; [|apply Hday].
    cbv zeta.
    set (workStart := if currentDate >? setHour currentDate (startHour shift)
                      then currentDate else setHour currentDate (startHour shift)).
    assert (Hws : currentDate <= workStart)
      by (subst workStart;
          destruct (Z.gtb_spec currentDate (setHour currentDate (startHour shift))); lia).
    destruct (workStart >=? setHour currentDate (endHour shift)); [apply Hday|].
    set (available := getEffectiveShiftEnd workStart (setHour currentDate (endHour shift))
                        windows - workStart).
    destruct (Z.leb_spec available 0); [apply Hday|].
    destruct (remaining - Z.min remaining available >? 0); [apply Hday|].
    specialize (IH (workStart + Z.min remaining available)
                  (remaining - Z.min remaining available)). lia.
Qed.

Lemma calculateEndDate_ge startDate duration shifts windows r :
  calculateEndDate startDate duration shifts windows = Ok r -> startDate <= r.
Proof.
  unfold calculateEndDate.
  pose proof (calculateEndDate_loop_ge maxDays startDate (duration * msPerMinute)
                shifts windows) as H.
  destruct (calculateEndDate_loop _ _ _ _ _) as [currentDate [|daysLeft]]; [done|].
  intros [= <-]. exact H.
Qed.

(** ** Insertion-ordered maps and sets: basic facts *)

Section OrderedMapFacts.
Context {V : Type}.
Implicit Types (m : list (string * V)) (k : string) (v : V).

Lemma omap_get_set_eq k v m : omap_get k (omap_set k v m) = Some v.
Proof.
  induction m as [|[k' v'] m IH]; simpl.
  - by rewrite String.eqb_refl.
  - destruct (String.eqb_spec k' k) as [->|Hne]; simpl.
    + by rewrite String.eqb_refl.
    + destruct (String.eqb_spec k' k); [done|]. exact IH.
Qed.

Lemma omap_get_set_ne k k' v m :
  k <> k' -> omap_get k' (omap_set k v m) = omap_get k' m.
Proof.
  intros Hne. induction m as [|[k1 v1] m IH]; simpl.
  - destruct (String.eqb_spec k k'); [done|reflexivity].
  - destruct (String.eqb_spec k1 k) as [->|Hne1]; simpl.
    + destruct (String.eqb_spec k k'); [done|reflexivity].
    + destruct (String.eqb_spec k1 k'); [reflexivity|exact IH].
Qed.

Lemma omap_get_Some_keys k v m : omap_get k m = Some v -> k ∈ omap_keys m.
Proof.
  induction m as [|[k' v'] m IH]; simpl; [done|].
  destruct (String.eqb_spec k' k) as [->|Hne]; intros H.
  - left.
  - right. by apply IH.
Qed.

Lemma omap_get_None_keys k m : omap_get k m = None <-> k ∉ omap_keys m.
Proof.
  induction m as [|[k' v'] m IH]; simpl.
  - split; [intros _; apply not_elem_of_nil|done].
  - rewrite not_elem_of_cons. destruct (String.eqb_spec k' k) as [->|Hne].
    + split; [done|]. intros [? _]. done.
    + rewrite IH. split; [intros; split; [congruence|done]|by intros [_ ?]].
Qed.

Lemma omap_keys_get k m : k ∈ omap_keys m -> exists v, omap_get k m = Some v.
Proof.
  intros Hin. destruct (omap_get k m) as [v|] eqn:E; [by exists v|].
  apply omap_get_None_keys in E. done.
Qed.

Lemma omap_get_elem_of k v m : omap_get k m = Some v -> (k, v) ∈ m.
Proof.
  induction m as [|[k' v'] m IH]; simpl; [done|].
  destruct (String.eqb_spec k' k) as [->|Hne]; intros H.
  - injection H as ->. left.
  - right. by apply IH.
Qed.

Lemma omap_elem_of_get k v m : NoDup (omap_keys m) -> (k, v) ∈ m -> omap_get k m = Some v.
Proof.
  induction m as [|[k' v'] m IH]; simpl; intros Hnd Hin.
  - by apply elem_of_nil in Hin.
  - apply NoDup_cons in Hnd as [Hk' Hnd].
    apply elem_of_cons in Hin as [Heq|Hin].
    + injection Heq as -> ->. by rewrite String.eqb_refl.
    + destruct (String.eqb_spec k' k) as [->|Hne]; [|by apply IH].
      exfalso. apply Hk'. apply (list_elem_of_fmap_2 fst) in Hin. exact Hin.
Qed.

Lemma omap_keys_set_in k v m : k ∈ omap_keys m -> omap_keys (omap_set k v m) = omap_keys m.
Proof.
  induction m as [|[k' v'] m IH]; simpl; intros Hin.
  - by apply elem_of_nil in Hin.
  - destruct (String.eqb_spec k' k) as [->|Hne]; simpl; [done|].
    apply elem_of_cons in Hin as [->|Hin]; [done|]. f_equal. by apply IH.
Qed.

Lemma omap_keys_set_notin k v m :
  k ∉ omap_keys m -> omap_keys (omap_set k v m) = omap_keys m ++ [k].
Proof.
  induction m as [|[k' v'] m IH]; simpl; intros Hin; [done|].
  apply not_elem_of_cons in Hin as [Hne Hin].
  destruct (String.eqb_spec k' k) as [->|_]; simpl; [done|]. f_equal. by apply IH.
Qed.

Lemma omap_set_notin k v m : k ∉ omap_keys m -> omap_set k v m = m ++ [(k, v)].
Proof.
  induction m as [|[k' v'] m IH]; simpl; intros Hin; [done|].
  apply not_elem_of_cons in Hin as [Hne Hin].
  destruct (String.eqb_spec k' k) as [->|_]; simpl; [done|]. f_equal. by apply IH.
Qed.

Lemma omap_keys_set_elem k k' v m :
  k' ∈ omap_keys (omap_set k v m) <-> k' = k \/ k' ∈ omap_keys m.
Proof.
  destruct (decide (k ∈ omap_keys m)) as [Hin|Hin].
  - rewrite omap_keys_set_in by done. split; [by right|]. by intros [->|?].
  - rewrite omap_keys_set_notin by done. rewrite elem_of_app, list_elem_of_singleton. tauto.
Qed.

Lemma omap_keys_set_NoDup k v m : NoDup (omap_keys m) -> NoDup (omap_keys (omap_set k v m)).
Proof.
  intros Hnd. destruct (decide (k ∈ omap_keys m)) as [Hin|Hin].
  - by rewrite omap_keys_set_in.
  - rewrite omap_keys_set_notin by done. apply NoDup_app. split; [done|]. split.
    + intros x Hx Hx'. apply list_elem_of_singleton in Hx' as ->. done.
    + apply NoDup_singleton.
Qed.

Lemma omap_keys_length m : length (omap_keys m) = length m.
Proof. unfold omap_keys. by rewrite length_map. Qed.

End OrderedMapFacts.

Section OrderedSetFacts.
Implicit Types (x y : string) (s : list string).

Lemma mem_true x s : mem x s = true <-> x ∈ s.
Proof.
  unfold mem. rewrite existsb_exists. split.
  - intros (y & Hin & Heq). apply String.eqb_eq in Heq as ->. by apply list_elem_of_In.
  - intros Hin. exists x. split; [by apply list_elem_of_In|apply String.eqb_refl].
Qed.

Lemma mem_false x s : mem x s = false <-> x ∉ s.
Proof.
  rewrite <- mem_true. destruct (mem x s); split; intros; congruence.
Qed.

Lemma mem_spec x s : reflect (x ∈ s) (mem x s).
Proof.
  destruct (mem x s) eqn:E; constructor.
  - by apply mem_true.
  - by apply mem_false.
Qed.

Lemma oset_add_elem x y s : y ∈ oset_add x s <-> y = x \/ y ∈ s.
Proof.
  unfold oset_add. destruct (mem_spec x s) as [Hin|Hin].
  - split; [by right|]. by intros [->|?].
  - rewrite elem_of_app, list_elem_of_singleton. tauto.
Qed.

Lemma oset_add_NoDup x s : NoDup s -> NoDup (oset_add x s).
Proof.
  intros Hnd. unfold oset_add. destruct (mem_spec x s) as [Hin|Hin]; [done|].
  apply NoDup_app. split; [done|]. split; [|apply NoDup_singleton].
  intros y Hy Hy'. apply list_elem_of_singleton in Hy' as ->. done.
Qed.

Lemma oset_delete_subseteq x y s : y ∈ oset_delete x s -> y ∈ s.
Proof.
  induction s as [|z s IH]; simpl; [done|].
  destruct (String.eqb_spec z x) as [->|Hne]; intros H.
  - by right.
  - apply elem_of_cons in H as [->|H]; [left|right; by apply IH].
Qed.

Lemma oset_delete_elem x y s : NoDup s -> y ∈ oset_delete x s <-> y ∈ s /\ y <> x.
Proof.
  induction s as [|z s IH]; simpl; intros Hnd.
  - split; [intros H; by apply elem_of_nil in H|intros [H _]; by apply elem_of_nil in H].
  - apply NoDup_cons in Hnd as [Hz Hnd].
    destruct (String.eqb_spec z x) as [->|Hne].
    + rewrite elem_of_cons. split.
      * intros H. split; [by right|]. intros ->. done.
      * intros [[->|H] Hne]; done.
    + rewrite !elem_of_cons, IH by done. split.
      * intros [->|[H1 H2]]; split; auto.
      * intros [[->|H1] H2]; auto.
Qed.

Lemma oset_delete_NoDup x s : NoDup s -> NoDup (oset_delete x s).
Proof.
  induction s as [|z s IH]; simpl; intros Hnd; [done|].
  apply NoDup_cons in Hnd as [Hz Hnd].
  destruct (String.eqb_spec z x) as [->|Hne]; [done|].
  apply NoDup_cons. split; [|by apply IH].
  intros H. apply oset_delete_subseteq in H. done.
Qed.

End OrderedSetFacts.

(** ** DependencyGraph: what [buildGraph] constructs *)

Section BuildGraph.
Import DependencyGraph.

Lemma omap_keys_set_sync {V W} k (v : V) (w : W) m1 m2 :
  omap_keys m1 = omap_keys m2 ->
  omap_keys (omap_set k v m1) = omap_keys (omap_set k w m2).
Proof.
  intros Heq. destruct (decide (k ∈ omap_keys m1)) as [Hin|Hin].
  - rewrite !omap_keys_set_in; congruence.
  - rewrite !omap_keys_set_notin; congruence.
Qed.

Lemma oset_add_idemp x s : oset_add x (oset_add x s) = oset_add x s.
Proof.
  unfold oset_add at 1. destruct (mem_spec x (oset_add x s)) as [H|H]; [done|].
  exfalso. apply H. apply oset_add_elem. by left.
Qed.

(** The nodes after the first loop. *)
Lemma initNodes_spec workOrders g :
  let g' := fold_left initNode workOrders g in
  (omap_keys (adjacencyList g) = omap_keys (DependencyGraph.workOrders g) ->
   omap_keys (adjacencyList g') = omap_keys (DependencyGraph.workOrders g'))
  /\ (omap_keys (inDegree g) = omap_keys (DependencyGraph.workOrders g) ->
      omap_keys (inDegree g') = omap_keys (DependencyGraph.workOrders g'))
  /\ (NoDup (omap_keys (DependencyGraph.workOrders g)) ->
      NoDup (omap_keys (DependencyGraph.workOrders g')))
  /\ (forall k, k ∈ omap_keys (DependencyGraph.workOrders g') <->
        k ∈ omap_keys (DependencyGraph.workOrders g) \/ k ∈ map docId workOrders)
  /\ ((forall p cs, omap_get p (adjacencyList g) = Some cs -> cs = []) ->
      forall p cs, omap_get p (adjacencyList g') = Some cs -> cs = []).
Proof.
  revert g. induction workOrders as [|w ws IH]; intros g; simpl.
  - repeat split; auto. intros [?|H]; [done|by apply elem_of_nil in H].
  - destruct (IH (initNode g w)) as (IH1 & IH2 & IH3 & IH4 & IH5). clear IH.
    repeat split.
    + intros H. apply IH1. simpl. by apply omap_keys_set_sync.
    + intros H. apply IH2. simpl. by apply omap_keys_set_sync.
    + intros H. apply IH3. simpl. by apply omap_keys_set_NoDup.
    + intros H. apply IH4 in H. simpl in H. rewrite omap_keys_set_elem in H.
      rewrite elem_of_cons. tauto.
    + intros H. apply IH4. simpl. rewrite omap_keys_set_elem.
      rewrite elem_of_cons in H. tauto.
    + intros H. apply IH5. simpl. intros p cs.
      destruct (decide (docId w = p)) as [<-|Hne].
      * rewrite omap_get_set_eq. congruence.
      * rewrite omap_get_set_ne by done. apply H.
Qed.

(** With ids that identify the orders, the first loop stores the orders
    in input order. *)
Lemma initNodes_unique workOrders g :
  NoDup (omap_keys (DependencyGraph.workOrders g) ++ map docId workOrders) ->
  DependencyGraph.workOrders (fold_left initNode workOrders g)
  = DependencyGraph.workOrders g ++ map (fun w => (docId w, w)) workOrders.
Proof.
  revert g. induction workOrders as [|w ws IH]; intros g Hnd; simpl.
  - by rewrite app_nil_r.
  - assert (Hw : docId w ∉ omap_keys (DependencyGraph.workOrders g)).
    { apply NoDup_app in Hnd as (_ & Hd & _). intros Hin. apply (Hd _ Hin). left. }
    rewrite IH; simpl.
    + rewrite omap_set_notin by done. by rewrite <- app_assoc.
    + rewrite omap_keys_set_notin by done. by rewrite <- app_assoc.
Qed.

(** The edges that [addEdges] adds for one child. *)
Lemma addEdges_spec childId parentIds adj adj' :
  addEdges childId parentIds adj = Ok adj' ->
  omap_keys adj' = omap_keys adj
  /\ (forall p, p ∈ parentIds -> p ∈ omap_keys adj)
  /\ (forall p, omap_get p adj' =
        if mem p parentIds then oset_add childId <$> omap_get p adj
        else omap_get p adj).
Proof.
  revert adj. induction parentIds as [|p0 ps IH]; intros adj; simpl.
  - intros [= <-]. repeat split; auto. intros p H; by apply elem_of_nil in H.
  - destruct (omap_get p0 adj) as [cs0|] eqn:E0; [|done].
    intros H. apply IH in H as (Hk & Hin & Hget). clear IH.
    assert (Hp0 : p0 ∈ omap_keys adj) by (eapply omap_get_Some_keys; eauto).
    repeat split.
    + rewrite Hk. by apply omap_keys_set_in.
    + intros p Hp. apply elem_of_cons in Hp as [->|Hp]; [done|].
      apply Hin in Hp. by rewrite omap_keys_set_in in Hp.
    + intros p. rewrite Hget.
      destruct (String.eqb_spec p p0) as [->|Hne]; simpl.
      * rewrite omap_get_set_eq, E0. simpl. rewrite oset_add_idemp.
        by destruct (mem p0 ps).
      * rewrite omap_get_set_ne by done. reflexivity.
Qed.

Lemma addEdges_ok childId parentIds adj :
  (forall p, p ∈ parentIds -> p ∈ omap_keys adj) ->
  exists adj', addEdges childId parentIds adj = Ok adj'.
Proof.
  revert adj. induction parentIds as [|p0 ps IH]; intros adj Hin; simpl.
  - by eexists.
  - destruct (omap_keys_get p0 adj) as [cs0 E0]; [apply Hin; left|].
    rewrite E0. apply IH. intros p Hp. rewrite omap_keys_set_in.
    + apply Hin. by right.
    + eapply omap_get_Some_keys; eauto.
Qed.

Lemma childrenOf_cons w ws p init :
  childrenOf (w :: ws) p init =
  childrenOf ws p
    (if mem p (dependsOnWorkOrderIds w) then oset_add (docId w) init else init).
Proof. reflexivity. Qed.

(** The graph after the second loop. *)
Lemma buildEdges_spec workOrders g g' :
  buildEdges workOrders g = Ok g' ->
  DependencyGraph.workOrders g' = DependencyGraph.workOrders g
  /\ omap_keys (adjacencyList g') = omap_keys (adjacencyList g)
  /\ (forall w p, w ∈ workOrders -> p ∈ dependsOnWorkOrderIds w ->
        p ∈ omap_keys (adjacencyList g))
  /\ (forall p, omap_get p (adjacencyList g') =
        childrenOf workOrders p <$> omap_get p (adjacencyList g)).
Proof.
  revert g. induction workOrders as [|w ws IH]; intros g; simpl.
  - intros [= <-]. repeat split; auto.
    + intros w p H; by apply elem_of_nil in H.
    + intros p. unfold childrenOf. simpl. by destruct (omap_get p (adjacencyList g)).
  - destruct (addEdges (docId w) (dependsOnWorkOrderIds w) (adjacencyList g))
      as [adj'|] eqn:Eadd; simpl; [|done].
    intros H. apply IH in H as (Hwo & Hk & Hin & Hget). clear IH. simpl in *.
    apply addEdges_spec in Eadd as (Hk1 & Hin1 & Hget1).
    repeat split.
    + exact Hwo.
    + congruence.
    + intros w' p Hw' Hp. apply elem_of_cons in Hw' as [->|Hw'].
      * by apply Hin1.
      * rewrite <- Hk1. eapply Hin; eauto.
    + intros p. rewrite Hget, Hget1.
      destruct (omap_get p (adjacencyList g)) as [cs|];
        destruct (mem p (dependsOnWorkOrderIds w)) eqn:Em; simpl;
        rewrite ?childrenOf_cons, ?Em; reflexivity.
Qed.

Lemma buildEdges_inDegree_keys workOrders g g' :
  buildEdges workOrders g = Ok g' ->
  (forall w, w ∈ workOrders -> docId w ∈ omap_keys (inDegree g)) ->
  omap_keys (inDegree g') = omap_keys (inDegree g).
Proof.
  revert g. induction workOrders as [|w ws IH]; intros g; simpl.
  - by intros [= <-].
  - destruct (addEdges _ _ _) as [adj'|]; simpl; [|done].
    intros H Hin. apply IH in H; simpl in *.
    + rewrite H. apply omap_keys_set_in. apply Hin. left.
    + intros w' Hw'. rewrite omap_keys_set_in by (apply Hin; left).
      apply Hin. by right.
Qed.

Lemma buildEdges_inDegree workOrders g g' :
  buildEdges workOrders g = Ok g' ->
  NoDup (map docId workOrders) ->
  (forall w, w ∈ workOrders ->
     omap_get (docId w) (inDegree g')
     = Some (Z.of_nat (length (dependsOnWorkOrderIds w))))
  /\ (forall k, k ∉ map docId workOrders ->
        omap_get k (inDegree g') = omap_get k (inDegree g)).
Proof.
  revert g. induction workOrders as [|w ws IH]; intros g; simpl.
  - intros [= <-] _. split; [intros w H; by apply elem_of_nil in H|done].
  - destruct (addEdges _ _ _) as [adj'|]; simpl; [|done].
    intros H Hnd. apply NoDup_cons in Hnd as [Hw Hnd].
    apply IH in H as [H1 H2]; [|done]. simpl in *. split.
    + intros w' Hw'. apply elem_of_cons in Hw' as [->|Hw']; [|by apply H1].
      rewrite H2 by done. apply omap_get_set_eq.
    + intros k Hk. apply not_elem_of_cons in Hk as [Hne Hk].
      rewrite H2 by done. by apply omap_get_set_ne.
Qed.

Lemma childrenOf_elem workOrders p init c :
  c ∈ childrenOf workOrders p init <->
  c ∈ init \/ exists w, w ∈ workOrders /\ docId w = c /\ p ∈ dependsOnWorkOrderIds w.
Proof.
  revert init. induction workOrders as [|w ws IH]; intros init.
  - unfold childrenOf; simpl. split; [by left|].
    intros [?|(w & H & _)]; [done|by apply elem_of_nil in H].
  - rewrite childrenOf_cons, IH. clear IH.
    destruct (mem_spec p (dependsOnWorkOrderIds w)) as [Hp|Hp].
    + rewrite oset_add_elem. split.
      * intros [[->|?]|(w' & ? & ? & ?)]; [right; exists w|by left|right; exists w'];
          repeat split; auto; by constructor.
      * intros [?|(w' & Hw' & ? & ?)]; [by left; right|].
        apply elem_of_cons in Hw' as [->|Hw']; [left; left; done|].
        right. by exists w'.
    + split.
      * intros [?|(w' & ? & ? & ?)]; [by left|]. right. exists w'.
        repeat split; auto. by constructor.
      * intros [?|(w' & Hw' & ? & ?)]; [by left|].
        apply elem_of_cons in Hw' as [->|Hw']; [done|]. right. by exists w'.
Qed.

Lemma childrenOf_NoDup workOrders p init : NoDup init -> NoDup (childrenOf workOrders p init).
Proof.
  revert init. induction workOrders as [|w ws IH]; intros init Hnd; [done|].
  rewrite childrenOf_cons. apply IH.
  destruct (mem p (dependsOnWorkOrderIds w)); [by apply oset_add_NoDup|done].
Qed.

(** The constructor yields a well-formed graph. *)
Lemma buildGraph_wf workOrders g : buildGraph workOrders = Ok g -> graph_wf g.
Proof.
  unfold buildGraph. intros H.
  pose proof (initNodes_spec workOrders empty) as (I1 & I2 & I3 & I4 & I5).
  simpl in I1, I2, I3, I4, I5.
  specialize (I1 eq_refl). specialize (I2 eq_refl). specialize (I3 NoDup_nil_2).
  assert (I5' := I5 (fun p cs (H : None = Some cs) => ltac:(discriminate))). clear I5.
  pose proof (buildEdges_inDegree_keys _ _ _ H) as Hdk.
  apply buildEdges_spec in H as (Hwo & Hk & Hin & Hget).
  split.
  - rewrite Hk, Hwo. exact I1.
  - rewrite Hdk, Hwo; [exact I2|]. intros w Hw. rewrite I2. apply I4. right.
    by apply list_elem_of_fmap_2.
  - by rewrite Hwo.
  - intros p cs Hp. rewrite Hget in Hp.
    destruct (omap_get p (adjacencyList (fold_left initNode workOrders empty)))
      as [cs0|] eqn:E; [|done].
    apply I5' in E as ->. injection Hp as <-. split.
    + apply childrenOf_NoDup. constructor.
    + intros c Hc. apply childrenOf_elem in Hc as [Hc|(w & Hw & <- & _)];
        [by apply elem_of_nil in Hc|].
      rewrite Hwo. apply I4. right. by apply list_elem_of_fmap_2.
Qed.

(** The keys of a constructed graph are the ids of the orders. *)
Lemma buildGraph_keys workOrders g :
  buildGraph workOrders = Ok g ->
  forall k, k ∈ omap_keys (DependencyGraph.workOrders g) <-> k ∈ map docId workOrders.
Proof.
  unfold buildGraph. intros H k.
  pose proof (initNodes_spec workOrders empty) as (_ & _ & _ & I4 & _).
  apply buildEdges_spec in H as (Hwo & _). rewrite Hwo, I4. simpl.
  split; [intros [H|H]; [by apply elem_of_nil in H|done]|by right].
Qed.

(** The edges of a constructed graph are the declared dependencies. *)
Lemma buildGraph_neighbors workOrders g p c :
  buildGraph workOrders = Ok g ->
  c ∈ neighbors g p <-> dependsOn workOrders c p.
Proof.
  unfold buildGraph. intros H.
  pose proof (initNodes_spec workOrders empty) as (I1 & _ & _ & I4 & I5).
  simpl in I1, I4, I5. specialize (I1 eq_refl).
  assert (I5' := I5 (fun p cs (H : None = Some cs) => ltac:(discriminate))). clear I5.
  apply buildEdges_spec in H as (Hwo & Hk & Hin & Hget).
  unfold neighbors, dependsOn. rewrite Hget.
  destruct (omap_get p (adjacencyList (fold_left initNode workOrders empty)))
    as [cs0|] eqn:E; simpl.
  - apply I5' in E as ->. rewrite childrenOf_elem. split.
    + intros [H|H]; [by apply elem_of_nil in H|done].
    + by right.
  - split; [intros H; by apply elem_of_nil in H|].
    intros (w & Hw & _ & Hp). apply omap_get_None_keys in E.
    exfalso. apply E. eapply Hin; eauto.
Qed.

(** Every declared parent is a node of a constructed graph. *)
Lemma buildGraph_parents_exist workOrders g :
  buildGraph workOrders = Ok g ->
  forall w p, w ∈ workOrders -> p ∈ dependsOnWorkOrderIds w -> p ∈ map docId workOrders.
Proof.
  intros H w p Hw Hp. apply (buildGraph_keys _ _ H).
  unfold buildGraph in H.
  pose proof (initNodes_spec workOrders empty) as (I1 & _ & _ & I4 & _).
  simpl in I1. specialize (I1 eq_refl).
  apply buildEdges_spec in H as (Hwo & Hk & Hin & Hget).
  rewrite Hwo, <- I1. eapply Hin; eauto.
Qed.

End BuildGraph.

(** ** DependencyGraph: Kahn's algorithm *)

Section Kahn.
Import DependencyGraph.

Lemma decrementAll_keys cs deg : omap_keys (decrementAll cs deg) = omap_keys deg.
Proof.
  revert deg. induction cs as [|c cs IH]; intros deg; simpl; [done|].
  rewrite IH. destruct (omap_get c deg) eqn:E; [|done].
  apply omap_keys_set_in. eapply omap_get_Some_keys; eauto.
Qed.

Lemma decrementAll_get_notin cs deg k :
  k ∉ cs -> omap_get k (decrementAll cs deg) = omap_get k deg.
Proof.
  revert deg. induction cs as [|c cs IH]; intros deg Hk; simpl; [done|].
  apply not_elem_of_cons in Hk as [Hne Hk]. rewrite IH by done.
  destruct (omap_get c deg); [|done]. by apply omap_get_set_ne.
Qed.

Lemma decrementAll_get_in cs deg k :
  NoDup cs -> k ∈ cs ->
  omap_get k (decrementAll cs deg) = (fun d => d - 1) <$> omap_get k deg.
Proof.
  revert deg. induction cs as [|c cs IH]; intros deg Hnd Hk; simpl.
  - by apply elem_of_nil in Hk.
  - apply NoDup_cons in Hnd as [Hc Hnd].
    apply elem_of_cons in Hk as [->|Hk].
    + rewrite decrementAll_get_notin by done.
      destruct (omap_get c deg) eqn:E; simpl; [apply omap_get_set_eq|done].
    + rewrite IH by done. f_equal.
      destruct (omap_get c deg); [|done]. apply omap_get_set_ne. congruence.
Qed.

Lemma pushedChildren_elem cs deg c :
  c ∈ pushedChildren cs deg <-> c ∈ cs /\ omap_get c deg = Some 1.
Proof.
  unfold pushedChildren. rewrite list_elem_of_In, filter_In, <- list_elem_of_In.
  destruct (omap_get c deg) as [d|]; [|intuition discriminate].
  rewrite Z.eqb_eq. split; intros [? ?]; split; auto; [f_equal; lia|].
  injection H0 as ->. lia.
Qed.

Lemma filter_NoDup {A} (f : A -> bool) (l : list A) : NoDup l -> NoDup (List.filter f l).
Proof.
  induction 1 as [|x l Hx Hnd IH]; simpl; [constructor|].
  destruct (f x); [|done]. constructor; [|done].
  rewrite list_elem_of_In, filter_In, <- list_elem_of_In. tauto.
Qed.

(** The loop over the children in closed form. *)
Lemma decrementChildren_spec cs queue deg :
  NoDup cs ->
  decrementChildren cs queue deg = (queue ++ pushedChildren cs deg, decrementAll cs deg).
Proof.
  revert queue deg. induction cs as [|c cs IH]; intros queue deg Hnd; simpl.
  - by rewrite app_nil_r.
  - apply NoDup_cons in Hnd as [Hc Hnd].
    assert (Hp : forall d, pushedChildren cs (omap_set c d deg) = pushedChildren cs deg).
    { intros d. unfold pushedChildren. apply filter_ext_in. intros x Hx.
      rewrite omap_get_set_ne; [done|]. intros ->. by apply list_elem_of_In in Hx. }
    destruct (omap_get c deg) as [d|] eqn:E.
    + destruct (d - 1 =? 0); rewrite IH, Hp by done; [|done].
      by rewrite <- app_assoc.
    + by rewrite IH.
Qed.

Lemma neighbors_NoDup g n : graph_wf g -> NoDup (neighbors g n).
Proof.
  intros Hwf. unfold neighbors.
  destruct (omap_get n (adjacencyList g)) eqn:E; [|constructor].
  by apply (wf_children g Hwf) in E as [? _].
Qed.

Lemma neighbors_keys g n c :
  graph_wf g -> c ∈ neighbors g n -> c ∈ omap_keys (DependencyGraph.workOrders g).
Proof.
  intros Hwf. unfold neighbors.
  destruct (omap_get n (adjacencyList g)) eqn:E; [|intros H; by apply elem_of_nil in H].
  apply (wf_children g Hwf) in E as [_ H]. apply H.
Qed.

Lemma kahn_ids_S g fuel n queue deg :
  graph_wf g ->
  kahn_ids (S fuel) g (n :: queue) deg =
  match kahn_ids fuel g (queue ++ pushedChildren (neighbors g n) deg)
          (decrementAll (neighbors g n) deg) with
  | Some ids => Some (n :: ids)
  | None => None
  end.
Proof.
  intros Hwf. simpl. by rewrite decrementChildren_spec by (by apply neighbors_NoDup).
Qed.

(** [kahn_loop] emits the stored orders of the ids of [kahn_ids]. *)
Lemma kahn_loop_ids fuel g queue result deg :
  kahn_loop fuel g queue result deg
  = (fun ids => result ++ lookupAll g ids) <$> kahn_ids fuel g queue deg.
Proof.
  revert queue result deg. induction fuel as [|fuel IH]; intros queue result deg.
  - destruct queue; simpl; [by rewrite app_nil_r|done].
  - destruct queue as [|n queue]; simpl; [by rewrite app_nil_r|].
    destruct (decrementChildren (neighbors g n) queue deg) as [queue' deg'].
    rewrite IH. destruct (kahn_ids fuel g queue' deg') as [ids|]; simpl; [|done].
    unfold lookupAll. simpl.
    destruct (omap_get n (DependencyGraph.workOrders g)); simpl; [|done].
    by rewrite <- app_assoc.
Qed.

Lemma NoDup_subset_length (l k : list string) :
  NoDup l -> (forall x, x ∈ l -> x ∈ k) -> (length l <= length k)%nat.
Proof. intros Hnd Hsub. apply submseteq_length. by apply NoDup_submseteq. Qed.

(** One iteration keeps the invariant of the queue. *)
Lemma kahn_inv_step g done n queue deg :
  graph_wf g ->
  kahn_inv g done (n :: queue) deg ->
  kahn_inv g (done ++ [n]) (queue ++ pushedChildren (neighbors g n) deg)
    (decrementAll (neighbors g n) deg).
Proof.
  intros Hwf [Hnd Hk Hdk Hle].
  assert (Hcs := neighbors_NoDup g n Hwf).
  assert (Hold : forall x, x ∈ (done ++ [n]) ++ queue <-> x ∈ done ++ n :: queue).
  { intros x. rewrite <- app_assoc. reflexivity. }
  split.
  - rewrite app_assoc. apply NoDup_app. split; [|split].
    + by rewrite <- app_assoc.
    + intros x Hx Hp. apply Hold in Hx. apply pushedChildren_elem in Hp as [_ Hp].
      specialize (Hle _ _ Hx Hp). lia.
    + apply filter_NoDup. exact Hcs.
  - intros x. rewrite app_assoc, elem_of_app. intros [Hx|Hx].
    + apply Hk. by apply Hold.
    + apply pushedChildren_elem in Hx as [Hx _]. eapply neighbors_keys; eauto.
  - by rewrite decrementAll_keys.
  - intros x d. rewrite app_assoc, elem_of_app. intros [Hx|Hx] Hd.
    + apply Hold in Hx.
      destruct (decide (x ∈ neighbors g n)) as [Hin|Hin].
      * rewrite decrementAll_get_in in Hd by done.
        destruct (omap_get x deg) as [d0|] eqn:E; [|done]. injection Hd as <-.
        specialize (Hle _ _ Hx E). lia.
      * rewrite decrementAll_get_notin in Hd by done. eapply Hle; eauto.
    + apply pushedChildren_elem in Hx as [Hx Hx1].
      rewrite decrementAll_get_in, Hx1 in Hd by done. injection Hd as <-. lia.
Qed.

(** The loop rule of Kahn's algorithm: it ends within the fuel that is one
    unit per node not yet dequeued, and an invariant [J] that every
    iteration keeps holds at the end. *)
Lemma kahn_ids_run g (J : list string -> list string -> list (string * Z) -> Prop) :
  graph_wf g ->
  (forall done n queue deg,
     kahn_inv g done (n :: queue) deg -> J done (n :: queue) deg ->
     J (done ++ [n]) (queue ++ pushedChildren (neighbors g n) deg)
       (decrementAll (neighbors g n) deg)) ->
  forall fuel done queue deg,
    kahn_inv g done queue deg -> J done queue deg ->
    (length (DependencyGraph.workOrders g) <= fuel + length done)%nat ->
    exists ids deg',
      kahn_ids fuel g queue deg = Some ids
      /\ kahn_inv g (done ++ ids) [] deg' /\ J (done ++ ids) [] deg'.
Proof.
  intros Hwf Hstep fuel.
  induction fuel as [|fuel IH]; intros done queue deg Hinv HJ Hfuel.
  - destruct queue as [|n queue].
    + exists [], deg. simpl. rewrite !app_nil_r. auto.
    + exfalso. destruct Hinv as [Hnd Hk _ _].
      pose proof (NoDup_subset_length _ _ Hnd Hk) as Hlen.
      rewrite length_app, omap_keys_length in Hlen. simpl in Hlen. lia.
  - destruct queue as [|n queue].
    + exists [], deg. simpl. rewrite !app_nil_r. auto.
    + rewrite kahn_ids_S by done.
      destruct (IH (done ++ [n]) (queue ++ pushedChildren (neighbors g n) deg)
                  (decrementAll (neighbors g n) deg)) as (ids & deg' & Hrun & Hinv' & HJ').
      * by apply kahn_inv_step.
      * by apply Hstep.
      * rewrite length_app. simpl. lia.
      * exists (n :: ids), deg'. rewrite Hrun.
        rewrite <- app_assoc in Hinv', HJ'. auto.
Qed.

Lemma zeroDegreeNodes_elem deg x :
  NoDup (omap_keys deg) -> x ∈ zeroDegreeNodes deg <-> omap_get x deg = Some 0.
Proof.
  intros Hnd. unfold zeroDegreeNodes. rewrite list_elem_of_fmap. split.
  - intros ([k d] & -> & Hin). apply list_elem_of_In, filter_In in Hin as [Hin Hd].
    apply Z.eqb_eq in Hd as ->. apply omap_elem_of_get; [done|by apply list_elem_of_In].
  - intros Hget. exists (x, 0). split; [done|].
    apply list_elem_of_In, filter_In. split; [|done].
    by apply list_elem_of_In, omap_get_elem_of.
Qed.

Lemma zeroDegreeNodes_NoDup deg : NoDup (omap_keys deg) -> NoDup (zeroDegreeNodes deg).
Proof.
  unfold zeroDegreeNodes, omap_keys. induction deg as [|[k d] deg IH]; simpl; intros Hnd.
  - constructor.
  - apply NoDup_cons in Hnd as [Hk Hnd]. destruct (d =? 0); simpl; [|by apply IH].
    constructor; [|by apply IH]. intros Hin. apply Hk.
    apply list_elem_of_fmap in Hin as ([k' d'] & -> & Hin).
    apply list_elem_of_In, filter_In in Hin as [Hin _].
    apply list_elem_of_fmap. exists (k', d'). split; [done|by apply list_elem_of_In].
Qed.

(** The invariant holds when the queue has been seeded. *)
Lemma kahn_inv_init g : graph_wf g -> kahn_inv g [] (zeroDegreeNodes (inDegree g)) (inDegree g).
Proof.
  intros Hwf. pose proof (wf_deg_keys g Hwf) as Hdk.
  pose proof (wf_keys_NoDup g Hwf) as Hnd. rewrite <- Hdk in Hnd.
  split; simpl.
  - by apply zeroDegreeNodes_NoDup.
  - intros x Hx. apply zeroDegreeNodes_elem in Hx; [|done].
    rewrite <- Hdk. eapply omap_get_Some_keys; eauto.
  - exact Hdk.
  - intros x d Hx Hd. apply zeroDegreeNodes_elem in Hx; [|done]. rewrite Hx in Hd.
    injection Hd as <-. lia.
Qed.

(** Kahn's loop never runs out of the fuel that [kahn] gives it. *)
Theorem kahn_fuel_enough workOrders g :
  buildGraph workOrders = Ok g -> kahn g <> None.
Proof.
  intros Hb. apply buildGraph_wf in Hb as Hwf. unfold kahn. rewrite kahn_loop_ids.
  destruct (kahn_ids_run g (fun _ _ _ => True) Hwf (fun _ _ _ _ _ _ => I)
              (length (DependencyGraph.workOrders g)) [] _ _ (kahn_inv_init g Hwf) I)
    as (ids & deg' & Hrun & _); [simpl; lia|].
  by rewrite Hrun.
Qed.

End Kahn.

(** ** DependencyGraph: the order of [topologicalSort] *)

Section KahnOrder.
Import DependencyGraph.

Variable workOrders : list WorkOrderDocument.
Variable g : DependencyGraph.t.
Hypothesis Hunique : uniqueIds workOrders.
Hypothesis Hbuild : buildGraph workOrders = Ok g.

Lemma uniqueIds_inj w w' :
  w ∈ workOrders -> w' ∈ workOrders -> docId w = docId w' -> w = w'.
Proof.
  clear Hbuild. unfold uniqueIds in Hunique.
  induction workOrders as [|w0 ws IH]; simpl in *; intros Hw Hw' Heq.
  - by apply elem_of_nil in Hw.
  - apply NoDup_cons in Hunique as [Hw0 Hnd].
    apply elem_of_cons in Hw as [->|Hw]; apply elem_of_cons in Hw' as [->|Hw']; auto.
    + exfalso. apply Hw0. rewrite Heq. by apply list_elem_of_fmap_2.
    + exfalso. apply Hw0. rewrite <- Heq. by apply list_elem_of_fmap_2.
Qed.

Lemma dependsOn_unique w p :
  w ∈ workOrders -> dependsOn workOrders (docId w) p <-> p ∈ dependsOnWorkOrderIds w.
Proof.
  intros Hw. split.
  - intros (w' & Hw' & Heq & Hp). by rewrite <- (uniqueIds_inj w' w Hw' Hw Heq).
  - intros Hp. by exists w.
Qed.

Lemma buildGraph_workOrders :
  DependencyGraph.workOrders g = map (fun w => (docId w, w)) workOrders.
Proof.
  unfold buildGraph in Hbuild. apply buildEdges_spec in Hbuild as (-> & _).
  by rewrite initNodes_unique.
Qed.

Lemma buildGraph_keys_eq : omap_keys (DependencyGraph.workOrders g) = map docId workOrders.
Proof.
  rewrite buildGraph_workOrders. unfold omap_keys. rewrite map_map. reflexivity.
Qed.

Lemma buildGraph_get w :
  w ∈ workOrders -> omap_get (docId w) (DependencyGraph.workOrders g) = Some w.
Proof.
  intros Hw. apply omap_elem_of_get.
  - rewrite buildGraph_keys_eq. exact Hunique.
  - rewrite buildGraph_workOrders. apply list_elem_of_fmap. by exists w.
Qed.

Lemma buildGraph_get_inv k w :
  omap_get k (DependencyGraph.workOrders g) = Some w -> w ∈ workOrders /\ docId w = k.
Proof.
  intros H. apply omap_get_elem_of in H. rewrite buildGraph_workOrders in H.
  apply list_elem_of_fmap in H as (w' & [= -> ->] & Hw'). auto.
Qed.

Lemma buildGraph_inDegree w :
  w ∈ workOrders ->
  omap_get (docId w) (inDegree g) = Some (Z.of_nat (length (dependsOnWorkOrderIds w))).
Proof.
  intros Hw. unfold buildGraph in Hbuild.
  by apply (buildEdges_inDegree _ _ _ Hbuild Hunique).
Qed.

Lemma key_workOrder k :
  k ∈ omap_keys (DependencyGraph.workOrders g) -> exists w, w ∈ workOrders /\ docId w = k.
Proof.
  rewrite buildGraph_keys_eq. intros H. apply list_elem_of_fmap in H as (w & -> & Hw).
  by exists w.
Qed.

(** The parents of [w] among ids without repetition are at most as many
    as the entries of its dependency list; they are as many only if every
    entry is among them and no entry is repeated. *)
Lemma parentCount_le w done :
  w ∈ workOrders -> NoDup done ->
  parentCount g (docId w) done <= Z.of_nat (length (dependsOnWorkOrderIds w)).
Proof.
  intros Hw Hnd. unfold parentCount. apply inj_le.
  apply submseteq_length, NoDup_submseteq; [by apply NoDup_filter|].
  intros p Hp. apply list_elem_of_filter in Hp as [Hp _].
  apply (buildGraph_neighbors _ _ _ _ Hbuild) in Hp. by apply dependsOn_unique in Hp.
Qed.

Lemma parentCount_full w done :
  w ∈ workOrders -> NoDup done ->
  parentCount g (docId w) done = Z.of_nat (length (dependsOnWorkOrderIds w)) ->
  NoDup (dependsOnWorkOrderIds w)
  /\ forall p, p ∈ dependsOnWorkOrderIds w -> p ∈ done.
Proof.
  intros Hw Hnd Hcount. unfold parentCount in Hcount. apply Nat2Z.inj in Hcount.
  set (F := filter (fun p => docId w ∈ neighbors g p) done) in *.
  assert (HF : NoDup F) by (by apply NoDup_filter).
  assert (Hsub : F ⊆+ dependsOnWorkOrderIds w).
  { apply NoDup_submseteq; [done|]. intros p Hp.
    apply list_elem_of_filter in Hp as [Hp _].
    apply (buildGraph_neighbors _ _ _ _ Hbuild) in Hp. by apply dependsOn_unique in Hp. }
  apply submseteq_length_Permutation in Hsub; [|lia]. split.
  - by rewrite <- Hsub.
  - intros p Hp. rewrite <- Hsub in Hp. by apply list_elem_of_filter in Hp as [_ Hp].
Qed.

Lemma parentCount_snoc c done n :
  parentCount g c (done ++ [n])
  = parentCount g c done + (if decide (c ∈ neighbors g n) then 1 else 0).
Proof.
  unfold parentCount. rewrite filter_app, length_app. simpl.
  rewrite filter_cons, filter_nil. destruct (decide (c ∈ neighbors g n)); simpl; lia.
Qed.

(** One iteration keeps the invariant of the degrees. *)
Lemma kahn_deps_step done n queue deg :
  kahn_inv g done (n :: queue) deg ->
  kahn_deps workOrders g done (n :: queue) deg ->
  kahn_deps workOrders g (done ++ [n]) (queue ++ pushedChildren (neighbors g n) deg)
    (decrementAll (neighbors g n) deg).
Proof.
  intros Hinv [Hdeg Hqueue Hdone].
  pose proof (buildGraph_wf _ _ Hbuild) as Hwf.
  pose proof (kahn_inv_step _ _ _ _ _ Hwf Hinv) as Hinv'.
  assert (Hcs := neighbors_NoDup g n Hwf).
  assert (Hdeg' : forall w, w ∈ workOrders ->
    omap_get (docId w) (decrementAll (neighbors g n) deg)
    = Some (Z.of_nat (length (dependsOnWorkOrderIds w))
            - parentCount g (docId w) (done ++ [n]))).
  { intros w Hw. rewrite parentCount_snoc.
    destruct (decide (docId w ∈ neighbors g n)) as [Hin|Hin].
    - rewrite decrementAll_get_in, Hdeg by done. simpl. f_equal. lia.
    - rewrite decrementAll_get_notin, Hdeg by done. f_equal. lia. }
  split; [exact Hdeg'| |].
  - intros x p Hx Hp. apply elem_of_app in Hx as [Hx|Hx].
    + apply elem_of_app. left. apply (Hqueue x p); [by right|done].
    + apply pushedChildren_elem in Hx as [Hx Hx1].
      destruct (key_workOrder x) as (w & Hw & <-); [by eapply neighbors_keys|].
      apply dependsOn_unique in Hp; [|done].
      assert (Hfull : parentCount g (docId w) (done ++ [n])
                      = Z.of_nat (length (dependsOnWorkOrderIds w))).
      { specialize (Hdeg w Hw). rewrite Hx1 in Hdeg. injection Hdeg as Hdeg.
        rewrite parentCount_snoc. destruct (decide (docId w ∈ neighbors g n)); [lia|done]. }
      apply parentCount_full in Hfull as [_ Hfull]; [by apply Hfull|done|].
      destruct Hinv' as [Hnd _ _ _]. by apply NoDup_app in Hnd as [? _].
  - intros l1 x l2 Heq p Hp.
    destruct l2 as [|y l2 _] using rev_ind.
    + apply app_inj_tail in Heq as [<- <-]. apply (Hqueue n p); [left|done].
    + rewrite app_comm_cons, app_assoc in Heq. apply app_inj_tail in Heq as [Heq _].
      eapply Hdone; eauto.
Qed.

(** The invariant of the degrees holds when the queue has been seeded. *)
Lemma kahn_deps_init :
  kahn_deps workOrders g [] (zeroDegreeNodes (inDegree g)) (inDegree g).
Proof.
  pose proof (buildGraph_wf _ _ Hbuild) as Hwf.
  split.
  - intros w Hw. rewrite buildGraph_inDegree by done. unfold parentCount. simpl.
    f_equal. lia.
  - intros x p Hx Hp. exfalso.
    apply zeroDegreeNodes_elem in Hx;
      [|rewrite (wf_deg_keys g Hwf); apply (wf_keys_NoDup g Hwf)].
    destruct Hp as (w & Hw & <- & Hp). rewrite buildGraph_inDegree in Hx by done.
    injection Hx as Hx. destruct (dependsOnWorkOrderIds w); [by apply elem_of_nil in Hp|].
    simpl in Hx. lia.
  - intros l1 x l2 Heq. by destruct l1.
Qed.

(** Kahn's loop on a constructed graph: the ids it emits. *)
Lemma kahn_ids_result :
  exists ids deg',
    kahn_ids (length (DependencyGraph.workOrders g)) g
      (zeroDegreeNodes (inDegree g)) (inDegree g) = Some ids
    /\ kahn_inv g ids [] deg' /\ kahn_deps workOrders g ids [] deg'.
Proof.
  pose proof (buildGraph_wf _ _ Hbuild) as Hwf.
  destruct (kahn_ids_run g (kahn_deps workOrders g) Hwf kahn_deps_step
              (length (DependencyGraph.workOrders g)) [] _ _
              (kahn_inv_init g Hwf) kahn_deps_init) as (ids & deg' & H1 & H2 & H3);
    [simpl; lia|].
  exists ids, deg'. auto.
Qed.

Lemma lookupAll_keys ids :
  (forall x, x ∈ ids -> x ∈ omap_keys (DependencyGraph.workOrders g)) ->
  map docId (lookupAll g ids) = ids.
Proof.
  induction ids as [|x ids IH]; intros Hk; [done|].
  unfold lookupAll. simpl.
  destruct (key_workOrder x) as (w & Hw & <-); [apply Hk; left|].
  rewrite buildGraph_get by done. simpl. f_equal. apply IH.
  intros y Hy. apply Hk. by right.
Qed.

Lemma lookupAll_elem ids w :
  w ∈ lookupAll g ids -> w ∈ workOrders /\ docId w ∈ ids.
Proof.
  unfold lookupAll. rewrite list_elem_of_omap. intros (k & Hk & Hget).
  apply buildGraph_get_inv in Hget as [? <-]. auto.
Qed.

(** What a successful [topologicalSort] returns: the stored orders of ids
    that are a rearrangement of the ids of the input, each after all the
    ids it depends on. *)
Lemma topologicalSort_Ok ordered :
  topologicalSort g = Ok ordered ->
  map docId ordered ≡ₚ map docId workOrders
  /\ parentsFirst workOrders (map docId ordered)
  /\ (forall w, w ∈ ordered -> w ∈ workOrders).
Proof.
  unfold topologicalSort. destruct (hasCycles g); [done|].
  unfold kahn. rewrite kahn_loop_ids.
  destruct kahn_ids_result as (ids & deg' & -> & Hinv & Hdeps). simpl.
  destruct Hinv as [Hnd Hk _ _]. rewrite app_nil_r in Hnd, Hk.
  pose proof (lookupAll_keys ids Hk) as Hids.
  destruct (Nat.eqb_spec (length (lookupAll g ids)) (length (DependencyGraph.workOrders g)))
    as [Hlen|Hlen]; simpl; [|done].
  intros [= <-]. rewrite Hids. split; [|split].
  - apply submseteq_length_Permutation.
    + apply NoDup_submseteq; [done|]. intros x Hx. rewrite <- buildGraph_keys_eq. by apply Hk.
    + assert (Hl : length ids = length (lookupAll g ids))
        by (rewrite <- Hids at 1; by rewrite length_map).
      rewrite <- omap_keys_length, buildGraph_keys_eq in Hlen. lia.
  - apply (kd_done _ _ _ _ _ Hdeps).
  - intros w Hw. by apply lookupAll_elem in Hw as [? _].
Qed.

End KahnOrder.

(** ** DependencyGraph: the traversal of [hasCycles] *)

Section Dfs.
Import DependencyGraph.

Variable g : DependencyGraph.t.
Hypothesis Hwf : graph_wf g.

Lemma unvisited_mono_gen (K v v' : list string) :
  (forall x, x ∈ v -> x ∈ v') ->
  (length (filter (fun k => k ∉ v') K) <= length (filter (fun k => k ∉ v) K))%nat.
Proof.
  intros Hsub. induction K as [|k K IH]; [done|].
  rewrite !filter_cons.
  destruct (decide (k ∉ v')) as [H'|H']; destruct (decide (k ∉ v)) as [H|H]; simpl; try lia.
  exfalso. apply H. intros Hin. apply H'. by apply Hsub.
Qed.

Lemma unvisited_strict_gen (K v v' : list string) n :
  (forall x, x ∈ v -> x ∈ v') -> n ∈ K -> n ∉ v -> n ∈ v' ->
  (length (filter (fun k => k ∉ v') K) < length (filter (fun k => k ∉ v) K))%nat.
Proof.
  intros Hsub HnK Hnv Hnv'. induction K as [|k K IH]; [by apply elem_of_nil in HnK|].
  pose proof (unvisited_mono_gen K v v' Hsub) as Hmono.
  rewrite !filter_cons. apply elem_of_cons in HnK as [<-|HnK].
  - destruct (decide (n ∉ v')) as [H'|H']; [done|].
    destruct (decide (n ∉ v)) as [H|H]; [simpl; lia|done].
  - specialize (IH HnK).
    destruct (decide (k ∉ v')) as [H'|H']; destruct (decide (k ∉ v)) as [H|H];
      simpl; try lia.
    exfalso. apply H. intros Hin. apply H'. by apply Hsub.
Qed.

Lemma unvisited_le_keys v : (unvisited g v <= length (DependencyGraph.workOrders g))%nat.
Proof.
  unfold unvisited. rewrite <- omap_keys_length. apply length_filter.
Qed.

(** The loop over the neighbours ends when the calls of the closure do,
    and it only adds to the visited set. *)
Lemma dfs_neighbors_total rec n ns (v0 : list string) fuel :
  (forall nb v s, nb ∈ omap_keys (DependencyGraph.workOrders g) -> nb ∉ v ->
     (unvisited g v <= fuel)%nat ->
     exists b v' s', rec nb v s = Some (b, (v', s')) /\ (forall x, x ∈ v -> x ∈ v')) ->
  (unvisited g v0 <= fuel)%nat ->
  forall v s,
    (forall x, x ∈ ns -> x ∈ omap_keys (DependencyGraph.workOrders g)) ->
    (forall x, x ∈ v0 -> x ∈ v) ->
    exists b v' s',
      dfs_neighbors rec n ns v s = Some (b, (v', s')) /\ (forall x, x ∈ v -> x ∈ v').
Proof.
  intros Hrec Hfuel. induction ns as [|nb ns IH]; intros v s Hns Hv0; simpl.
  - eauto.
  - destruct (mem_spec nb v) as [Hin|Hin]; simpl.
    + destruct (mem nb s); [eauto|]. apply IH; [|done]. intros x Hx. apply Hns. by right.
    + destruct (Hrec nb v s) as (b & v' & s' & -> & Hsub); [apply Hns; left|done| |].
      { unfold unvisited in *. pose proof (unvisited_mono_gen
          (omap_keys (DependencyGraph.workOrders g)) v0 v Hv0). lia. }
      destruct b; [eauto|].
      destruct (IH v' s') as (b2 & v2 & s2 & -> & Hsub2).
      * intros x Hx. apply Hns. by right.
      * auto.
      * exists b2, v2, s2. auto.
Qed.

Lemma dfs_total fuel :
  forall n v s, n ∈ omap_keys (DependencyGraph.workOrders g) -> n ∉ v ->
    (unvisited g v <= fuel)%nat ->
    exists b v' s', dfs fuel g n v s = Some (b, (v', s')) /\ (forall x, x ∈ v -> x ∈ v').
Proof.
  induction fuel as [|fuel IH]; intros n v s HnK Hnv Hfuel.
  - exfalso. unfold unvisited in Hfuel.
    assert (Hin : n ∈ filter (fun k => k ∉ v) (omap_keys (DependencyGraph.workOrders g)))
      by (by apply list_elem_of_filter).
    destruct (filter _ _); [by apply elem_of_nil in Hin|simpl in Hfuel; lia].
  - simpl.
    assert (Hadd : forall x, x ∈ v -> x ∈ oset_add n v)
      by (intros x Hx; apply oset_add_elem; by right).
    destruct (dfs_neighbors_total (dfs fuel g) n (neighbors g n) (oset_add n v) fuel IH)
      with (v := oset_add n v) (s := oset_add n s) as (b & v' & s' & -> & Hsub).
    + pose proof (unvisited_strict_gen (omap_keys (DependencyGraph.workOrders g))
        v (oset_add n v) n Hadd HnK Hnv) as Hlt.
      unfold unvisited in *. specialize (Hlt ltac:(apply oset_add_elem; by left)). lia.
    + intros x Hx. by eapply neighbors_keys.
    + auto.
    + exists b, v', s'. auto.
Qed.

Lemma hasCycles_roots_total roots :
  forall v s,
    (forall x, x ∈ roots -> x ∈ omap_keys (DependencyGraph.workOrders g)) ->
    hasCycles_roots (length (DependencyGraph.workOrders g)) g roots v s <> None.
Proof.
  induction roots as [|n roots IH]; intros v s Hk; simpl; [done|].
  assert (Hk' : forall x, x ∈ roots -> x ∈ omap_keys (DependencyGraph.workOrders g))
    by (intros x Hx; apply Hk; by right).
  destruct (mem_spec n v) as [Hin|Hin]; simpl; [by apply IH|].
  destruct (dfs_total (length (DependencyGraph.workOrders g)) n v s)
    as (b & v' & s' & -> & _); [apply Hk; left|done|apply unvisited_le_keys|].
  destruct b; [done|by apply IH].
Qed.

(** The traversal never runs out of the fuel that [hasCycles] gives it. *)
Lemma hasCycles_opt_total : hasCycles_opt g <> None.
Proof. unfold hasCycles_opt. by apply hasCycles_roots_total. Qed.

(** *** No cycle is reported in a graph without one *)

Hypothesis Hacyclic : forall x, ~ tc (edge g) x x.

Lemma dfs_neighbors_sound rec n ns (s1 : list string) :
  (forall nb v s b v' s', rec nb v s = Some (b, (v', s')) ->
     NoDup s -> (forall x, x ∈ s -> rtc (edge g) x nb) ->
     b = false /\ NoDup s' /\ (forall x, x ∈ s' -> x ∈ s)) ->
  (forall x, x ∈ s1 -> rtc (edge g) x n) ->
  (forall x, x ∈ ns -> edge g n x) ->
  forall v s b v' s',
    dfs_neighbors rec n ns v s = Some (b, (v', s')) ->
    NoDup s -> (forall x, x ∈ s -> x ∈ s1) ->
    b = false /\ NoDup s' /\ (forall x, x ∈ s' -> x ∈ s1 /\ x <> n).
Proof.
  intros Hrec Hs1. induction ns as [|nb ns IH]; intros Hns v s b v' s'; simpl.
  - intros [= <- <- <-] Hnd Hsub. split; [done|]. split; [by apply oset_delete_NoDup|].
    intros x Hx. apply oset_delete_elem in Hx as [Hx Hne]; auto.
  - assert (Hns' : forall x, x ∈ ns -> edge g n x) by (intros x Hx; apply Hns; by right).
    assert (Hnb : edge g n nb) by (apply Hns; left).
    destruct (mem_spec nb v) as [Hin|Hin]; simpl.
    + destruct (mem_spec nb s) as [Hst|Hst]; [|by apply IH].
      intros _ _ Hsub. exfalso. apply (Hacyclic nb).
      eapply tc_rtc_l; [apply Hs1; by apply Hsub|]. by apply tc_once.
    + destruct (rec nb v s) as [[[] [v2 s2]]|] eqn:Erec; [| |done].
      * intros _ Hnd Hsub. exfalso.
        apply Hrec in Erec as [? _]; [done|done|].
        intros x Hx. eapply rtc_r; [apply Hs1; by apply Hsub|done].
      * intros Hloop Hnd Hsub.
        apply Hrec in Erec as (_ & Hnd2 & Hsub2); [|done|].
        -- eapply IH; eauto.
        -- intros x Hx. eapply rtc_r; [apply Hs1; by apply Hsub|done].
Qed.

Lemma dfs_sound fuel :
  forall n v s b v' s', dfs fuel g n v s = Some (b, (v', s')) ->
    NoDup s -> (forall x, x ∈ s -> rtc (edge g) x n) ->
    b = false /\ NoDup s' /\ (forall x, x ∈ s' -> x ∈ s).
Proof.
  induction fuel as [|fuel IH]; intros n v s b v' s'; simpl; [done|].
  intros Hrun Hnd Hreach.
  eapply (dfs_neighbors_sound (dfs fuel g) n (neighbors g n) (oset_add n s)) in Hrun
    as (Hb & Hnd' & Hsub); eauto.
  - split; [done|]. split; [done|]. intros x Hx. apply Hsub in Hx as [Hx Hne].
    apply oset_add_elem in Hx as [->|Hx]; done.
  - intros x Hx. apply oset_add_elem in Hx as [->|Hx]; [done|by apply Hreach].
  - by apply oset_add_NoDup.
Qed.

Lemma hasCycles_roots_sound fuel roots :
  forall v s b, hasCycles_roots fuel g roots v s = Some b ->
    NoDup s -> (forall x, x ∉ s) -> b = false.
Proof.
  induction roots as [|n roots IH]; intros v s b; simpl; [by intros [= <-]|].
  destruct (mem n v); simpl; [by apply IH|].
  destruct (dfs fuel g n v s) as [[[] [v2 s2]]|] eqn:Erun; [| |done].
  - intros _ Hnd Hs. apply dfs_sound in Erun as [? _]; [done|done|].
    intros x Hx. by apply Hs in Hx.
  - intros Hloop Hnd Hs. apply dfs_sound in Erun as (_ & Hnd2 & Hsub); [|done|].
    + eapply IH; eauto. intros x Hx. apply (Hs x). by apply Hsub.
    + intros x Hx. by apply Hs in Hx.
Qed.

(** [hasCycles] answers [false] on a graph without a cycle. *)
Lemma hasCycles_acyclic : hasCycles g = false.
Proof.
  unfold hasCycles. pose proof hasCycles_opt_total as Htot.
  destruct (hasCycles_opt g) as [b|] eqn:E; [|done].
  unfold hasCycles_opt in E. apply hasCycles_roots_sound in E; [done|constructor|].
  intros x Hx. by apply elem_of_nil in Hx.
Qed.

End Dfs.

(** [hasCycles] never runs out of fuel on a constructed graph. *)
Theorem hasCycles_fuel_enough workOrders g :
  DependencyGraph.buildGraph workOrders = Ok g -> DependencyGraph.hasCycles_opt g <> None.
Proof. intros H. apply hasCycles_opt_total. by eapply buildGraph_wf. Qed.

Lemma tc_edge_dependsOn workOrders g x y :
  DependencyGraph.buildGraph workOrders = Ok g ->
  tc (edge g) x y -> tc (dependsOn workOrders) y x.
Proof.
  intros Hb. induction 1 as [x y H|x y z H _ IH].
  - apply tc_once. by apply (buildGraph_neighbors _ _ _ _ Hb).
  - eapply tc_r; [exact IH|]. by apply (buildGraph_neighbors _ _ _ _ Hb).
Qed.

(** [hasCycles] answers [false] when the declared dependencies have no
    cycle. *)
Lemma hasCycles_false workOrders g :
  DependencyGraph.buildGraph workOrders = Ok g ->
  acyclic workOrders -> DependencyGraph.hasCycles g = false.
Proof.
  intros Hb Hac. apply hasCycles_acyclic; [by eapply buildGraph_wf|].
  intros x Hx. apply (Hac x). by eapply tc_edge_dependsOn.
Qed.

(** ** C2 and C10: a parent listed more than once *)

Section DuplicatedParent.
Import DependencyGraph.

(** A rank that decreases along every dependency excludes cycles. *)
Lemma acyclic_by_rank workOrders (rank : string -> nat) :
  (forall c p, dependsOn workOrders c p -> (rank p < rank c)%nat) ->
  acyclic workOrders.
Proof.
  intros Hrank x Hx.
  assert (H : forall a b, tc (dependsOn workOrders) a b -> (rank b < rank a)%nat).
  { induction 1 as [a b H|a b c H _ IH]; [by apply Hrank|].
    apply Hrank in H. lia. }
  apply H in Hx. lia.
Qed.

Lemma duplicatedParent_acyclic : acyclic Examples.duplicatedParent.
Proof.
  apply (acyclic_by_rank _ (fun id => if String.eqb id "B" then 1%nat else 0%nat)).
  intros c p (w & Hw & <- & Hp). unfold Examples.duplicatedParent in Hw.
  repeat (apply elem_of_cons in Hw as [->|Hw]); simpl in *;
    repeat (apply elem_of_cons in Hp as [->|Hp]); simpl;
    try lia; try (by apply elem_of_nil in Hp); by apply elem_of_nil in Hw.
Qed.

Lemma duplicatedParent_uniqueIds : uniqueIds Examples.duplicatedParent.
Proof.
  unfold uniqueIds. simpl. apply NoDup_cons. split.
  - intros H. apply list_elem_of_singleton in H. discriminate.
  - apply NoDup_singleton.
Qed.

(** C2 at a failing input: the two orders A and B, where B lists its only
    parent A twice, have no cycle, and [hasCycles] says so; yet
    [topologicalSort] raises "Cycle detected in dependency graph" instead
    of returning the two orders with A before B: the stored in-degree of B
    is 2, the number of entries of its list, and the single edge from A
    lowers it to 1 only. *)
Theorem C2_topologicalSort_fails_on_duplicated_parent :
  acyclic Examples.duplicatedParent
  /\ exists g, buildGraph Examples.duplicatedParent = Ok g
               /\ hasCycles g = false
               /\ omap_get "B" (inDegree g) = Some 2
               /\ neighbors g "A" = ["B"]
               /\ topologicalSort g = Err CycleDetected.
Proof.
  split; [exact duplicatedParent_acyclic|].
  eexists. split; [vm_compute; reflexivity|]. vm_compute. auto.
Qed.



End DuplicatedParent.

(** ** DependencyGraph: [topologicalSort] on lists without repeated parents

    Where no dependency list repeats an id, Kahn's algorithm emits every
    order of an acyclic list. *)

Section Chains.

Variable R : relation string.

Lemma chain_tail x l : chain R (x :: l) -> chain R l.
Proof. intros H i a b Ha Hb. apply (H (S i) a b); done. Qed.

Lemma chain_app_r l1 l2 : chain R (l1 ++ l2) -> chain R l2.
Proof. induction l1 as [|x l1 IH]; [done|]. intros H. apply IH. by eapply chain_tail. Qed.

Lemma chain_app_l l1 l2 : chain R (l1 ++ l2) -> chain R l1.
Proof.
  intros H i a b Ha Hb. apply (H i a b).
  - by apply lookup_app_l_Some.
  - by apply lookup_app_l_Some.
Qed.

Lemma chain_tc x l y : chain R (x :: l ++ [y]) -> tc R x y.
Proof.
  revert x. induction l as [|a l IH]; intros x H.
  - apply tc_once. by apply (H 0%nat).
  - eapply tc_l; [by apply (H 0%nat)|]. apply IH. by eapply chain_tail.
Qed.

Lemma repeated_entry (l : list string) :
  ~ NoDup l -> exists x l1 l2 l3, l = l1 ++ x :: l2 ++ x :: l3.
Proof.
  induction l as [|a l IH]; intros Hnd; [exfalso; apply Hnd; constructor|].
  destruct (decide (a ∈ l)) as [Hin|Hin].
  - apply list_elem_of_split in Hin as (l2 & l3 & ->). by exists a, [], l2, l3.
  - destruct IH as (x & l1 & l2 & l3 & ->).
    + intros Hl. apply Hnd. by constructor.
    + by exists x, (a :: l1), l2, l3.
Qed.

(** A chain that is longer than a list in which it lies goes through some
    entry twice. *)
Lemma chain_cycle (K l : list string) :
  chain R l -> (forall x, x ∈ l -> x ∈ K) -> (length K < length l)%nat ->
  exists x, tc R x x.
Proof.
  intros Hchain Hsub Hlen.
  destruct (repeated_entry l) as (x & l1 & l2 & l3 & ->).
  { intros Hnd. pose proof (NoDup_subset_length _ _ Hnd Hsub). lia. }
  exists x. apply (chain_tc x l2 x).
  apply chain_app_r in Hchain.
  replace (x :: l2 ++ x :: l3) with ((x :: l2 ++ [x]) ++ l3) in Hchain
    by (simpl; by rewrite <- app_assoc).
  by apply chain_app_l in Hchain.
Qed.

(** From an entry of a set in which every entry is related to another
    entry, chains of any length start. *)
Lemma chain_extend (U : string -> Prop) :
  (forall u, U u -> exists p, R u p /\ U p) ->
  forall n u, U u ->
    exists l, length l = S n /\ head l = Some u /\ chain R l /\ forall x, x ∈ l -> U x.
Proof.
  intros Hnext. induction n as [|n IH]; intros u Hu.
  - exists [u]. split; [done|]. split; [done|]. split.
    + intros i a b Ha Hb. destruct i; done.
    + intros x Hx. by apply list_elem_of_singleton in Hx as ->.
  - destruct (Hnext u Hu) as (p & Hup & Hp).
    destruct (IH p Hp) as (l & Hlen & Hhead & Hchain & Hall).
    exists (u :: l). split; [simpl; lia|]. split; [done|]. split.
    + intros i a b Ha Hb. destruct i as [|i].
      * injection Ha as <-. simpl in Hb. rewrite <- head_lookup, Hhead in Hb.
        by injection Hb as <-.
      * by apply (Hchain i a b).
    + intros x Hx. apply elem_of_cons in Hx as [->|Hx]; auto.
Qed.

End Chains.

Section KahnComplete.
Import DependencyGraph.

Variable workOrders : list WorkOrderDocument.
Variable g : DependencyGraph.t.
Hypothesis Hunique : uniqueIds workOrders.
Hypothesis Hbuild : buildGraph workOrders = Ok g.

Lemma kahn_zero_step done n queue deg :
  kahn_zero done (n :: queue) deg ->
  kahn_zero (done ++ [n]) (queue ++ pushedChildren (neighbors g n) deg)
    (decrementAll (neighbors g n) deg).
Proof.
  intros Hzero k Hk.
  pose proof (neighbors_NoDup g n (buildGraph_wf _ _ Hbuild)) as Hcs.
  rewrite <- app_assoc. simpl. rewrite app_comm_cons, app_assoc.
  destruct (decide (k ∈ neighbors g n)) as [Hin|Hin].
  - rewrite decrementAll_get_in in Hk by done.
    destruct (omap_get k deg) as [d|] eqn:E; [|done]. injection Hk as Hd.
    apply elem_of_app. right. apply pushedChildren_elem. split; [done|].
    rewrite E. f_equal. lia.
  - rewrite decrementAll_get_notin in Hk by done.
    apply elem_of_app. left. by apply Hzero.
Qed.

Lemma kahn_zero_init : kahn_zero [] (zeroDegreeNodes (inDegree g)) (inDegree g).
Proof.
  pose proof (buildGraph_wf _ _ Hbuild) as Hwf.
  intros k Hk. simpl. apply zeroDegreeNodes_elem; [|done].
  rewrite (wf_deg_keys g Hwf). apply (wf_keys_NoDup g Hwf).
Qed.

(** An order whose parents are all among ids without repetition, and whose
    list repeats no parent, has as many parents there as its list is long. *)
Lemma parentCount_all w done :
  w ∈ workOrders -> NoDup (dependsOnWorkOrderIds w) ->
  (forall p, p ∈ dependsOnWorkOrderIds w -> p ∈ done) ->
  Z.of_nat (length (dependsOnWorkOrderIds w)) <= parentCount g (docId w) done.
Proof.
  intros Hw Hnd Hall. unfold parentCount. apply inj_le.
  apply submseteq_length, NoDup_submseteq; [done|].
  intros p Hp. apply list_elem_of_filter. split; [|by apply Hall].
  apply (buildGraph_neighbors _ _ _ _ Hbuild). by exists w.
Qed.

Hypothesis Hacyclic : acyclic workOrders.
Hypothesis Hnodup : forall w, w ∈ workOrders -> NoDup (dependsOnWorkOrderIds w).

(** Kahn's loop dequeues every id. *)
Lemma kahn_ids_complete :
  exists ids,
    kahn_ids (length (DependencyGraph.workOrders g)) g
      (zeroDegreeNodes (inDegree g)) (inDegree g) = Some ids
    /\ ids ≡ₚ map docId workOrders
    /\ parentsFirst workOrders ids.
Proof.
  pose proof (buildGraph_wf _ _ Hbuild) as Hwf.
  destruct (kahn_ids_run g
              (fun done queue deg => kahn_deps workOrders g done queue deg
                                      /\ kahn_zero done queue deg) Hwf)
    with (fuel := length (DependencyGraph.workOrders g)) (done := @nil string)
         (queue := zeroDegreeNodes (inDegree g)) (deg := inDegree g)
    as (ids & deg' & Hrun & Hinv & Hdeps & Hzero).
  { intros done n queue deg Hinv [Hdeps Hzero]. split.
    - by apply kahn_deps_step.
    - by apply kahn_zero_step. }
  { by apply kahn_inv_init. }
  { split; [by apply kahn_deps_init|apply kahn_zero_init]. }
  { simpl. lia. }
  simpl in *. exists ids. split; [done|]. split; [|apply (kd_done _ _ _ _ _ Hdeps)].
  destruct Hinv as [Hnd Hk _ _]. rewrite app_nil_r in Hnd, Hk.
  apply NoDup_Permutation; [done|exact Hunique|]. intros x. split.
  { intros Hx. rewrite <- (buildGraph_keys_eq _ _ Hunique Hbuild). by apply Hk. }
  intros Hx. destruct (decide (x ∈ ids)) as [|Hnot]; [done|]. exfalso.
  (* every id that was not dequeued depends on one that was not either *)
  set (U := fun u : string => u ∈ map docId workOrders /\ u ∉ ids).
  assert (Hnext : forall u, U u -> exists p, dependsOn workOrders u p /\ U p).
  { intros u [Hu Hun]. apply list_elem_of_fmap in Hu as (w & -> & Hw).
    destruct (decide (Exists (fun p => p ∉ ids) (dependsOnWorkOrderIds w))) as [Hex|Hall].
    - apply Exists_exists in Hex as (p & Hp & Hpn). exists p. split; [by exists w|].
      split; [|done]. eapply buildGraph_parents_exist; eauto.
    - exfalso. apply Hun. specialize (Hzero (docId w)).
      rewrite app_nil_r in Hzero. apply Hzero.
      rewrite (kd_deg _ _ _ _ _ Hdeps w Hw). f_equal.
      pose proof (parentCount_le workOrders g Hunique Hbuild w ids Hw Hnd).
      pose proof (parentCount_all w ids Hw (Hnodup w Hw)) as Hge.
      assert (forall p, p ∈ dependsOnWorkOrderIds w -> p ∈ ids).
      { intros p Hp. destruct (decide (p ∈ ids)) as [|Hpn]; [done|].
        exfalso. apply Hall. apply Exists_exists. by exists p. }
      specialize (Hge ltac:(done)). lia. }
  destruct (chain_extend (dependsOn workOrders) U Hnext (length (map docId workOrders)) x)
    as (l & Hlen & _ & Hchain & HU); [by split|].
  destruct (chain_cycle (dependsOn workOrders) (map docId workOrders) l Hchain)
    as [y Hy]; [by intros z Hz; apply HU in Hz as [? _]|lia|].
  by apply (Hacyclic y).
Qed.

(** X11: for an acyclic list of work orders with distinct ids in which no
    dependency list repeats an id, [topologicalSort] returns as many
    orders as the list has, each after all the orders it depends on. *)
Theorem topologicalSort_sorts_without_repeated_parents :
  exists ordered,
    topologicalSort g = Ok ordered
    /\ length ordered = length workOrders
    /\ map docId ordered ≡ₚ map docId workOrders
    /\ parentsFirst workOrders (map docId ordered).
Proof.
  pose proof (buildGraph_wf _ _ Hbuild) as Hwf.
  destruct kahn_ids_complete as (ids & Hrun & Hperm & Hfirst).
  assert (Hids : map docId (lookupAll g ids) = ids).
  { apply (lookupAll_keys _ _ Hunique Hbuild). intros x Hx.
    rewrite (buildGraph_keys_eq _ _ Hunique Hbuild). by rewrite <- Hperm. }
  assert (Hlen : length (lookupAll g ids) = length workOrders).
  { rewrite <- (length_map docId (lookupAll g ids)), Hids.
    rewrite (Permutation_length Hperm). apply length_map. }
  exists (lookupAll g ids). unfold topologicalSort.
  rewrite (hasCycles_false _ _ Hbuild Hacyclic). unfold kahn.
  rewrite kahn_loop_ids, Hrun. simpl.
  rewrite Hlen, <- omap_keys_length, (buildGraph_keys_eq _ _ Hunique Hbuild), length_map.
  rewrite Nat.eqb_refl. simpl. rewrite Hids. auto.
Qed.

End KahnComplete.

(** ** ReflowService: the loop over the ordered work orders *)

Section ReflowLoop.
Import ReflowService.

Variable clock : nat -> Z.

Lemma workCenterMapOf_key workCenters k wc :
  omap_get k (workCenterMapOf workCenters) = Some wc -> wc_docId wc = k.
Proof.
  unfold workCenterMapOf.
  assert (H : forall m,
    (forall k wc, omap_get k m = Some wc -> wc_docId wc = k) ->
    forall k wc, omap_get k (fold_left (fun m wc => omap_set (wc_docId wc) wc m)
                               workCenters m) = Some wc -> wc_docId wc = k).
  { induction workCenters as [|wc0 wcs IH]; intros m Hm; simpl; [exact Hm|].
    apply IH. intros k' wc'. destruct (decide (wc_docId wc0 = k')) as [<-|Hne].
    - rewrite omap_get_set_eq. by intros [= <-].
    - rewrite omap_get_set_ne by done. apply Hm. }
  apply H. intros k' wc' Hget. discriminate.
Qed.

(** What one iteration does to the list of updated orders. *)
Lemma scheduleOne_updated dag workCenterMap st w st' :
  scheduleOne clock dag workCenterMap st w = Ok st' ->
  (isMaintenance w = true /\ st_updated st' = st_updated st ++ [w]
   /\ st_availability st' = st_availability st)
  \/ (isMaintenance w = false
      /\ exists workCenter parents wcAvailable newStartDate newEndDate,
           omap_get (workCenterId w) workCenterMap = Some workCenter
           /\ DependencyGraph.getParents dag (docId w) = Ok parents
           /\ wcAvailable
              = match omap_get (wc_docId workCenter) (st_availability st) with
                | Some available => available
                | None => clock (st_tick st)
                end
           /\ getEarliestStartTime
                (match map (parentEndTime (st_updated st)) parents with
                 | [] => [0]
                 | _ => map (parentEndTime (st_updated st)) parents
                 end) wcAvailable (shifts workCenter) = Ok newStartDate
           /\ calculateEndDate newStartDate (durationMinutes w) (shifts workCenter)
                (maintenanceWindows workCenter) = Ok newEndDate
           /\ st_updated st' = st_updated st ++ [withDates w newStartDate newEndDate]
           /\ st_availability st'
              = omap_set (wc_docId workCenter) newEndDate (st_availability st)).
Proof.
  unfold scheduleOne. destruct (isMaintenance w) eqn:Em.
  - intros [= <-]. left. auto.
  - destruct (omap_get (workCenterId w) workCenterMap) as [workCenter|] eqn:Ewc; [|done].
    destruct (DependencyGraph.getParents dag (docId w)) as [parents|] eqn:Ep; [|done].
    simpl.
    set (wcAvailable := match omap_get (wc_docId workCenter) (st_availability st) with
                        | Some available => (available, st_tick st)
                        | None => (clock (st_tick st), S (st_tick st))
                        end).
    destruct wcAvailable as [available tick] eqn:Eav.
    destruct (getEarliestStartTime _ available (shifts workCenter))
      as [newStartDate|] eqn:Es; [|done]. simpl.
    destruct (calculateEndDate newStartDate _ _ _) as [newEndDate|] eqn:Ee; [|done]. simpl.
    intros H. right. split; [done|].
    exists workCenter, parents, available, newStartDate, newEndDate.
    repeat split; auto.
    + subst wcAvailable.
      destruct (omap_get (wc_docId workCenter) (st_availability st)); by injection Eav.
    + destruct (_ || _); by injection H as <-.
    + destruct (_ || _); by injection H as <-.
Qed.

Lemma sequenced_step dag workCenterMap st w st' :
  (forall k wc, omap_get k workCenterMap = Some wc -> wc_docId wc = k) ->
  scheduleOne clock dag workCenterMap st w = Ok st' ->
  sequenced (st_updated st) (st_availability st) ->
  sequenced (st_updated st') (st_availability st').
Proof.
  intros Hkey Hstep [Heach Hpair].
  apply scheduleOne_updated in Hstep
    as [(Hm & -> & ->)|(Hm & wc & ps & a & s & e & Hwc & _ & Hav & Hs & He & -> & ->)].
  - split.
    + intros x Hx Hx'. apply elem_of_app in Hx as [Hx|Hx]; [by apply Heach|].
      apply list_elem_of_singleton in Hx as ->. congruence.
    + intros i j wi wj Hij Hi Hj Hmi Hmj Hsame.
      apply lookup_lt_Some in Hj as Hjlt. rewrite length_app in Hjlt. simpl in Hjlt.
      destruct (decide (j < length (st_updated st))%nat) as [Hlt|Hge].
      * rewrite lookup_app_l in Hi, Hj by lia. eauto.
      * rewrite lookup_app_r in Hj by lia.
        replace (j - length (st_updated st))%nat with 0%nat in Hj by lia.
        injection Hj as <-. congruence.
  - apply Hkey in Hwc as Hid.
    apply getEarliestStartTime_ge in Hs as [Hs _].
    apply calculateEndDate_ge in He.
    assert (Hold : forall x, x ∈ st_updated st -> isMaintenance x = false ->
              workCenterId x = workCenterId w -> endDate x <= s).
    { intros x Hx Hxm Hsame. destruct (Heach x Hx Hxm) as (_ & a' & Ha' & Hle).
      rewrite Hsame, <- Hid in Ha'. rewrite Ha' in Hav. lia. }
    split.
    + intros x Hx Hxm. apply elem_of_app in Hx as [Hx|Hx].
      * destruct (Heach x Hx Hxm) as (Hse & a' & Ha' & Hle). split; [done|].
        destruct (decide (workCenterId x = workCenterId w)) as [Hsame|Hne].
        -- exists e. rewrite Hsame, <- Hid, omap_get_set_eq. split; [done|].
           specialize (Hold x Hx Hxm Hsame). lia.
        -- exists a'. rewrite omap_get_set_ne by congruence. auto.
      * apply list_elem_of_singleton in Hx as ->. simpl. split; [done|].
        exists e. rewrite <- Hid, omap_get_set_eq. split; [done|lia].
    + intros i j wi wj Hij Hi Hj Hmi Hmj Hsame.
      apply lookup_lt_Some in Hj as Hjlt. rewrite length_app in Hjlt. simpl in Hjlt.
      destruct (decide (j < length (st_updated st))%nat) as [Hlt|Hge].
      * rewrite lookup_app_l in Hi, Hj by lia. eauto.
      * rewrite lookup_app_r in Hj by lia.
        replace (j - length (st_updated st))%nat with 0%nat in Hj by lia.
        injection Hj as <-. simpl in *.
        rewrite lookup_app_l in Hi by lia.
        apply list_elem_of_lookup_2 in Hi. by apply Hold.
Qed.

Lemma sequenced_all dag workCenterMap ordered :
  (forall k wc, omap_get k workCenterMap = Some wc -> wc_docId wc = k) ->
  forall st st',
    scheduleAll clock dag workCenterMap ordered st = Ok st' ->
    sequenced (st_updated st) (st_availability st) ->
    sequenced (st_updated st') (st_availability st').
Proof.
  intros Hkey. induction ordered as [|w ordered IH]; intros st st'; simpl.
  - by intros [= <-].
  - destruct (scheduleOne clock dag workCenterMap st w) as [st1|] eqn:E1; simpl; [|done].
    intros Hrest Hseq. eapply IH; eauto. eapply sequenced_step; eauto.
Qed.

Lemma reflow_cases input : reflow_outcome clock input (reflow clock input).
Proof.
  unfold reflow. destruct (reflow_try clock input) as [r|e] eqn:E.
  - unfold reflow_try in E.
    destruct (DependencyGraph.buildGraph (in_workOrders input)) as [dag|] eqn:Eb; [|done].
    simpl in E. destruct (DependencyGraph.hasCycles dag) eqn:Ec.
    + injection E as <-. by eapply reflow_circular.
    + destruct (DependencyGraph.topologicalSort dag) as [ordered|] eqn:Et; [|done].
      simpl in E.
      destruct (initAvailability clock (in_workCenters input) [] 0%nat)
        as [init|] eqn:Ei; [|done].
      simpl in E. destruct (scheduleAll _ _ _ _ _) as [st|] eqn:Es; [|done].
      simpl in E. destruct (ConstraintChecker.validate _ _) as [vs|] eqn:Ev; [|done].
      simpl in E. injection E as <-. by eapply reflow_scheduled.
  - by eapply reflow_failed.
Qed.

End ReflowLoop.

Import ReflowService.

(** ** C3: no overlap on a work center *)

(** C3: in the work orders that [reflow] returns, two different orders
    that are not maintenance orders and are assigned to the same work
    center never overlap as half-open intervals. (A call that fails or
    reports a cycle returns no order at all.) *)
Theorem C3_reflow_no_overlap_on_work_center
    (clock : nat -> Z) (input : ReflowInput) (i j : nat) (wi wj : WorkOrderDocument) :
  let result := ReflowService.reflow clock input in
  updatedWorkOrders result !! i = Some wi ->
  updatedWorkOrders result !! j = Some wj ->
  i <> j ->
  isMaintenance wi = false ->
  isMaintenance wj = false ->
  workCenterId wi = workCenterId wj ->
  timePeriodsOverlap (startDate wi) (endDate wi) (startDate wj) (endDate wj) = false.
Proof.
  intros result Hi Hj Hij Hmi Hmj Hsame.
  destruct (reflow_cases clock input) as [e _ Hr|dag _ _ Hr|dag ordered init st vs
    _ _ _ _ Hall _ Hup _ _ _]; fold result in Hr || fold result in Hup.
  1, 2: rewrite Hr in Hi; simpl in Hi; by rewrite lookup_nil in Hi.
  rewrite Hup in Hi, Hj.
  assert (Hseq : sequenced (st_updated st) (st_availability st)).
  { eapply sequenced_all; [|exact Hall|].
    - intros k wc. apply workCenterMapOf_key.
    - simpl. split.
      + intros w Hw. by apply elem_of_nil in Hw.
      + intros ? ? ? ? _ H. by rewrite lookup_nil in H. }
  destruct Hseq as [_ Hpair]. unfold timePeriodsOverlap.
  destruct (decide (i < j)%nat) as [Hlt|Hge].
  - specialize (Hpair i j wi wj Hlt Hi Hj Hmi Hmj Hsame).
    apply andb_false_iff. right. rewrite Z.gtb_ltb. apply Z.ltb_ge. lia.
  - specialize (Hpair j i wj wi ltac:(lia) Hj Hi Hmj Hmi (eq_sym Hsame)).
    apply andb_false_iff. left. apply Z.ltb_ge. lia.
Qed.

(** C3 on the cascade A -> B -> C of one work center: A and B. *)
Lemma C3_witness :
  exists wi wj,
    updatedWorkOrders (reflow Examples.mondayMorning Examples.cascade) !! 0%nat = Some wi
    /\ updatedWorkOrders (reflow Examples.mondayMorning Examples.cascade) !! 2%nat = Some wj
    /\ timePeriodsOverlap (startDate wi) (endDate wi) (startDate wj) (endDate wj) = false.
Proof.
  eexists. eexists.
  split; [vm_compute; reflexivity|]. split; [vm_compute; reflexivity|].
  apply (C3_reflow_no_overlap_on_work_center Examples.mondayMorning Examples.cascade
           0%nat 2%nat).
  - vm_compute. reflexivity.
  - vm_compute. reflexivity.
  - lia.
  - reflexivity.
  - reflexivity.
  - reflexivity.
Defined.

(** ** ReflowService: the updated orders follow the sorted orders *)

Section ReflowOrder.

Variable clock : nat -> Z.
Variable workOrders : list WorkOrderDocument.
Variable dag : DependencyGraph.t.
Variable workCenterMap : list (string * WorkCenterDocument).
Hypothesis Hunique : uniqueIds workOrders.
Hypothesis Hbuild : DependencyGraph.buildGraph workOrders = Ok dag.

Lemma updates_docId w u : updates w u -> docId u = docId w.
Proof. by intros [[_ ->]|(_ & s & e & ->)]. Qed.

Lemma updates_isMaintenance w u : updates w u -> isMaintenance u = isMaintenance w.
Proof. by intros [[_ ->]|(_ & s & e & ->)]. Qed.


Lemma scheduleOne_updates st w st' :
  scheduleOne clock dag workCenterMap st w = Ok st' ->
  exists u, st_updated st' = st_updated st ++ [u] /\ updates w u.
Proof.
  intros H. apply scheduleOne_updated in H
    as [(Hm & -> & _)|(Hm & wc & ps & a & s & e & _ & _ & _ & _ & _ & -> & _)].
  - exists w. split; [done|]. by left.
  - eexists. split; [done|]. right. eauto.
Qed.

Lemma scheduleAll_updates ordered :
  forall st st', scheduleAll clock dag workCenterMap ordered st = Ok st' ->
    exists us, st_updated st' = st_updated st ++ us /\ Forall2 updates ordered us.
Proof.
  induction ordered as [|w ordered IH]; intros st st'; simpl.
  - intros [= <-]. exists []. rewrite app_nil_r. split; [done|constructor].
  - destruct (scheduleOne clock dag workCenterMap st w) as [st1|] eqn:E1; simpl; [|done].
    intros Hrest. apply scheduleOne_updates in E1 as (u & Hu & Hupd).
    apply IH in Hrest as (us & Hus & Hall). exists (u :: us).
    rewrite Hus, Hu, <- app_assoc. split; [done|]. by constructor.
Qed.

Lemma Forall2_updates_ids ordered us :
  Forall2 updates ordered us -> map docId us = map docId ordered.
Proof.
  induction 1 as [|w u ws us Hu _ IH]; simpl; [done|].
  by rewrite IH, (updates_docId _ _ Hu).
Qed.

(** The end time that the loop takes for a parent that has an updated
    version is the end time of an updated order with the id of the parent. *)
Lemma parentEndTime_updated updated p :
  docId p ∈ map docId updated ->
  exists (j : nat) u,
    updated !! j = Some u /\ docId u = docId p /\ parentEndTime updated p = endDate u.
Proof.
  intros Hin. unfold parentEndTime.
  destruct (List.find _ updated) as [u|] eqn:E.
  - apply find_some in E as [Hu Heq]. apply String.eqb_eq in Heq.
    apply list_elem_of_In, list_elem_of_lookup in Hu as [j Hj]. eauto.
  - exfalso. apply list_elem_of_fmap in Hin as (u & Heq & Hu).
    apply list_elem_of_In in Hu. apply (find_none _ _ E) in Hu.
    rewrite Heq, String.eqb_refl in Hu. done.
Qed.

Lemma getParents_elem w pid :
  w ∈ workOrders -> pid ∈ dependsOnWorkOrderIds w ->
  exists parents p,
    DependencyGraph.getParents dag (docId w) = Ok parents
    /\ p ∈ parents /\ docId p = pid.
Proof.
  intros Hw Hpid. unfold DependencyGraph.getParents.
  rewrite (buildGraph_get workOrders dag Hunique Hbuild w Hw).
  destruct (key_workOrder workOrders dag Hunique Hbuild pid) as (p & Hp & <-).
  { apply (buildGraph_keys _ _ Hbuild). eapply buildGraph_parents_exist; eauto. }
  eexists. exists p. split; [done|]. split; [|done].
  apply list_elem_of_omap. exists (docId p). split; [done|].
  by apply (buildGraph_get workOrders dag Hunique Hbuild).
Qed.

(** One iteration keeps [startsAfterParents], when every id that the
    order depends on has been processed. *)
Lemma startsAfterParents_step st w st' :
  w ∈ workOrders ->
  (forall pid, pid ∈ dependsOnWorkOrderIds w -> pid ∈ map docId (st_updated st)) ->
  scheduleOne clock dag workCenterMap st w = Ok st' ->
  startsAfterParents (st_updated st) ->
  startsAfterParents (st_updated st').
Proof.
  intros Hw Hdeps Hstep Hinv.
  assert (Hold : forall u, startsAfterParents (st_updated st ++ [u]) <->
    forall pid, isMaintenance u = false -> pid ∈ dependsOnWorkOrderIds u ->
      exists (j : nat) p, (j < length (st_updated st))%nat
        /\ st_updated st !! j = Some p /\ docId p = pid /\ endDate p <= startDate u).
  { intros u. split.
    - intros H pid Hm Hpid.
      destruct (H (length (st_updated st)) u pid) as (j & p & Hj & Hp & Hrest); auto.
      + rewrite lookup_app_r by lia. by rewrite Nat.sub_diag.
      + exists j, p. rewrite lookup_app_l in Hp by lia. auto.
    - intros H i x pid Hi Hm Hpid.
      apply lookup_lt_Some in Hi as Hlt. rewrite length_app in Hlt. simpl in Hlt.
      destruct (decide (i < length (st_updated st))%nat) as [Hin|Hout].
      + rewrite lookup_app_l in Hi by lia.
        destruct (Hinv i x pid Hi Hm Hpid) as (j & p & Hj & Hp & Hrest).
        exists j, p. rewrite lookup_app_l by lia. auto.
      + rewrite lookup_app_r in Hi by lia.
        replace (i - length (st_updated st))%nat with 0%nat in Hi by lia.
        injection Hi as <-.
        destruct (H pid Hm Hpid) as (j & p & Hj & Hp & Hrest).
        exists j, p. rewrite lookup_app_l by lia. split; [lia|auto]. }
  apply scheduleOne_updated in Hstep
    as [(Hm & -> & _)|(Hm & wc & ps & a & s & e & _ & Hps & _ & Hs & _ & -> & _)].
  - apply Hold. intros pid Hm'. congruence.
  - apply Hold. simpl. intros pid _ Hpid.
    destruct (getParents_elem w pid Hw Hpid) as (ps' & p & Hps' & Hp & <-).
    rewrite Hps in Hps'. injection Hps' as <-.
    destruct (parentEndTime_updated (st_updated st) p (Hdeps _ Hpid))
      as (j & u & Hj & Hid & Hend).
    exists j, u. split; [by eapply lookup_lt_Some|]. split; [done|]. split; [done|].
    apply getEarliestStartTime_ge in Hs as [_ Hs].
    rewrite <- Hend. apply Hs.
    assert (Hin : parentEndTime (st_updated st) p ∈ map (parentEndTime (st_updated st)) ps)
      by (by apply list_elem_of_fmap_2).
    destruct (map (parentEndTime (st_updated st)) ps); [by apply elem_of_nil in Hin|done].
Qed.

Lemma startsAfterParents_all rest :
  forall processed st st',
    (forall w, w ∈ rest -> w ∈ workOrders) ->
    parentsFirst workOrders (map docId (processed ++ rest)) ->
    map docId (st_updated st) = map docId processed ->
    scheduleAll clock dag workCenterMap rest st = Ok st' ->
    startsAfterParents (st_updated st) ->
    startsAfterParents (st_updated st').
Proof.
  induction rest as [|w rest IH]; intros processed st st' Hin Hfirst Hids; simpl.
  - by intros [= <-].
  - destruct (scheduleOne clock dag workCenterMap st w) as [st1|] eqn:E1; simpl; [|done].
    intros Hrest Hinv.
    assert (Hw : w ∈ workOrders) by (apply Hin; left).
    apply (IH (processed ++ [w]) st1 st').
    + intros x Hx. apply Hin. by right.
    + by rewrite <- app_assoc.
    + apply scheduleOne_updates in E1 as (u & -> & Hu).
      rewrite !map_app, Hids. simpl. by rewrite (updates_docId _ _ Hu).
    + exact Hrest.
    + eapply startsAfterParents_step; eauto.
      intros pid Hpid. rewrite Hids.
      apply (Hfirst (map docId processed) (docId w) (map docId rest)).
      * by rewrite map_app.
      * by exists w.
Qed.

End ReflowOrder.

(** What a call of [reflow] that returns orders has gone through, for
    orders with distinct ids. *)
Lemma reflow_scheduled_inv clock input :
  uniqueIds (in_workOrders input) ->
  updatedWorkOrders (reflow clock input) <> [] ->
  exists dag ordered,
    DependencyGraph.buildGraph (in_workOrders input) = Ok dag
    /\ DependencyGraph.topologicalSort dag = Ok ordered
    /\ Forall2 updates ordered (updatedWorkOrders (reflow clock input))
    /\ startsAfterParents (updatedWorkOrders (reflow clock input)).
Proof.
  intros Hunique Hne.
  destruct (reflow_cases clock input) as [e _ Hr|dag _ _ Hr|dag ordered init st vs
    Hb _ Hsort _ Hall _ Hup _ _ _]; [by rewrite Hr in Hne|by rewrite Hr in Hne|].
  exists dag, ordered. rewrite Hup. split; [done|]. split; [done|].
  pose proof (topologicalSort_Ok _ _ Hunique Hb _ Hsort) as (_ & Hfirst & Hin).
  split.
  - apply scheduleAll_updates in Hall as (us & Hus & Hupd). simpl in Hus. by rewrite Hus.
  - apply (startsAfterParents_all clock _ dag (workCenterMapOf (in_workCenters input))
             Hunique Hb ordered []
             (mkState (fst init) [] [] (snd init)) st); auto.
    intros i w pid Hi. simpl in Hi. by rewrite lookup_nil in Hi.
Qed.

(** ** C4: an order starts after the orders it depends on have ended *)


Lemma cascade_uniqueIds : uniqueIds (in_workOrders Examples.cascade).
Proof.
  unfold uniqueIds. simpl. apply NoDup_ListNoDup.
  repeat constructor; simpl; intuition discriminate.
Qed.


(** ** C7: maintenance orders are passed on unchanged *)



(** ** ConstraintChecker: the scan for overlaps *)

Section OverlapScan.
Import ConstraintChecker.

Implicit Types (l : list WorkOrderDocument) (a b x y : WorkOrderDocument).

(** Two entries at different positions, as a sub-multiset. *)
Lemma pair_lookup l a b :
  [a; b] ⊆+ l <-> exists (i j : nat), i <> j /\ l !! i = Some a /\ l !! j = Some b.
Proof.
  split.
  - intros Hsub. apply submseteq_Permutation in Hsub as [k Hk].
    symmetry in Hk. apply Permutation_inj in Hk as (_ & f & Hinj & Hf).
    exists (f 0%nat), (f 1%nat). split; [|split].
    + intros Heq. apply Hinj in Heq. discriminate.
    + by rewrite <- Hf.
    + by rewrite <- Hf.
  - assert (Hlt : forall l a b (i j : nat), (i < j)%nat ->
              l !! i = Some a -> l !! j = Some b -> [a; b] ⊆+ l).
    { clear. induction l as [|x l IH]; intros a b i j Hij Hi Hj.
      - by rewrite lookup_nil in Hi.
      - destruct j as [|j]; [lia|]. destruct i as [|i]; simpl in *.
        + injection Hi as ->. apply submseteq_skip. apply singleton_submseteq_l.
          by eapply list_elem_of_lookup_2.
        + apply submseteq_cons. apply (IH a b i j); [lia|done|done]. }
    intros (i & j & Hij & Hi & Hj).
    destruct (decide (i < j)%nat); [by eapply Hlt|].
    transitivity [b; a]; [apply Permutation_submseteq, perm_swap|].
    apply (Hlt l b a j i); [lia|done|done].
Qed.

Lemma filter_submseteq_mono (P : WorkOrderDocument -> Prop)
    `{!forall x, Decision (P x)} l1 l2 :
  l1 ⊆+ l2 -> filter P l1 ⊆+ filter P l2.
Proof.
  induction 1 as [|x l1 l2 _ IH|x y l|x l1 l2 _ IH|l1 l2 l3 _ IH1 _ IH2].
  - done.
  - rewrite !filter_cons. destruct (decide (P x)); [by apply submseteq_skip|done].
  - rewrite !filter_cons. destruct (decide (P x)), (decide (P y)); try done.
    apply submseteq_swap.
  - rewrite filter_cons. destruct (decide (P x)); [by apply submseteq_cons|done].
  - by transitivity (filter P l2).
Qed.

Lemma filter_none (P : WorkOrderDocument -> Prop) `{!forall x, Decision (P x)} l :
  (forall x, x ∈ l -> ~ P x) -> filter P l = [].
Proof.
  induction l as [|x l IH]; intros Hn; [done|].
  rewrite filter_cons. destruct (decide (P x)) as [HP|_].
  - exfalso. by apply (Hn x); [left|].
  - apply IH. intros y Hy. apply Hn. by right.
Qed.

(** *** Grouping by work center *)

Lemma groupByWorkCenter_snoc l w :
  groupByWorkCenter (l ++ [w]) = groupStep (groupByWorkCenter l) w.
Proof. unfold groupByWorkCenter. by rewrite fold_left_app. Qed.

Lemma groupByWorkCenter_spec l :
  NoDup (omap_keys (groupByWorkCenter l))
  /\ (forall k orders, omap_get k (groupByWorkCenter l) = Some orders ->
        orders = filter (fun w => workCenterId w = k) l)
  /\ (forall w, w ∈ l -> workCenterId w ∈ omap_keys (groupByWorkCenter l)).
Proof.
  induction l as [|w l (IH1 & IH2 & IH3)] using rev_ind.
  - split; [constructor|]. split; [done|]. intros w H. by apply elem_of_nil in H.
  - rewrite groupByWorkCenter_snoc. unfold groupStep.
    assert (Hkeys : forall v, workCenterId w ∈
              omap_keys (omap_set (workCenterId w) v (groupByWorkCenter l)))
      by (intros v; apply omap_keys_set_elem; by left).
    assert (Hstep : forall v,
      (forall orders, omap_get (workCenterId w) (groupByWorkCenter l) = Some orders ->
         v = orders ++ [w]) ->
      (omap_get (workCenterId w) (groupByWorkCenter l) = None -> v = [w]) ->
      forall k orders,
        omap_get k (omap_set (workCenterId w) v (groupByWorkCenter l)) = Some orders ->
        orders = filter (fun w => workCenterId w = k) (l ++ [w])).
    { intros v Hsome Hnone k orders. rewrite filter_app, filter_cons, filter_nil.
      destruct (decide (workCenterId w = k)) as [<-|Hne].
      - rewrite omap_get_set_eq. intros [= <-].
        destruct (omap_get (workCenterId w) (groupByWorkCenter l)) as [old|] eqn:E.
        + rewrite (Hsome old eq_refl). by rewrite (IH2 _ _ E).
        + rewrite (Hnone eq_refl).
          replace (filter (fun w0 => workCenterId w0 = workCenterId w) l) with
            (@nil WorkOrderDocument); [done|].
          symmetry. apply filter_none. intros x Hx Heq.
          apply IH3 in Hx. rewrite Heq in Hx. by apply omap_get_None_keys in E.
      - rewrite omap_get_set_ne by done. rewrite app_nil_r. apply IH2. }
    destruct (omap_get (workCenterId w) (groupByWorkCenter l)) as [old|] eqn:E.
    + split; [by apply omap_keys_set_NoDup|]. split.
      * apply Hstep; [by intros ? [= <-]|done].
      * intros x Hx. apply omap_keys_set_elem.
        apply elem_of_app in Hx as [Hx|Hx]; [right; by apply IH3|].
        apply list_elem_of_singleton in Hx as ->. by left.
    + split; [by apply omap_keys_set_NoDup|]. split.
      * apply Hstep; [done|done].
      * intros x Hx. apply omap_keys_set_elem.
        apply elem_of_app in Hx as [Hx|Hx]; [right; by apply IH3|].
        apply list_elem_of_singleton in Hx as ->. by left.
Qed.

(** *** Sorting by start *)

Lemma insertByStart_perm x l : insertByStart x l ≡ₚ x :: l.
Proof.
  induction l as [|y l IH]; simpl; [done|].
  destruct (startDate x <=? startDate y); [done|].
  rewrite IH. apply perm_swap.
Qed.

Lemma sortByStart_perm l : sortByStart l ≡ₚ l.
Proof.
  induction l as [|x l IH]; simpl; [done|].
  rewrite insertByStart_perm. by rewrite IH.
Qed.

Lemma insertByStart_sorted x l :
  StronglySorted startLe l -> StronglySorted startLe (insertByStart x l).
Proof.
  induction 1 as [|y l Hs IH Hy]; simpl.
  - repeat constructor.
  - destruct (Z.leb_spec (startDate x) (startDate y)) as [Hle|Hgt].
    + constructor; [by constructor|]. constructor; [done|].
      eapply Forall_impl; [exact Hy|]. unfold startLe. intros z Hz. simpl in Hz. lia.
    + constructor; [done|]. rewrite insertByStart_perm. constructor; [|done].
      unfold startLe. lia.
Qed.

Lemma sortByStart_sorted l : StronglySorted startLe (sortByStart l).
Proof.
  induction l as [|x l IH]; simpl; [constructor|]. by apply insertByStart_sorted.
Qed.

(** *** The scan of one sorted work center *)

Lemma scanConsecutive_types sorted v :
  v ∈ scanConsecutive sorted -> v_type v = WORK_CENTER_OVERLAP.
Proof.
  induction sorted as [|x [|y sorted] IH]; simpl; try (intros H; by apply elem_of_nil in H).
  intros H. apply elem_of_app in H as [H|H]; [|by apply IH].
  destruct (timePeriodsOverlap _ _ _ _); [|by apply elem_of_nil in H].
  by apply list_elem_of_singleton in H as ->.
Qed.

Lemma timePeriodsOverlap_meet a b :
  timePeriodsOverlap (startDate a) (endDate a) (startDate b) (endDate b) = true
  <-> meet a b.
Proof.
  unfold timePeriodsOverlap, meet.
  rewrite andb_true_iff, Z.gtb_ltb, !Z.ltb_lt. tauto.
Qed.

(** A reported overlap is an overlap of two entries of the list. *)
Lemma scanConsecutive_sound sorted :
  scanConsecutive sorted <> [] -> exists a b, [a; b] ⊆+ sorted /\ meet a b.
Proof.
  induction sorted as [|x [|y sorted] IH]; simpl; try done.
  destruct (timePeriodsOverlap _ _ _ _) eqn:E; simpl.
  - intros _. exists x, y. split; [|by apply timePeriodsOverlap_meet].
    do 2 apply submseteq_skip. apply submseteq_nil_l.
  - intros H. destruct (IH H) as (a & b & Hsub & Hm). exists a, b.
    split; [by apply submseteq_cons|done].
Qed.

(** On a list sorted by start whose intervals are not empty, an overlap
    of any two entries shows between two consecutive ones. *)
Lemma scanConsecutive_complete sorted a b :
  StronglySorted startLe sorted ->
  (forall x, x ∈ sorted -> startDate x < endDate x) ->
  [a; b] ⊆+ sorted -> meet a b ->
  scanConsecutive sorted <> [].
Proof.
  intros Hs. revert a b. induction Hs as [|x sorted Hs IH Hx]; intros a b Hpos Hsub Hm.
  - by apply submseteq_nil_r in Hsub.
  - assert (Hpos' : forall z, z ∈ sorted -> startDate z < endDate z)
      by (intros z Hz; apply Hpos; by right).
    assert (Hhead : forall c, c ∈ sorted -> meet x c -> scanConsecutive (x :: sorted) <> []).
    { intros c Hc [Hc1 Hc2]. destruct sorted as [|y sorted]; [by apply elem_of_nil in Hc|].
      simpl.
      assert (Hy : startDate x <= startDate y)
        by (apply Forall_cons in Hx as [Hy _]; exact Hy).
      assert (Hyc : startDate y <= startDate c).
      { apply elem_of_cons in Hc as [->|Hc]; [lia|].
        apply StronglySorted_inv in Hs as [_ Hall].
        rewrite Forall_forall in Hall. by apply Hall. }
      pose proof (Hpos' y ltac:(left)) as Hyy.
      replace (timePeriodsOverlap (startDate x) (endDate x) (startDate y) (endDate y))
        with true; [done|].
      symmetry. apply timePeriodsOverlap_meet. unfold meet. lia. }
    apply submseteq_cons_r in Hsub as [Hsub|(l' & Hperm & Hsub)].
    + specialize (IH a b Hpos' Hsub Hm).
      destruct sorted as [|y sorted]; [done|]. simpl.
      intros Hnil. apply app_eq_nil in Hnil as [_ Hnil]. done.
    + assert (Hlen : length l' = 1%nat)
        by (apply Permutation_length in Hperm; simpl in Hperm; lia).
      destruct l' as [|c [|? ?]]; try done.
      apply singleton_submseteq_l in Hsub.
      assert (Hcases : (a = x /\ b = c) \/ (a = c /\ b = x)).
      { apply Permutation_length_2_inv in Hperm as [Heq|Heq]; injection Heq as -> ->; auto. }
      destruct Hcases as [[-> ->]|[-> ->]]; [by eapply Hhead|].
      eapply Hhead; [exact Hsub|]. destruct Hm. by split.
Qed.

(** *** The pass over all work centers *)

Lemma overlappingPair_alt l :
  overlappingPair l <->
  exists a b, [a; b] ⊆+ l /\ workCenterId a = workCenterId b /\ meet a b.
Proof.
  unfold overlappingPair, meet. split.
  - intros (i & j & wi & wj & Hij & Hi & Hj & Hsame & Hm). exists wi, wj.
    split; [|done]. apply pair_lookup. eauto.
  - intros (a & b & Hsub & Hsame & Hm). apply pair_lookup in Hsub as (i & j & ? & ? & ?).
    exists i, j, a, b. auto.
Qed.

Lemma checkWorkCenterConflicts_types l workCenterMap v :
  v ∈ checkWorkCenterConflicts l workCenterMap -> v_type v = WORK_CENTER_OVERLAP.
Proof.
  unfold checkWorkCenterConflicts. rewrite list_elem_of_In, in_flat_map.
  intros ([k orders] & _ & Hv). apply list_elem_of_In in Hv.
  by eapply scanConsecutive_types.
Qed.

(** The pass reports an overlap exactly when two orders of one work center
    overlap, provided that no order has an empty interval. *)
Lemma checkWorkCenterConflicts_spec l workCenterMap :
  (forall w, w ∈ l -> startDate w < endDate w) ->
  checkWorkCenterConflicts l workCenterMap <> [] <-> overlappingPair l.
Proof.
  intros Hpos. rewrite overlappingPair_alt.
  destruct (groupByWorkCenter_spec l) as (Hnd & Hgroup & Hall).
  unfold checkWorkCenterConflicts. split.
  - intros Hne.
    assert (Hex : exists k orders, (k, orders) ∈ groupByWorkCenter l
                   /\ scanConsecutive (sortByStart orders) <> []).
    { clear -Hne. induction (groupByWorkCenter l) as [|[k orders] m IH]; simpl in Hne; [done|].
      destruct (scanConsecutive (sortByStart orders)) eqn:E.
      - destruct IH as (k' & o' & Hin & Hs); [done|]. exists k', o'. split; [by right|done].
      - exists k, orders. split; [left|]. by rewrite E. }
    destruct Hex as (k & orders & Hin & Hscan).
    apply omap_elem_of_get in Hin; [|done]. apply Hgroup in Hin as ->.
    apply scanConsecutive_sound in Hscan as (a & b & Hsub & Hm).
    rewrite sortByStart_perm in Hsub. exists a, b. split; [|split; [|done]].
    + etransitivity; [exact Hsub|]. apply sublist_submseteq, sublist_filter.
    + assert (Ha : a ∈ filter (fun w => workCenterId w = k) l)
        by (eapply elem_of_submseteq; [|exact Hsub]; left).
      assert (Hb : b ∈ filter (fun w => workCenterId w = k) l)
        by (eapply elem_of_submseteq; [|exact Hsub]; right; left).
      apply list_elem_of_filter in Ha as [-> _]. by apply list_elem_of_filter in Hb as [-> _].
  - intros (a & b & Hsub & Hsame & Hm).
    assert (Ha : a ∈ l) by (eapply elem_of_submseteq; [|exact Hsub]; left).
    destruct (omap_keys_get _ _ (Hall a Ha)) as [orders Hget].
    pose proof (Hgroup _ _ Hget) as Horders.
    assert (Hscan : scanConsecutive (sortByStart orders) <> []).
    { apply (scanConsecutive_complete _ a b).
      - apply sortByStart_sorted.
      - intros x Hx. rewrite sortByStart_perm, Horders in Hx.
        apply list_elem_of_filter in Hx as [_ Hx]. by apply Hpos.
      - rewrite sortByStart_perm, Horders.
        apply (filter_submseteq_mono (fun w => workCenterId w = workCenterId a)) in Hsub.
        rewrite !filter_cons, filter_nil in Hsub.
        destruct (decide (workCenterId a = workCenterId a)); [|done].
        destruct (decide (workCenterId b = workCenterId a)); [done|congruence].
      - exact Hm. }
    apply omap_get_elem_of in Hget. clear -Hget Hscan.
    induction (groupByWorkCenter l) as [|[k' o'] m IH]; [by apply elem_of_nil in Hget|].
    simpl. intros Hnil. apply app_eq_nil in Hnil as [Hn1 Hn2].
    apply elem_of_cons in Hget as [[= <- <-]|Hget]; [done|by apply IH].
Qed.

End OverlapScan.

(** ** C5: [validate] and overlaps *)

Section Validate.
Import ConstraintChecker DependencyGraph.

Lemma buildEdges_ok workOrders g :
  (forall w p, w ∈ workOrders -> p ∈ dependsOnWorkOrderIds w ->
     p ∈ omap_keys (adjacencyList g)) ->
  exists g', buildEdges workOrders g = Ok g'.
Proof.
  revert g. induction workOrders as [|w ws IH]; intros g Hin; simpl; [by eexists|].
  destruct (addEdges_ok (docId w) (dependsOnWorkOrderIds w) (adjacencyList g))
    as [adj' Hadd]; [intros p Hp; apply (Hin w p); [left|done]|].
  rewrite Hadd. simpl. apply IH. simpl. intros w' p Hw' Hp.
  apply addEdges_spec in Hadd as (-> & _). apply (Hin w' p); [by right|done].
Qed.

(** The constructor succeeds when every dependency id exists. *)
Lemma buildGraph_ok workOrders :
  dependenciesExist workOrders -> exists g, buildGraph workOrders = Ok g.
Proof.
  intros Hdeps. unfold buildGraph. apply buildEdges_ok. intros w p Hw Hp.
  pose proof (initNodes_spec workOrders empty) as (I1 & _ & _ & I4 & _).
  simpl in I1. rewrite (I1 eq_refl). apply I4. right. eapply Hdeps; eauto.
Qed.

Lemma checkDependencies_ok workOrders g :
  buildGraph workOrders = Ok g ->
  exists vs, checkDependencies workOrders = Ok vs
             /\ forall v, v ∈ vs -> v_type v = DEPENDENCY_NOT_MET.
Proof.
  intros Hb. unfold checkDependencies. rewrite Hb. simpl.
  assert (H : forall l vs0,
    (forall w, w ∈ l -> w ∈ workOrders) ->
    (forall v, v ∈ vs0 -> v_type v = DEPENDENCY_NOT_MET) ->
    exists vs,
      fold_left
        (fun acc workOrder =>
           bind acc (fun violations =>
           bind (getParents g (docId workOrder)) (fun parents =>
           Ok (violations ++
               flat_map
                 (fun parent =>
                    if endDate parent >? startDate workOrder
                    then [mkViolation DEPENDENCY_NOT_MET (docId workOrder)
                            (Some (docId parent))]
                    else [])
                 parents))))
        l (Ok vs0) = Ok vs
      /\ forall v, v ∈ vs -> v_type v = DEPENDENCY_NOT_MET).
  { induction l as [|w l IH]; intros vs0 Hl Hvs0; simpl; [eauto|].
    unfold getParents at 2.
    destruct (omap_keys_get (docId w) (DependencyGraph.workOrders g)) as [w' Hw'].
    { apply (buildGraph_keys _ _ Hb). apply list_elem_of_fmap_2. apply Hl. left. }
    rewrite Hw'. simpl. apply IH; [intros x Hx; apply Hl; by right|].
    intros v Hv. apply elem_of_app in Hv as [Hv|Hv]; [by apply Hvs0|].
    apply list_elem_of_In, in_flat_map in Hv as (p & _ & Hv).
    destruct (endDate p >? startDate w); [|done].
    destruct Hv as [<-|[]]. done. }
  apply H; [done|]. intros v Hv. by apply elem_of_nil in Hv.
Qed.

Lemma checkShiftBoundaries_types workOrders workCenterMap v :
  v ∈ checkShiftBoundaries workOrders workCenterMap -> v_type v = OUTSIDE_SHIFT.
Proof.
  unfold checkShiftBoundaries. rewrite list_elem_of_In, in_flat_map.
  intros (w & _ & Hv). destruct (omap_get _ _) as [wc|]; [|done].
  apply in_app_or in Hv as [Hv|Hv];
    (destruct (negb _); [|done]); by destruct Hv as [<-|[]].
Qed.

Lemma checkMaintenanceConflicts_types workOrders workCenterMap v :
  v ∈ checkMaintenanceConflicts workOrders workCenterMap -> v_type v = DURING_MAINTENANCE.
Proof.
  unfold checkMaintenanceConflicts. rewrite list_elem_of_In, in_flat_map.
  intros (w & _ & Hv). destruct (omap_get _ _) as [wc|]; [|done].
  destruct (overlapsMaintenance _ _ _); [|done]. by destruct Hv as [<-|[]].
Qed.

End Validate.

(** [validate] returns a list exactly when every dependency id exists:
    its second pass constructs a [DependencyGraph], which raises on an id
    that no order has. *)
Lemma validate_returns_iff workOrders workCenters :
  (exists vs, ConstraintChecker.validate workOrders workCenters = Ok vs)
  <-> dependenciesExist workOrders.
Proof.
  split.
  - intros [vs Hv]. unfold ConstraintChecker.validate, ConstraintChecker.checkDependencies in Hv.
    destruct (DependencyGraph.buildGraph workOrders) as [g|] eqn:Hb; [|done].
    intros w p Hw Hp. eapply buildGraph_parents_exist; eauto.
  - intros Hdeps. destruct (buildGraph_ok _ Hdeps) as [g Hb].
    destruct (checkDependencies_ok _ _ Hb) as (v2 & Hv2 & _).
    unfold ConstraintChecker.validate. rewrite Hv2. simpl. by eexists.
Qed.

(** C5: for a list of work orders whose intervals are not empty, the list
    that [validate] returns has a violation of type WORK_CENTER_OVERLAP
    exactly when two orders at different positions are assigned to the same
    work center and overlap as half-open intervals: the scan of consecutive
    orders after sorting by start misses no overlap and reports no spurious
    one. [validate] returns a list whenever every dependency id of the
    list exists (it raises otherwise, see [validate_returns_iff]). *)
Theorem C5_validate_reports_overlap_iff
    (workOrders : list WorkOrderDocument) (workCenters : list WorkCenterDocument) :
  (forall w, w ∈ workOrders -> startDate w < endDate w) ->
  (ConstraintChecker.checkWorkCenterConflicts workOrders (workCenterMapOf workCenters) <> []
   <-> overlappingPair workOrders)
  /\ (forall vs, ConstraintChecker.validate workOrders workCenters = Ok vs ->
        (hasOverlapViolation vs <-> overlappingPair workOrders))
  /\ (dependenciesExist workOrders ->
      exists vs, ConstraintChecker.validate workOrders workCenters = Ok vs
                 /\ (hasOverlapViolation vs <-> overlappingPair workOrders)).
Proof.
  intros Hpos.
  pose proof (checkWorkCenterConflicts_spec workOrders (workCenterMapOf workCenters) Hpos)
    as Hscan.
  assert (Hret : forall vs, ConstraintChecker.validate workOrders workCenters = Ok vs ->
            (hasOverlapViolation vs <-> overlappingPair workOrders)).
  { intros vs Hv. rewrite <- Hscan.
    unfold ConstraintChecker.validate in Hv.
    destruct (ConstraintChecker.checkDependencies workOrders) as [v2|] eqn:Hv2; [|done].
    simpl in Hv. injection Hv as <-.
    assert (Htypes : forall v, v ∈ v2 -> v_type v = DEPENDENCY_NOT_MET).
    { unfold ConstraintChecker.checkDependencies in Hv2.
      destruct (DependencyGraph.buildGraph workOrders) as [g|] eqn:Hb; [|done].
      destruct (checkDependencies_ok _ _ Hb) as (v2' & Hv2' & Htypes).
      unfold ConstraintChecker.checkDependencies in Hv2'. rewrite Hb in Hv2'.
      rewrite Hv2 in Hv2'. by injection Hv2' as <-. }
    unfold hasOverlapViolation. split.
    - intros (v & Hv & Hty).
      repeat (apply elem_of_app in Hv as [Hv|Hv]).
      + intros Hnil. rewrite Hnil in Hv. by apply elem_of_nil in Hv.
      + apply Htypes in Hv. congruence.
      + apply checkShiftBoundaries_types in Hv. congruence.
      + apply checkMaintenanceConflicts_types in Hv. congruence.
    - intros Hne.
      destruct (ConstraintChecker.checkWorkCenterConflicts workOrders
                  (workCenterMapOf workCenters)) as [|v vs] eqn:E; [done|].
      exists v. split; [left|].
      apply (checkWorkCenterConflicts_types workOrders (workCenterMapOf workCenters)).
      rewrite E. left. }
  split; [exact Hscan|]. split; [exact Hret|].
  intros Hdeps. apply (validate_returns_iff workOrders workCenters) in Hdeps as [vs Hv].
  exists vs. split; [done|]. by apply Hret.
Qed.

(** C5 on two orders of one work center that overlap from 09:00 to 10:00:
    [validate] returns a list, and it reports the overlap. *)
Lemma C5_witness :
  exists vs,
    ConstraintChecker.validate Examples.overlapping [Examples.line1] = Ok vs
    /\ hasOverlapViolation vs /\ overlappingPair Examples.overlapping.
Proof.
  destruct (C5_validate_reports_overlap_iff Examples.overlapping [Examples.line1])
    as (_ & Hret & _).
  - intros w Hw. unfold Examples.overlapping in Hw.
    repeat (apply elem_of_cons in Hw as [->|Hw]); [vm_compute; reflexivity..|].
    by apply elem_of_nil in Hw.
  - eexists. split; [vm_compute; reflexivity|].
    assert (Hpair : overlappingPair Examples.overlapping).
    { exists 0%nat, 1%nat. do 2 eexists.
      split; [lia|]. split; [reflexivity|]. split; [reflexivity|].
      split; [reflexivity|]. split; vm_compute; reflexivity. }
    split; [|exact Hpair]. eapply Hret; [vm_compute; reflexivity|exact Hpair].
Defined.

(** ** C6: failures of [reflow] *)

Section Failures.

Lemma NoDup_split_unique (l1 l2 k1 k2 : list string) x :
  NoDup (l1 ++ x :: l2) -> l1 ++ x :: l2 = k1 ++ x :: k2 -> l1 = k1.
Proof.
  revert k1. induction l1 as [|y l1 IH]; intros k1 Hnd Heq.
  - destruct k1 as [|z k1]; [done|]. simpl in *. injection Heq as <- ->.
    apply NoDup_cons in Hnd as [Hx _]. exfalso. apply Hx.
    apply elem_of_app. right. left.
  - destruct k1 as [|z k1]; simpl in *.
    + injection Heq as -> <-. apply NoDup_cons in Hnd as [Hx _]. exfalso. apply Hx.
      apply elem_of_app. right. left.
    + injection Heq as <- Heq. apply NoDup_cons in Hnd as [_ Hnd]. f_equal. by apply IH.
Qed.

(** An order of the ids in which every id comes after the ids it depends
    on excludes cycles. *)
Lemma parentsFirst_acyclic workOrders ids :
  NoDup ids ->
  (forall w, w ∈ workOrders -> docId w ∈ ids) ->
  parentsFirst workOrders ids ->
  acyclic workOrders.
Proof.
  intros Hnd Hall Hfirst.
  assert (H : forall x y, tc (dependsOn workOrders) x y ->
            exists l1 l2, ids = l1 ++ x :: l2 /\ y ∈ l1).
  { induction 1 as [x y Hxy|x y z Hxy _ (k1 & k2 & Hk & Hz)].
    - assert (Hx : x ∈ ids) by (destruct Hxy as (w & Hw & <- & _); by apply Hall).
      apply list_elem_of_split in Hx as (l1 & l2 & Hsplit).
      exists l1, l2. split; [done|]. eapply Hfirst; eauto.
    - assert (Hx : x ∈ ids) by (destruct Hxy as (w & Hw & <- & _); by apply Hall).
      apply list_elem_of_split in Hx as (l1 & l2 & Hsplit).
      exists l1, l2. split; [done|].
      assert (Hy : y ∈ l1) by (eapply Hfirst; eauto).
      apply list_elem_of_split in Hy as (a & b & ->).
      assert (k1 = a).
      { symmetry. apply (NoDup_split_unique a (b ++ x :: l2) k1 k2 y).
        - rewrite Hsplit in Hnd. by rewrite <- app_assoc in Hnd.
        - rewrite <- Hk, Hsplit. by rewrite <- app_assoc. }
      subst k1. apply elem_of_app. by left. }
  intros x Hx. apply H in Hx as (l1 & l2 & -> & Hx).
  apply NoDup_app in Hnd as (_ & Hd & _). apply (Hd x Hx). left.
Qed.



End Failures.



Example missingCenter_message :
  violations (reflow Examples.mondayMorning Examples.missingCenter)
  = [MsgError (WorkCenterNotFound "wc-9")].
Proof. vm_compute. reflexivity. Qed.


(** ** DependencyGraph: the order of Kahn's algorithm is stable

    Sorting the output of [topologicalSort] again returns it as it is:
    the second run dequeues the same ids in the same order. *)

Section Sublists.

Lemma filter_ext_elem (P1 P2 : string -> Prop)
    `{!forall x, Decision (P1 x), !forall x, Decision (P2 x)} (l : list string) :
  (forall x, x ∈ l -> P1 x <-> P2 x) -> filter P1 l = filter P2 l.
Proof.
  induction l as [|a l IH]; intros Hiff; [done|].
  rewrite !filter_cons.
  assert (Ha : P1 a <-> P2 a) by (apply Hiff; left).
  rewrite IH by (intros x Hx; apply Hiff; by right).
  destruct (decide (P1 a)), (decide (P2 a)); tauto.
Qed.

(** A subsequence of a list without repetition is what [filter] keeps of
    that list, so it is determined by its elements. *)
Lemma sublist_as_filter (L l : list string) :
  NoDup L -> l `sublist_of` L -> l = filter (fun x => x ∈ l) L.
Proof.
  intros Hnd Hsub. induction Hsub as [|x l1 l2 Hsub IH|x l1 l2 Hsub IH].
  - done.
  - apply NoDup_cons in Hnd as [Hx Hnd].
    rewrite filter_cons. destruct (decide (x ∈ x :: l1)) as [_|Hn]; [|exfalso; apply Hn; left].
    f_equal. rewrite (IH Hnd) at 1. apply filter_ext_elem. intros y Hy.
    rewrite elem_of_cons. split; [by right|]. intros [->|Hy']; done.
  - apply NoDup_cons in Hnd as [Hx Hnd].
    rewrite filter_cons. destruct (decide (x ∈ l1)) as [Hin|_]; [|by apply IH].
    exfalso. apply Hx. eapply sublist_subseteq; eauto.
Qed.

Lemma sublist_unique (L l1 l2 : list string) :
  NoDup L -> l1 `sublist_of` L -> l2 `sublist_of` L ->
  (forall x, x ∈ l1 <-> x ∈ l2) -> l1 = l2.
Proof.
  intros Hnd H1 H2 Hiff.
  transitivity (filter (fun x => x ∈ l1) L); [by apply sublist_as_filter|].
  transitivity (filter (fun x => x ∈ l2) L); [|symmetry; by apply sublist_as_filter].
  apply filter_ext_elem. intros x _. apply Hiff.
Qed.


End Sublists.

Section KahnStable.
Import DependencyGraph.


Variables g1 g2 : DependencyGraph.t.
Variable L : list string.
Hypothesis Hwf1 : graph_wf g1.
Hypothesis Hwf2 : graph_wf g2.
Hypothesis HL : NoDup L.
Hypothesis Hsame : forall n c, c ∈ neighbors g1 n <-> c ∈ neighbors g2 n.
Hypothesis Hsub : forall n, neighbors g2 n `sublist_of` L.



End KahnStable.

(** ** ReflowService: a second run on the result of the first *)

Section ChildrenOrder.

(** With ids that identify the orders, the children of a parent are
    stored in the order of the list. *)
Lemma childrenOf_sublist workOrders p :
  forall init,
    NoDup (map docId workOrders) ->
    (forall x, x ∈ init -> x ∉ map docId workOrders) ->
    exists tail, childrenOf workOrders p init = init ++ tail
                 /\ tail `sublist_of` map docId workOrders.
Proof.
  induction workOrders as [|w ws IH]; intros init Hnd Hinit.
  - exists []. unfold childrenOf. simpl. by rewrite app_nil_r.
  - rewrite childrenOf_cons. simpl in Hnd. apply NoDup_cons in Hnd as [Hw Hnd].
    destruct (mem p (dependsOnWorkOrderIds w)).
    + destruct (IH (oset_add (docId w) init) Hnd) as (tail & -> & Htail).
      { intros x Hx. apply oset_add_elem in Hx as [->|Hx]; [done|].
        apply Hinit in Hx. simpl in Hx. by apply not_elem_of_cons in Hx as [_ ?]. }
      unfold oset_add. destruct (mem_spec (docId w) init) as [Hin|_].
      * exfalso. apply (Hinit _ Hin). left.
      * exists (docId w :: tail). rewrite <- app_assoc. split; [done|]. simpl.
        by apply sublist_skip.
    + destruct (IH init Hnd) as (tail & -> & Htail).
      { intros x Hx. apply Hinit in Hx. simpl in Hx.
        by apply not_elem_of_cons in Hx as [_ ?]. }
      exists tail. split; [done|]. simpl. by apply sublist_cons.
Qed.

Lemma buildGraph_neighbors_sublist workOrders g p :
  uniqueIds workOrders ->
  DependencyGraph.buildGraph workOrders = Ok g ->
  DependencyGraph.neighbors g p `sublist_of` map docId workOrders.
Proof.
  intros Hunique Hb. unfold DependencyGraph.buildGraph in Hb.
  pose proof (initNodes_spec workOrders DependencyGraph.empty) as (_ & _ & _ & _ & I5).
  simpl in I5.
  assert (I5' := I5 (fun p cs (H : None = Some cs) => ltac:(discriminate))). clear I5.
  apply buildEdges_spec in Hb as (_ & _ & _ & Hget).
  unfold DependencyGraph.neighbors. rewrite Hget.
  destruct (omap_get p _) as [cs0|] eqn:E; simpl; [|apply sublist_nil_l].
  apply I5' in E as ->.
  destruct (childrenOf_sublist workOrders p [] Hunique) as (tail & -> & Htail); [|done].
  intros x Hx. by apply elem_of_nil in Hx.
Qed.

End ChildrenOrder.

Section SecondRun.
Import DependencyGraph.

Variable workOrders : list WorkOrderDocument.
Variable g1 : DependencyGraph.t.
Variables ordered us : list WorkOrderDocument.
Hypothesis Hunique : uniqueIds workOrders.
Hypothesis Hbuild : buildGraph workOrders = Ok g1.
Hypothesis Hsort : topologicalSort g1 = Ok ordered.
Hypothesis Hupd : Forall2 updates ordered us.

Lemma ordered_complete w : w ∈ workOrders -> w ∈ ordered.
Proof.
  intros Hw.
  pose proof (topologicalSort_Ok _ _ Hunique Hbuild _ Hsort) as (Hperm & _ & Hin).
  assert (Hid : docId w ∈ map docId ordered)
    by (rewrite Hperm; by apply list_elem_of_fmap_2).
  apply list_elem_of_fmap in Hid as (w' & Heq & Hw').
  replace w with w'; [done|].
  symmetry. apply (uniqueIds_inj _ Hunique); auto.
Qed.

Lemma us_ids : map docId us = map docId ordered.
Proof. by apply Forall2_updates_ids. Qed.

Lemma us_ids_perm : map docId us ≡ₚ map docId workOrders.
Proof.
  rewrite us_ids. by destruct (topologicalSort_Ok _ _ Hunique Hbuild _ Hsort) as (? & _).
Qed.

Lemma us_unique : uniqueIds us.
Proof. unfold uniqueIds. rewrite us_ids_perm. exact Hunique. Qed.

(** An updated order and the input order it comes from. *)
Lemma us_origin u : u ∈ us -> exists w, w ∈ workOrders /\ updates w u.
Proof.
  intros Hu. apply list_elem_of_lookup in Hu as [i Hi].
  destruct (Forall2_lookup_r _ _ _ _ _ Hupd Hi) as (w & Hw & Hwu).
  exists w. split; [|done].
  destruct (topologicalSort_Ok _ _ Hunique Hbuild _ Hsort) as (_ & _ & Hin).
  apply Hin. by eapply list_elem_of_lookup_2.
Qed.

Lemma us_image w : w ∈ workOrders -> exists u, u ∈ us /\ updates w u.
Proof.
  intros Hw. apply ordered_complete in Hw. apply list_elem_of_lookup in Hw as [i Hi].
  destruct (Forall2_lookup_l _ _ _ _ _ Hupd Hi) as (u & Hu & Hwu).
  exists u. split; [by eapply list_elem_of_lookup_2|done].
Qed.





Variable g2 : DependencyGraph.t.
Hypothesis Hbuild2 : buildGraph us = Ok g2.






End SecondRun.

Section Rerun.

Variable now : Z.
Let clock : nat -> Z := fun _ => now.



Lemma getParents_ids workOrders g w :
  uniqueIds workOrders -> DependencyGraph.buildGraph workOrders = Ok g ->
  w ∈ workOrders ->
  exists ps, DependencyGraph.getParents g (docId w) = Ok ps
             /\ map docId ps = dependsOnWorkOrderIds w.
Proof.
  intros Hunique Hb Hw. unfold DependencyGraph.getParents.
  rewrite (buildGraph_get _ _ Hunique Hb w Hw). eexists. split; [done|].
  apply (lookupAll_keys _ _ Hunique Hb). intros x Hx.
  apply (buildGraph_keys _ _ Hb). eapply buildGraph_parents_exist; eauto.
Qed.

Lemma withDates_idemp w s e : withDates (withDates w s e) s e = withDates w s e.
Proof. reflexivity. Qed.


Variable workOrders : list WorkOrderDocument.
Variables g1 g2 : DependencyGraph.t.
Variables ordered us : list WorkOrderDocument.
Variable workCenterMap : list (string * WorkCenterDocument).
Hypothesis Hunique : uniqueIds workOrders.
Hypothesis Hbuild : DependencyGraph.buildGraph workOrders = Ok g1.
Hypothesis Hsort : DependencyGraph.topologicalSort g1 = Ok ordered.
Hypothesis Hupd : Forall2 updates ordered us.
Hypothesis Hbuild2 : DependencyGraph.buildGraph us = Ok g2.


End Rerun.

(** ** C8: idempotence *)



(* ================================================================== *)
(** * Further properties of the components *)
(* ================================================================== *)

(** ** DateUtils: shifts as intervals of instants *)

Section ShiftIntervals.

Lemma hour_ge_iff x h : (x / msPerHour >=? h) = (h * msPerHour <=? x).
Proof.
  unfold msPerHour. rewrite Z.geb_leb.
  pose proof (Z.div_mod x 3600000). pose proof (Z.mod_pos_bound x 3600000).
  destruct (Z.leb_spec h (x / 3600000)), (Z.leb_spec (h * 3600000) x); try done; nia.
Qed.

Lemma hour_lt_iff x h : (x / msPerHour <? h) = (x <? h * msPerHour).
Proof.
  unfold msPerHour.
  pose proof (Z.div_mod x 3600000). pose proof (Z.mod_pos_bound x 3600000).
  destruct (Z.ltb_spec (x / 3600000) h), (Z.ltb_spec x (h * 3600000)); try done; nia.
Qed.

Lemma isDuringShift_interval date shifts shift :
  getShiftForDay (weekday date) shifts = Some shift ->
  isDuringShift date shifts
  = (setHour date (startHour shift) <=? date) && (date <? setHour date (endHour shift)).
Proof.
  intros Hs. unfold isDuringShift. rewrite Hs. cbn zeta. unfold hourOf.
  rewrite hour_ge_iff, hour_lt_iff. unfold setHour, startOfDay.
  f_equal.
  - destruct (Z.leb_spec (startHour shift * msPerHour) (date mod msPerDay)),
      (Z.leb_spec (date - date mod msPerDay + startHour shift * msPerHour) date);
      try done; lia.
  - destruct (Z.ltb_spec (date mod msPerDay) (endHour shift * msPerHour)),
      (Z.ltb_spec date (date - date mod msPerDay + endHour shift * msPerHour));
      try done; lia.
Qed.

End ShiftIntervals.

(** X1: [isDuringShift], which compares the hour of the instant with the
    hours of the shift, holds exactly for the instants from the start of
    the shift of their day up to, and without, its end; an instant on a
    day without shift is never during a shift. *)
Theorem isDuringShift_iff_within_shift (date : Z) (shifts : list Shift) :
  isDuringShift date shifts = true
  <-> exists shift,
        getShiftForDay (weekday date) shifts = Some shift
        /\ setHour date (startHour shift) <= date < setHour date (endHour shift).
Proof.
  destruct (getShiftForDay (weekday date) shifts) as [shift|] eqn:Hs.
  - rewrite (isDuringShift_interval _ _ _ Hs), andb_true_iff, Z.leb_le, Z.ltb_lt.
    split.
    + intros H. by exists shift.
    + by intros (shift' & [= <-] & H).
  - unfold isDuringShift. rewrite Hs. split; [done|]. by intros (shift & ? & _).
Qed.

(** ** DateUtils: the end of a work segment *)

Section EffectiveShiftEnd.

Variables shiftStart shiftEnd : Z.

(** One iteration of the loop of [getEffectiveShiftEnd]. *)
Lemma getEffectiveShiftEnd_fold windows : forall acc,
  let e := fold_left
    (fun effectiveEnd window =>
       if (mw_startDate window <? shiftEnd) && (mw_endDate window >? shiftStart) then
         if (mw_startDate window >? shiftStart) && (mw_startDate window <? effectiveEnd)
         then mw_startDate window
         else effectiveEnd
       else effectiveEnd) windows acc in
  acc <= shiftEnd ->
  e <= acc
  /\ (shiftStart < acc -> shiftStart < e)
  /\ (e = acc
      \/ exists window, window ∈ windows /\ e = mw_startDate window
           /\ shiftStart < mw_startDate window < shiftEnd
           /\ shiftStart < mw_endDate window)
  /\ (forall window, window ∈ windows ->
        shiftStart < mw_startDate window -> shiftStart < mw_endDate window ->
        e <= mw_startDate window).
Proof.
  induction windows as [|w windows IH]; intros acc e Hacc.
  - subst e. simpl. split; [lia|]. split; [done|]. split; [by left|].
    intros window Hin. by apply elem_of_nil in Hin.
  - subst e. cbn [fold_left].
    set (acc' := if (mw_startDate w <? shiftEnd) && (mw_endDate w >? shiftStart) then
                   if (mw_startDate w >? shiftStart) && (mw_startDate w <? acc)
                   then mw_startDate w else acc
                 else acc).
    assert (Hacc' : acc' <= acc
              /\ (shiftStart < acc -> shiftStart < acc')
              /\ (acc' = acc \/ (acc' = mw_startDate w
                                 /\ shiftStart < mw_startDate w < shiftEnd
                                 /\ shiftStart < mw_endDate w))
              /\ (shiftStart < mw_startDate w -> shiftStart < mw_endDate w ->
                  acc' <= mw_startDate w)).
    { subst acc'. rewrite !Z.gtb_ltb.
      destruct (Z.ltb_spec (mw_startDate w) shiftEnd),
        (Z.ltb_spec shiftStart (mw_endDate w)),
        (Z.ltb_spec shiftStart (mw_startDate w)),
        (Z.ltb_spec (mw_startDate w) acc); cbn [andb]; lia. }
    destruct Hacc' as (Hle & Hgt & Hor & Hw).
    destruct (IH acc' ltac:(lia)) as (IH1 & IH2 & IH3 & IH4).
    split; [lia|]. split; [auto|]. split.
    + destruct IH3 as [->|(window & Hin & He & Hb)].
      * destruct Hor as [->|(He & Hb)]; [by left|].
        right. exists w. split; [apply elem_of_cons; by left|done].
      * right. exists window. split; [apply elem_of_cons; by right|done].
    + intros window Hin H1 H2. apply elem_of_cons in Hin as [->|Hin].
      * specialize (Hw H1 H2). lia.
      * by apply IH4.
Qed.

Lemma getEffectiveShiftEnd_le windows :
  getEffectiveShiftEnd shiftStart shiftEnd windows <= shiftEnd.
Proof.
  unfold getEffectiveShiftEnd.
  by destruct (getEffectiveShiftEnd_fold windows shiftEnd ltac:(lia)) as (H & _).
Qed.

End EffectiveShiftEnd.

(** X2: [getEffectiveShiftEnd] returns the end of the shift or, when it is
    earlier, the earliest start of a maintenance window that starts
    strictly inside the segment from the work start to the end of the
    shift: no such window starts before the returned instant. A window
    that has started at or before the work start is not taken into
    account. *)
Theorem getEffectiveShiftEnd_earliest_window_start
    (shiftStart shiftEnd : Z) (windows : list MaintenanceWindow) :
  let effectiveEnd := getEffectiveShiftEnd shiftStart shiftEnd windows in
  effectiveEnd <= shiftEnd
  /\ (effectiveEnd = shiftEnd
      \/ exists window, window ∈ windows /\ effectiveEnd = mw_startDate window
           /\ shiftStart < mw_startDate window < shiftEnd
           /\ shiftStart < mw_endDate window)
  /\ (forall window, window ∈ windows ->
        shiftStart < mw_startDate window -> shiftStart < mw_endDate window ->
        effectiveEnd <= mw_startDate window)
  /\ ((forall window, window ∈ windows -> mw_startDate window <= shiftStart) ->
      effectiveEnd = shiftEnd).
Proof.
  intros effectiveEnd. subst effectiveEnd. unfold getEffectiveShiftEnd.
  destruct (getEffectiveShiftEnd_fold shiftStart shiftEnd windows shiftEnd ltac:(lia))
    as (H1 & _ & H3 & H4).
  split; [done|]. split; [done|]. split; [done|].
  intros Hbefore. destruct H3 as [->|(window & Hin & _ & Hb & _)]; [done|].
  specialize (Hbefore window Hin). lia.
Qed.

(** ** DateUtils: [calculateEndDate] *)

Section EndDate.

Variable shifts : list Shift.
Variable windows : list MaintenanceWindow.

Lemma nextDayStart_startOfDay dt : nextDayStart dt = startOfDay dt + msPerDay.
Proof. rewrite nextDayStart_dayOf, startOfDay_dayOf. lia. Qed.

Lemma startOfDay_nextDayStart dt : startOfDay (nextDayStart dt) = nextDayStart dt.
Proof.
  rewrite startOfDay_dayOf, nextDayStart_dayOf, dayOf_midnight. reflexivity.
Qed.

(** The counter of the days that are left only goes down. *)
Lemma calculateEndDate_loop_daysLeft n : forall currentDate remaining,
  (snd (calculateEndDate_loop n currentDate remaining shifts windows) <= n)%nat.
Proof.
  induction n as [|n IH]; intros currentDate remaining.
  - simpl. destruct (remaining <=? 0); simpl; lia.
  - rewrite calculateEndDate_loop_S. cbn zeta.
    destruct (remaining <=? 0); [simpl; lia|].
    repeat case_match;
      match goal with
      | |- (snd (calculateEndDate_loop n ?c ?r _ _) <= _)%nat =>
          specialize (IH c r); lia
      end.
Qed.

(** A table without a shift that ends after it starts never lets work
    advance. *)
Lemma calculateEndDate_loop_no_shift n :
  (forall shift, shift ∈ shifts -> endHour shift <= startHour shift) ->
  forall currentDate remaining, 0 < remaining ->
    snd (calculateEndDate_loop n currentDate remaining shifts windows) = 0%nat.
Proof.
  intros Hempty. induction n as [|n IH]; intros currentDate remaining Hrem.
  - simpl. by destruct (remaining <=? 0).
  - rewrite calculateEndDate_loop_S. cbn zeta.
    destruct (Z.leb_spec remaining 0); [lia|].
    destruct (getShiftForDay (weekday currentDate) shifts) as [shift|] eqn:Hs;
      [|by apply IH].
    apply getShiftForDay_elem, Hempty in Hs.
    assert (Hskip : setHour currentDate (endHour shift)
                    <= (if currentDate >? setHour currentDate (startHour shift)
                        then currentDate else setHour currentDate (startHour shift))).
    { unfold setHour, msPerHour.
      destruct (Z.gtb_spec currentDate (startOfDay currentDate + startHour shift * 3600000));
        lia. }
    rewrite Z.geb_leb. rewrite (proj2 (Z.leb_le _ _) Hskip). by apply IH.
Qed.

Hypothesis Hhours : forall shift, shift ∈ shifts -> endHour shift <= 24.

(** What one iteration has at hand on a day with a shift. *)
Lemma segment_bounds currentDate shift :
  getShiftForDay (weekday currentDate) shifts = Some shift ->
  let workStart := if currentDate >? setHour currentDate (startHour shift)
                   then currentDate else setHour currentDate (startHour shift) in
  currentDate <= workStart
  /\ getEffectiveShiftEnd workStart (setHour currentDate (endHour shift)) windows
     <= nextDayStart currentDate.
Proof.
  intros Hs workStart. apply getShiftForDay_elem, Hhours in Hs. split.
  - subst workStart.
    destruct (Z.gtb_spec currentDate (setHour currentDate (startHour shift))); lia.
  - pose proof (getEffectiveShiftEnd_le workStart (setHour currentDate (endHour shift))
                  windows) as Hle.
    rewrite nextDayStart_startOfDay. unfold setHour, msPerHour, msPerDay in *. lia.
Qed.

(** When the loop ends with days left, the instant it returns is at least
    the remaining time after the instant it started from. *)
Lemma calculateEndDate_loop_elapsed n : forall currentDate remaining r k,
  calculateEndDate_loop n currentDate remaining shifts windows = (r, S k) ->
  currentDate + remaining <= r.
Proof.
  induction n as [|n IH]; intros currentDate remaining r k.
  - simpl. by destruct (remaining <=? 0).
  - rewrite calculateEndDate_loop_S. cbn zeta.
    destruct (Z.leb_spec remaining 0); [intros [= <- ?]; lia|].
    pose proof (nextDayStart_gt currentDate) as Hnext.
    destruct (getShiftForDay (weekday currentDate) shifts) as [shift|] eqn:Hs;
      [|intros Hr; apply IH in Hr; lia].
    destruct (segment_bounds currentDate shift Hs) as [Hws Heff].
    set (workStart := if currentDate >? setHour currentDate (startHour shift)
                      then currentDate else setHour currentDate (startHour shift)) in *.
    set (effectiveEnd := getEffectiveShiftEnd workStart
                           (setHour currentDate (endHour shift)) windows) in *.
    destruct (workStart >=? setHour currentDate (endHour shift));
      [intros Hr; apply IH in Hr; lia|].
    destruct (Z.leb_spec (effectiveEnd - workStart) 0);
      [intros Hr; apply IH in Hr; lia|].
    destruct (Z.gtb_spec (remaining - Z.min remaining (effectiveEnd - workStart)) 0);
      intros Hr; apply IH in Hr; lia.
Qed.

(** When the loop ends with days left, the instant it returns is no later
    than the end of the last day it went through. *)
Lemma calculateEndDate_loop_horizon n : forall currentDate remaining r k,
  calculateEndDate_loop n currentDate remaining shifts windows = (r, S k) ->
  r <= Z.max currentDate
         (startOfDay currentDate + (Z.of_nat n - Z.of_nat (S k)) * msPerDay).
Proof.
  induction n as [|n IH]; intros currentDate remaining r k.
  - simpl. by destruct (remaining <=? 0).
  - intros Hr.
    pose proof (calculateEndDate_loop_daysLeft (S n) currentDate remaining) as Hk.
    rewrite Hr in Hk. simpl in Hk. revert Hr.
    rewrite calculateEndDate_loop_S. cbn zeta.
    destruct (Z.leb_spec remaining 0); [intros [= <- ?]; lia|].
    assert (Hskip : forall rem',
              calculateEndDate_loop n (nextDayStart currentDate) rem' shifts windows
              = (r, S k) ->
              r <= Z.max currentDate
                     (startOfDay currentDate
                      + (Z.of_nat (S n) - Z.of_nat (S k)) * msPerDay)).
    { intros rem' Hr.
      pose proof (calculateEndDate_loop_daysLeft n (nextDayStart currentDate) rem') as Hk'.
      rewrite Hr in Hk'. simpl in Hk'.
      apply IH in Hr. rewrite startOfDay_nextDayStart, nextDayStart_startOfDay in Hr.
      unfold msPerDay in *. lia. }
    destruct (getShiftForDay (weekday currentDate) shifts) as [shift|] eqn:Hs;
      [|apply Hskip].
    destruct (segment_bounds currentDate shift Hs) as [Hws Heff].
    set (workStart := if currentDate >? setHour currentDate (startHour shift)
                      then currentDate else setHour currentDate (startHour shift)) in *.
    set (effectiveEnd := getEffectiveShiftEnd workStart
                           (setHour currentDate (endHour shift)) windows) in *.
    destruct (workStart >=? setHour currentDate (endHour shift)); [apply Hskip|].
    destruct (Z.leb_spec (effectiveEnd - workStart) 0); [apply Hskip|].
    destruct (Z.gtb_spec (remaining - Z.min remaining (effectiveEnd - workStart)) 0);
      [apply Hskip|].
    rewrite calculateEndDate_loop_done by lia. intros [= <- <-].
    rewrite nextDayStart_startOfDay in Heff. unfold msPerDay in *. lia.
Qed.

End EndDate.

Lemma calculateEndDate_Ok_loop startDate durationMinutes shifts windows endDate :
  calculateEndDate startDate durationMinutes shifts windows = Ok endDate ->
  exists k,
    calculateEndDate_loop maxDays startDate (durationMinutes * msPerMinute) shifts windows
    = (endDate, S k).
Proof.
  unfold calculateEndDate.
  generalize (calculateEndDate_loop maxDays startDate (durationMinutes * msPerMinute)
                shifts windows).
  intros [r [|k]]; [done|]. intros [= <-]. by exists k.
Qed.

Lemma calculateEndDate_Err_loop startDate durationMinutes shifts windows :
  snd (calculateEndDate_loop maxDays startDate (durationMinutes * msPerMinute)
         shifts windows) = 0%nat ->
  calculateEndDate startDate durationMinutes shifts windows = Err CouldNotSchedule.
Proof.
  unfold calculateEndDate.
  generalize (calculateEndDate_loop maxDays startDate (durationMinutes * msPerMinute)
                shifts windows).
  intros [r k]. simpl. by intros ->.
Qed.

(** X3: the instant that [calculateEndDate] returns is never before the
    start, and, the shifts ending by hour 24, it leaves at least the
    duration between the start and the end. *)
Theorem calculateEndDate_leaves_duration
    (startDate durationMinutes : Z) (shifts : list Shift)
    (windows : list MaintenanceWindow) (endDate : Z) :
  (forall shift, shift ∈ shifts -> endHour shift <= 24) ->
  calculateEndDate startDate durationMinutes shifts windows = Ok endDate ->
  startDate <= endDate /\ startDate + durationMinutes * msPerMinute <= endDate.
Proof.
  intros Hhours Hend. split; [exact (calculateEndDate_ge _ _ _ _ _ Hend)|].
  destruct (calculateEndDate_Ok_loop _ _ _ _ _ Hend) as [k Hloop].
  exact (calculateEndDate_loop_elapsed shifts windows Hhours maxDays _ _ _ _ Hloop).
Qed.

Lemma weekShifts_hours shift :
  shift ∈ Examples.weekShifts ->
  1 <= startHour shift < endHour shift /\ endHour shift <= 24.
Proof.
  unfold Examples.weekShifts. intros H.
  repeat (apply elem_of_cons in H as [->|H]; [simpl; lia|]).
  by apply elem_of_nil in H.
Qed.

(** X3 on the order of 300 minutes that a maintenance window interrupts. *)
Lemma calculateEndDate_leaves_duration_witness :
  at_ 20103 8 0 <= at_ 20104 11 0
  /\ at_ 20103 8 0 + 300 * msPerMinute <= at_ 20104 11 0.
Proof.
  apply (calculateEndDate_leaves_duration (at_ 20103 8 0) 300 Examples.weekShifts
           [Examples.maintenance_10_14 20103]).
  - intros shift H. apply weekShifts_hours in H. lia.
  - vm_compute. reflexivity.
Defined.

(** X4: [calculateEndDate] returns the start itself for a duration that is
    not positive, whatever the shifts; for a positive duration it raises
    when no shift of the table ends after it starts (an empty table among
    them). *)
Theorem calculateEndDate_without_work_or_shift
    (startDate durationMinutes : Z) (shifts : list Shift)
    (windows : list MaintenanceWindow) :
  (durationMinutes <= 0 ->
   calculateEndDate startDate durationMinutes shifts windows = Ok startDate)
  /\ (0 < durationMinutes ->
      (forall shift, shift ∈ shifts -> endHour shift <= startHour shift) ->
      calculateEndDate startDate durationMinutes shifts windows = Err CouldNotSchedule).
Proof.
  split.
  - intros Hd. unfold calculateEndDate.
    rewrite calculateEndDate_loop_done by (unfold msPerMinute; lia). reflexivity.
  - intros Hd Hempty. apply calculateEndDate_Err_loop.
    apply calculateEndDate_loop_no_shift; [exact Hempty|]. unfold msPerMinute. lia.
Qed.

(** X5: an instant that [calculateEndDate] returns is at most 364 days
    after the midnight that starts the day of the start: the loop raises
    when it has gone through 365 days, also when the work was completed on
    the last of them. *)
Theorem calculateEndDate_within_364_days
    (startDate durationMinutes : Z) (shifts : list Shift)
    (windows : list MaintenanceWindow) (endDate : Z) :
  (forall shift, shift ∈ shifts -> endHour shift <= 24) ->
  calculateEndDate startDate durationMinutes shifts windows = Ok endDate ->
  endDate <= startOfDay startDate + 364 * msPerDay.
Proof.
  intros Hhours Hend.
  destruct (calculateEndDate_Ok_loop _ _ _ _ _ Hend) as [k Hloop].
  pose proof (calculateEndDate_loop_horizon shifts windows Hhours maxDays _ _ _ _ Hloop)
    as Hmax.
  pose proof (dayOf_bounds startDate) as Hday. rewrite startOfDay_dayOf in *.
  change (Z.of_nat maxDays) with 365 in Hmax. unfold msPerDay in *. lia.
Qed.

(** X5 on the order of 300 minutes that a maintenance window interrupts. *)
Lemma calculateEndDate_within_364_days_witness :
  at_ 20104 11 0 <= startOfDay (at_ 20103 8 0) + 364 * msPerDay.
Proof.
  apply (calculateEndDate_within_364_days (at_ 20103 8 0) 300 Examples.weekShifts
           [Examples.maintenance_10_14 20103]).
  - intros shift H. apply weekShifts_hours in H. lia.
  - vm_compute. reflexivity.
Defined.

(** ** DateUtils: the start of a work order *)

Section SameDay.

Lemma dayOf_setHour dt h : 0 <= h <= 23 -> dayOf (setHour dt h) = dayOf dt.
Proof.
  intros Hh. unfold setHour. rewrite startOfDay_dayOf. unfold dayOf, msPerDay, msPerHour.
  rewrite Z.add_comm, Z_div_plus_full by lia. rewrite Z.div_small; lia.
Qed.

Lemma weekday_same_day dt dt' : dayOf dt = dayOf dt' -> weekday dt = weekday dt'.
Proof. intros H. by rewrite (weekday_dayOf dt), (weekday_dayOf dt'), H. Qed.

Lemma setHour_same_day dt dt' h : dayOf dt = dayOf dt' -> setHour dt h = setHour dt' h.
Proof. intros H. unfold setHour. by rewrite !startOfDay_dayOf, H. Qed.

Lemma dayOf_between d t : d * msPerDay <= t < (d + 1) * msPerDay -> dayOf t = d.
Proof.
  intros H. unfold dayOf, msPerDay in *. symmetry.
  apply (Z.div_unique t 86400000 d (t - d * 86400000)); lia.
Qed.

Lemma findNextShiftStart_loop_shape n shifts : forall currentDate r,
  findNextShiftStart_loop n currentDate shifts = Ok r ->
  exists dt shift,
    getShiftForDay (weekday dt) shifts = Some shift /\ r = setHour dt (startHour shift).
Proof.
  induction n as [|n IH]; intros currentDate r; [done|]. simpl.
  destruct (getShiftForDay (weekday currentDate) shifts) as [shift|] eqn:Hs; [|apply IH].
  destruct (setHour currentDate (startHour shift) >? currentDate); [|apply IH].
  intros [= <-]. by exists currentDate, shift.
Qed.

Lemma findNextShiftStart_loop_S n currentDate shifts :
  findNextShiftStart_loop (S n) currentDate shifts =
  match getShiftForDay (weekday currentDate) shifts with
  | Some shift =>
    if setHour currentDate (startHour shift) >? currentDate
    then Ok (setHour currentDate (startHour shift))
    else findNextShiftStart_loop n (nextDayStart currentDate) shifts
  | None => findNextShiftStart_loop n (nextDayStart currentDate) shifts
  end.
Proof. reflexivity. Qed.

Lemma findNextShiftStart_shape fromDate shifts r :
  findNextShiftStart fromDate shifts = Ok r ->
  exists dt shift,
    getShiftForDay (weekday dt) shifts = Some shift /\ r = setHour dt (startHour shift).
Proof. apply findNextShiftStart_loop_shape. Qed.

End SameDay.

Section EarliestStart.

Variable shifts : list Shift.
Hypothesis Hshifts : forall shift, shift ∈ shifts ->
  0 <= startHour shift < endHour shift /\ startHour shift <= 23.

(** The start of the shift of a day is during that shift. *)
Lemma isDuringShift_shift_start dt shift :
  getShiftForDay (weekday dt) shifts = Some shift ->
  isDuringShift (setHour dt (startHour shift)) shifts = true.
Proof.
  intros Hs. pose proof (Hshifts _ (getShiftForDay_elem _ _ _ Hs)) as Hh.
  assert (Hday : dayOf (setHour dt (startHour shift)) = dayOf dt)
    by (apply dayOf_setHour; lia).
  rewrite (isDuringShift_interval _ _ shift)
    by (by rewrite (weekday_same_day _ dt Hday)).
  rewrite !(setHour_same_day _ dt _ Hday).
  apply andb_true_iff. rewrite Z.leb_le, Z.ltb_lt.
  unfold setHour, msPerHour. lia.
Qed.

Lemma getEarliestStartTime_during_shift parentEndTimes available r :
  getEarliestStartTime parentEndTimes available shifts = Ok r ->
  isDuringShift r shifts = true.
Proof.
  unfold getEarliestStartTime. cbn zeta.
  set (earliestPossible := if available >? _ then available else _).
  destruct (getShiftForDay (weekday earliestPossible) shifts) as [shift|] eqn:Hs.
  - destruct (Z.ltb_spec earliestPossible (setHour earliestPossible (startHour shift))).
    { intros [= <-]. by apply isDuringShift_shift_start. }
    destruct (Z.ltb_spec earliestPossible (setHour earliestPossible (endHour shift))).
    { intros [= <-]. rewrite (isDuringShift_interval _ _ _ Hs).
      apply andb_true_iff. rewrite Z.leb_le, Z.ltb_lt. lia. }
    intros Hr. apply findNextShiftStart_shape in Hr as (dt & shift' & Hs' & ->).
    by apply isDuringShift_shift_start.
  - intros Hr. apply findNextShiftStart_shape in Hr as (dt & shift' & Hs' & ->).
    by apply isDuringShift_shift_start.
Qed.

End EarliestStart.

Section EarliestStartMinimal.

Variable shifts : list Shift.
Hypothesis Hshifts : forall shift, shift ∈ shifts ->
  1 <= startHour shift < endHour shift /\ startHour shift <= 23.

(** From a midnight on, no instant before the shift start that the search
    returns is during a shift. *)
Lemma findNextShiftStart_loop_idle n : forall d r,
  findNextShiftStart_loop n (d * msPerDay) shifts = Ok r ->
  forall t, d * msPerDay <= t < r -> isDuringShift t shifts = false.
Proof.
  induction n as [|n IH]; intros d r; [done|]. simpl.
  rewrite nextDayStart_dayOf, dayOf_midnight.
  assert (Hnext : findNextShiftStart_loop n ((d + 1) * msPerDay) shifts = Ok r ->
            (forall t, dayOf t = d -> isDuringShift t shifts = false) ->
            forall t, d * msPerDay <= t < r -> isDuringShift t shifts = false).
  { intros Hr Htoday t Ht. destruct (Z.lt_ge_cases t ((d + 1) * msPerDay)).
    - apply Htoday, dayOf_between. lia.
    - apply (IH _ _ Hr). lia. }
  destruct (getShiftForDay (weekday (d * msPerDay)) shifts) as [shift|] eqn:Hs.
  - pose proof (Hshifts _ (getShiftForDay_elem _ _ _ Hs)) as Hh.
    assert (Hstart : setHour (d * msPerDay) (startHour shift)
                     = d * msPerDay + startHour shift * msPerHour)
      by (unfold setHour; by rewrite startOfDay_dayOf, dayOf_midnight).
    rewrite Hstart.
    destruct (Z.gtb_spec (d * msPerDay + startHour shift * msPerHour) (d * msPerDay));
      [|unfold msPerHour in *; lia].
    intros [= <-] t Ht.
    assert (Hday : dayOf t = dayOf (d * msPerDay)).
    { rewrite dayOf_midnight. apply dayOf_between. unfold msPerDay, msPerHour in *. lia. }
    rewrite (isDuringShift_interval _ _ shift)
      by (by rewrite (weekday_same_day _ _ Hday)).
    rewrite (setHour_same_day _ _ _ Hday), Hstart.
    apply andb_false_iff. left. apply Z.leb_gt. lia.
  - intros Hr. apply Hnext; [done|]. intros t Ht. unfold isDuringShift.
    rewrite (weekday_same_day t (d * msPerDay)) by (by rewrite dayOf_midnight).
    by rewrite Hs.
Qed.

(** The same from an instant whose day has no shift, or whose shift has
    ended. *)
Lemma findNextShiftStart_idle fromDate r :
  match getShiftForDay (weekday fromDate) shifts with
  | Some shift => setHour fromDate (endHour shift) <= fromDate
  | None => True
  end ->
  findNextShiftStart fromDate shifts = Ok r ->
  forall t, fromDate <= t < r -> isDuringShift t shifts = false.
Proof.
  intros Htoday. unfold findNextShiftStart.
  rewrite (findNextShiftStart_loop_S 29 fromDate shifts), nextDayStart_dayOf.
  pose proof (dayOf_bounds fromDate) as Hb.
  assert (Hrest : forall t, fromDate <= t < (dayOf fromDate + 1) * msPerDay ->
                    isDuringShift t shifts = false).
  { intros t Ht. assert (Hday : dayOf t = dayOf fromDate) by (apply dayOf_between; lia).
    destruct (getShiftForDay (weekday fromDate) shifts) as [shift|] eqn:Hs.
    - rewrite (isDuringShift_interval _ _ shift)
        by (by rewrite (weekday_same_day _ _ Hday)).
      rewrite !(setHour_same_day _ _ _ Hday).
      apply andb_false_iff. right. apply Z.ltb_ge. lia.
    - unfold isDuringShift. by rewrite (weekday_same_day _ _ Hday), Hs. }
  assert (Hnext : findNextShiftStart_loop 29 ((dayOf fromDate + 1) * msPerDay) shifts = Ok r ->
            forall t, fromDate <= t < r -> isDuringShift t shifts = false).
  { intros Hr t Ht. destruct (Z.lt_ge_cases t ((dayOf fromDate + 1) * msPerDay)).
    - apply Hrest. lia.
    - apply (findNextShiftStart_loop_idle _ _ _ Hr). lia. }
  destruct (getShiftForDay (weekday fromDate) shifts) as [shift|] eqn:Hs; [|done].
  pose proof (Hshifts _ (getShiftForDay_elem _ _ _ Hs)) as Hh.
  destruct (Z.gtb_spec (setHour fromDate (startHour shift)) fromDate); [|done].
  unfold setHour, msPerHour in *. lia.
Qed.

Lemma latest_le (l : list Z) : forall init t,
  init <= t -> (forall p, p ∈ l -> p <= t) ->
  fold_left (fun latest current => if current >? latest then current else latest) l init
  <= t.
Proof.
  induction l as [|p l IH]; intros init t Hinit Hall; [done|]. simpl.
  apply IH.
  - pose proof (Hall p ltac:(apply elem_of_cons; by left)).
    destruct (p >? init); lia.
  - intros q Hq. apply Hall, elem_of_cons. by right.
Qed.

(** X6: for shifts that start at hour 1 or later and end after they
    start, [getEarliestStartTime] returns the earliest instant during a
    shift that is at or after the availability of the work center, the end
    of every parent and the epoch. *)
Theorem getEarliestStartTime_earliest_in_shift
    (parentEndTimes : list Z) (available r : Z) :
  getEarliestStartTime parentEndTimes available shifts = Ok r ->
  isDuringShift r shifts = true
  /\ available <= r
  /\ (forall p, p ∈ parentEndTimes -> p <= r)
  /\ forall t, available <= t -> (forall p, p ∈ parentEndTimes -> p <= t) -> 0 <= t ->
       t < r -> isDuringShift t shifts = false.
Proof.
  intros Hr.
  split. { eapply getEarliestStartTime_during_shift; [|exact Hr].
           intros shift Hin. specialize (Hshifts shift Hin). lia. }
  destruct (getEarliestStartTime_ge _ _ _ _ Hr) as [Hav Hps].
  split; [done|]. split; [done|].
  intros t Ht1 Ht2 Ht3 Hlt. revert Hr. unfold getEarliestStartTime. cbn zeta.
  pose proof (latest_le parentEndTimes 0 t Ht3 Ht2) as Hlatest.
  set (latest := fold_left _ parentEndTimes 0) in *.
  set (earliestPossible := if available >? latest then available else latest).
  assert (Hep : earliestPossible <= t)
    by (subst earliestPossible; destruct (available >? latest); lia).
  destruct (getShiftForDay (weekday earliestPossible) shifts) as [shift|] eqn:Hs.
  - pose proof (Hshifts _ (getShiftForDay_elem _ _ _ Hs)) as Hh.
    destruct (Z.ltb_spec earliestPossible (setHour earliestPossible (startHour shift))).
    { intros [= <-].
      assert (Hday : dayOf t = dayOf earliestPossible).
      { pose proof (dayOf_bounds earliestPossible). apply dayOf_between.
        unfold setHour in Hlt. rewrite startOfDay_dayOf in Hlt.
        unfold msPerDay, msPerHour in *. lia. }
      rewrite (isDuringShift_interval _ _ shift)
        by (by rewrite (weekday_same_day _ _ Hday)).
      rewrite !(setHour_same_day _ _ _ Hday).
      apply andb_false_iff. left. apply Z.leb_gt. lia. }
    destruct (Z.ltb_spec earliestPossible (setHour earliestPossible (endHour shift))).
    { intros [= <-]. lia. }
    intros Hr. apply (findNextShiftStart_idle earliestPossible r); [by rewrite Hs|done|lia].
  - intros Hr. apply (findNextShiftStart_idle earliestPossible r); [by rewrite Hs|done|lia].
Qed.

End EarliestStartMinimal.

(** X6 on the shifts of a Monday-to-Friday week, for a work center that is
    free from Saturday 10:00 and a parent that ends on Friday 16:00: the
    order starts on Monday 08:00. *)
Lemma getEarliestStartTime_earliest_in_shift_witness :
  isDuringShift (at_ 20108 8 0) Examples.weekShifts = true
  /\ at_ 20106 10 0 <= at_ 20108 8 0
  /\ (forall p, p ∈ [at_ 20105 16 0] -> p <= at_ 20108 8 0)
  /\ forall t, at_ 20106 10 0 <= t -> (forall p, p ∈ [at_ 20105 16 0] -> p <= t) ->
       0 <= t -> t < at_ 20108 8 0 -> isDuringShift t Examples.weekShifts = false.
Proof.
  apply (getEarliestStartTime_earliest_in_shift Examples.weekShifts).
  - intros shift H. apply weekShifts_hours in H. lia.
  - vm_compute. reflexivity.
Defined.

(** X7 from Friday 18:00 in a Monday-to-Friday week: the next shift start
    is Monday 08:00. *)
Lemma findNextShiftStart_earliest_after_midnight_witness :
  findNextShiftStart (at_ 20105 18 0) Examples.weekShifts = Ok (at_ 20108 8 0)
  /\ forall d t, shiftStartOn Examples.weekShifts d = Some t ->
       at_ 20105 18 0 < t -> at_ 20108 8 0 <= t.
Proof.
  assert (E : findNextShiftStart (at_ 20105 18 0) Examples.weekShifts
              = Ok (at_ 20108 8 0)) by (vm_compute; reflexivity).
  split; [exact E|].
  pose proof (findNextShiftStart_earliest_after_midnight Examples.weekShifts
                (fun shift H => ltac:(apply weekShifts_hours in H; lia))
                (at_ 20105 18 0)) as H.
  rewrite E in H. exact (proj2 (proj2 H)).
Defined.

(** ** DateUtils: a second shift on a weekday *)

Section ShadowedShift.

Variables shifts1 shifts2 : list Shift.
Hypothesis Hsame : forall wd, getShiftForDay wd shifts1 = getShiftForDay wd shifts2.

Lemma calculateEndDate_loop_shifts windows n : forall currentDate remaining,
  calculateEndDate_loop n currentDate remaining shifts1 windows
  = calculateEndDate_loop n currentDate remaining shifts2 windows.
Proof.
  induction n as [|n IH]; intros currentDate remaining; [done|].
  rewrite !calculateEndDate_loop_S, Hsame. cbn zeta.
  destruct (remaining <=? 0); [done|].
  destruct (getShiftForDay (weekday currentDate) shifts2) as [shift|]; [|apply IH].
  repeat (case_match; try apply IH). 
Qed.

Lemma findNextShiftStart_loop_shifts n : forall currentDate,
  findNextShiftStart_loop n currentDate shifts1
  = findNextShiftStart_loop n currentDate shifts2.
Proof.
  induction n as [|n IH]; intros currentDate; [done|].
  rewrite !findNextShiftStart_loop_S, Hsame.
  destruct (getShiftForDay (weekday currentDate) shifts2) as [shift|]; [|apply IH].
  destruct (_ >? _); [done|apply IH].
Qed.

Lemma calculateEndDate_shifts startDate durationMinutes windows :
  calculateEndDate startDate durationMinutes shifts1 windows
  = calculateEndDate startDate durationMinutes shifts2 windows.
Proof. unfold calculateEndDate. by rewrite calculateEndDate_loop_shifts. Qed.

Lemma findNextShiftStart_shifts fromDate :
  findNextShiftStart fromDate shifts1 = findNextShiftStart fromDate shifts2.
Proof. apply findNextShiftStart_loop_shifts. Qed.

Lemma getEarliestStartTime_shifts parentEndTimes available :
  getEarliestStartTime parentEndTimes available shifts1
  = getEarliestStartTime parentEndTimes available shifts2.
Proof.
  unfold getEarliestStartTime. cbn zeta. rewrite Hsame.
  destruct (getShiftForDay _ shifts2); by rewrite ?findNextShiftStart_shifts.
Qed.

Lemma isDuringShift_shifts date : isDuringShift date shifts1 = isDuringShift date shifts2.
Proof. unfold isDuringShift. by rewrite Hsame. Qed.

End ShadowedShift.

Lemma getShiftForDay_shadowed before shift shift' after wd :
  shift ∈ before -> dayOfWeek shift = dayOfWeek shift' ->
  getShiftForDay wd (before ++ shift' :: after) = getShiftForDay wd (before ++ after).
Proof.
  intros Hin Hday. unfold getShiftForDay.
  set (jsWeekday := if wd =? 7 then 0 else wd).
  induction before as [|s before IH]; [by apply elem_of_nil in Hin|]. simpl.
  destruct (Z.eqb_spec (dayOfWeek s) jsWeekday) as [Hs|Hs]; [done|].
  apply elem_of_cons in Hin as [<-|Hin]; [|by apply IH].
  clear IH. induction before as [|s0 before IH]; simpl.
  - rewrite <- Hday. by destruct (Z.eqb_spec (dayOfWeek shift) jsWeekday).
  - destruct (dayOfWeek s0 =? jsWeekday); [done|apply IH].
Qed.

(** X30: only the first shift of a weekday counts. A shift that comes
    after another shift of the same weekday in the table is never used:
    [calculateEndDate], [findNextShiftStart], [getEarliestStartTime] and
    [isDuringShift] return the same with and without it. *)
Theorem second_shift_of_a_weekday_is_ignored
    (before after : list Shift) (shift shift' : Shift) :
  shift ∈ before ->
  dayOfWeek shift = dayOfWeek shift' ->
  (forall startDate durationMinutes windows,
     calculateEndDate startDate durationMinutes (before ++ shift' :: after) windows
     = calculateEndDate startDate durationMinutes (before ++ after) windows)
  /\ (forall fromDate,
        findNextShiftStart fromDate (before ++ shift' :: after)
        = findNextShiftStart fromDate (before ++ after))
  /\ (forall parentEndTimes available,
        getEarliestStartTime parentEndTimes available (before ++ shift' :: after)
        = getEarliestStartTime parentEndTimes available (before ++ after))
  /\ (forall date,
        isDuringShift date (before ++ shift' :: after)
        = isDuringShift date (before ++ after)).
Proof.
  intros Hin Hday.
  pose proof (fun wd => getShiftForDay_shadowed before shift shift' after wd Hin Hday)
    as Hsame.
  split; [|split; [|split]].
  - intros. by apply calculateEndDate_shifts.
  - intros. by apply findNextShiftStart_shifts.
  - intros. by apply getEarliestStartTime_shifts.
  - intros. by apply isDuringShift_shifts.
Qed.

(** X30 on a Monday with a morning shift and an afternoon shift: at 14:00
    the afternoon shift does not count. *)
Lemma second_shift_of_a_weekday_is_ignored_witness :
  isDuringShift (at_ 20101 14 0) [mkShift 1 8 12; mkShift 1 13 17] = false.
Proof.
  destruct (second_shift_of_a_weekday_is_ignored [mkShift 1 8 12] []
              (mkShift 1 8 12) (mkShift 1 13 17)) as (_ & _ & _ & H).
  - apply list_elem_of_singleton. reflexivity.
  - reflexivity.
  - simpl in H. rewrite H. vm_compute. reflexivity.
Defined.

(** ** DependencyGraph: the error of the constructor *)

Section BuildErrors.
Import DependencyGraph.

Lemma addEdges_Err childId parentIds : forall adj e,
  addEdges childId parentIds adj = Err e ->
  exists ps1 p ps2,
    parentIds = ps1 ++ p :: ps2
    /\ e = DependsOnMissing childId p
    /\ (p ∉ omap_keys adj)
    /\ forall q, q ∈ ps1 -> q ∈ omap_keys adj.
Proof.
  induction parentIds as [|p rest IH]; intros adj e; [done|]. simpl.
  destruct (omap_get p adj) as [children|] eqn:Hp.
  - intros He. apply IH in He as (ps1 & p' & ps2 & -> & -> & Hnot & Hall).
    apply omap_get_Some_keys in Hp.
    rewrite omap_keys_set_in in Hnot, Hall by done.
    exists (p :: ps1), p', ps2. split; [done|]. split; [done|]. split; [done|].
    intros q Hq. apply elem_of_cons in Hq as [->|Hq]; auto.
  - intros [= <-]. exists [], p, rest. split; [done|]. split; [done|].
    split; [by apply omap_get_None_keys|].
    intros q Hq. by apply elem_of_nil in Hq.
Qed.

Lemma buildEdges_Err workOrders : forall g e,
  buildEdges workOrders g = Err e ->
  exists before w after ps1 p ps2,
    workOrders = before ++ w :: after
    /\ dependsOnWorkOrderIds w = ps1 ++ p :: ps2
    /\ e = DependsOnMissing (docId w) p
    /\ (p ∉ omap_keys (adjacencyList g))
    /\ (forall w' q, w' ∈ before -> q ∈ dependsOnWorkOrderIds w' ->
          q ∈ omap_keys (adjacencyList g))
    /\ (forall q, q ∈ ps1 -> q ∈ omap_keys (adjacencyList g)).
Proof.
  induction workOrders as [|w rest IH]; intros g e; [done|]. simpl.
  destruct (addEdges (docId w) (dependsOnWorkOrderIds w) (adjacencyList g))
    as [adj'|e'] eqn:Hadd; simpl.
  - intros He. apply IH in He
      as (before & w' & after & ps1 & p & ps2 & -> & Hps & -> & Hnot & Hbefore & Hps1).
    simpl in Hnot, Hbefore, Hps1.
    apply addEdges_spec in Hadd as (Hkeys & Hin & _). rewrite Hkeys in *.
    exists (w :: before), w', after, ps1, p, ps2.
    split; [done|]. split; [done|]. split; [done|]. split; [done|]. split; [|done].
    intros w0 q Hw0 Hq. apply elem_of_cons in Hw0 as [->|Hw0]; eauto.
  - intros [= <-]. apply addEdges_Err in Hadd as (ps1 & p & ps2 & Hps & -> & Hnot & Hps1).
    exists [], w, rest, ps1, p, ps2.
    split; [done|]. split; [done|]. split; [done|]. split; [done|]. split; [|done].
    intros w0 q Hw0. by apply elem_of_nil in Hw0.
Qed.

Lemma initNodes_adjacency_keys workOrders k :
  k ∈ omap_keys (adjacencyList (fold_left initNode workOrders empty))
  <-> k ∈ map docId workOrders.
Proof.
  pose proof (initNodes_spec workOrders empty) as (I1 & _ & _ & I4 & _).
  simpl in I1, I4. rewrite (I1 eq_refl), I4.
  split; [intros [H|H]; [by apply elem_of_nil in H|done]|by right].
Qed.

End BuildErrors.

(** X8: the constructor of [DependencyGraph] builds a graph exactly for the
    lists in which every id of a dependency list is the id of an order;
    otherwise it raises the error that names the first order of the list
    with such an id and the first such id of that order. *)
Theorem buildGraph_raises_on_first_missing_parent (workOrders : list WorkOrderDocument) :
  match DependencyGraph.buildGraph workOrders with
  | Ok _ => dependenciesExist workOrders
  | Err e =>
      exists w p, e = DependsOnMissing (docId w) p /\ firstMissingParent workOrders w p
  end.
Proof.
  destruct (DependencyGraph.buildGraph workOrders) as [g|e] eqn:Hbuild.
  - intros w p Hw Hp. by eapply buildGraph_parents_exist.
  - unfold DependencyGraph.buildGraph in Hbuild.
    apply buildEdges_Err in Hbuild
      as (before & w & after & ps1 & p & ps2 & Hwos & Hps & -> & Hnot & Hbefore & Hps1).
    exists w, p. split; [done|]. exists before, after, ps1, ps2.
    split; [done|]. split; [done|].
    split; [by rewrite <- initNodes_adjacency_keys|].
    split.
    + intros w' q Hw' Hq. apply initNodes_adjacency_keys. by eapply Hbefore.
    + intros q Hq. apply initNodes_adjacency_keys. by apply Hps1.
Qed.

(** ** DependencyGraph: [hasCycles] finds every cycle *)

Section DfsComplete.
Import DependencyGraph.

Variable g : DependencyGraph.t.

Lemma finished_rtc visited recursionStack x y :
  dfs_closed g visited recursionStack ->
  finished visited recursionStack x -> rtc (edge g) x y ->
  finished visited recursionStack y.
Proof.
  intros Hc Hx Hxy. induction Hxy as [|x y z Hxy _ IH]; [done|].
  apply IH. by apply (Hc x Hx).
Qed.

Lemma oset_delete_snoc n (s : list string) : n ∉ s -> oset_delete n (s ++ [n]) = s.
Proof.
  induction s as [|a s IH]; simpl; intros Hn.
  - by rewrite String.eqb_refl.
  - destruct (String.eqb_spec a n) as [->|Hne].
    + exfalso. apply Hn. apply elem_of_cons. by left.
    + f_equal. apply IH. intros H. apply Hn. apply elem_of_cons. by right.
Qed.

Lemma oset_add_notin n (s : list string) : n ∉ s -> oset_add n s = s ++ [n].
Proof. intros Hn. unfold oset_add. by destruct (mem_spec n s). Qed.

Lemma dfs_neighbors_leaves dfs_rec n :
  dfs_leaves g dfs_rec ->
  forall ns visited recursionStack visited' recursionStack',
    dfs_neighbors dfs_rec n ns visited recursionStack
    = Some (false, (visited', recursionStack')) ->
    dfs_closed g visited recursionStack ->
    (forall x, x ∈ recursionStack -> x ∈ visited) ->
    NoDup recursionStack ->
    n ∈ recursionStack ->
    (forall y, edge g n y -> y ∈ ns \/ finished visited recursionStack y) ->
    recursionStack' = oset_delete n recursionStack
    /\ (forall x, x ∈ visited -> x ∈ visited')
    /\ dfs_closed g visited' recursionStack'.
Proof.
  intros Hrec. induction ns as [|y ns IH];
    intros visited stack visited' stack' Hrun Hc Hsub Hnd Hn Hedges.
  - simpl in Hrun. injection Hrun as <- <-. split; [done|]. split; [done|].
    assert (Hkeep : forall z, finished visited stack z ->
                      finished visited (oset_delete n stack) z).
    { intros z [Hzv Hzs]. split; [done|]. intros Hz. apply Hzs.
      by eapply oset_delete_subseteq. }
    intros x [Hxv Hxs]. rewrite oset_delete_elem in Hxs by done.
    destruct (decide (x = n)) as [->|Hne].
    + assert (Hout : forall y, edge g n y -> finished visited stack y).
      { intros y Hy. destruct (Hedges y Hy) as [H|H]; [by apply elem_of_nil in H|done]. }
      split; [intros y Hy; by apply Hkeep, Hout|].
      intros Htc. assert (Hfin : finished visited stack n).
      { inversion Htc as [? ? Hny|? y ? Hny Hyn]; subst.
        - by apply Hout.
        - apply (finished_rtc visited stack y n Hc); [by apply Hout|by apply tc_rtc]. }
      by destruct Hfin as [_ Hfin].
    + assert (Hx : finished visited stack x).
      { split; [done|]. intros H. apply Hxs. by split. }
      destruct (Hc x Hx) as [Hout Hcyc]. split; [|done].
      intros y Hy. by apply Hkeep, Hout.
  - simpl in Hrun. destruct (mem_spec y visited) as [Hyv|Hyv]; simpl in Hrun.
    + destruct (mem_spec y stack) as [Hys|Hys]; [done|].
      apply (IH _ _ _ _ Hrun); try done.
      intros z Hz. destruct (Hedges z Hz) as [Hin|Hfin]; [|by right].
      apply elem_of_cons in Hin as [->|Hin]; [right; by split|by left].
    + destruct (dfs_rec y visited stack) as [[[|] [v1 s1]]|] eqn:Hcall; try done.
      destruct (Hrec _ _ _ _ _ Hcall Hyv Hc Hsub Hnd) as (-> & Hmono & Hyv1 & Hc1).
      destruct (IH _ _ _ _ Hrun Hc1) as (Hs & Hm & Hc'); try done.
      * intros x Hx. by apply Hmono, Hsub.
      * intros z Hz. destruct (Hedges z Hz) as [Hin|[Hzv Hzs]].
        -- apply elem_of_cons in Hin as [->|Hin]; [|by left].
           right. split; [done|]. intros H. by apply Hyv, Hsub.
        -- right. split; [by apply Hmono|done].
      * split; [done|]. split; [|done]. intros x Hx. by apply Hm, Hmono.
Qed.

Lemma dfs_leaves_fuel fuel : dfs_leaves g (dfs fuel g).
Proof.
  induction fuel as [|fuel IH]; intros nb visited stack visited' stack' Hrun Hnb Hc Hsub Hnd;
    [done|].
  simpl in Hrun.
  assert (Hns : nb ∉ stack) by (intros H; by apply Hnb, Hsub).
  apply (dfs_neighbors_leaves _ _ IH) in Hrun as (Hs & Hm & Hc').
  - rewrite (oset_add_notin nb stack Hns), oset_delete_snoc in Hs by done.
    split; [done|]. split.
    { intros x Hx. apply Hm, oset_add_elem. by right. }
    split; [|done]. apply Hm, oset_add_elem. by left.
  - intros x [Hxv Hxs]. rewrite oset_add_elem in Hxv, Hxs.
    assert (Hx : finished visited stack x).
    { split; [|tauto]. destruct Hxv as [->|?]; [|done]. exfalso. apply Hxs. by left. }
    destruct (Hc x Hx) as [Hout Hcyc]. split; [|done].
    intros y Hy. destruct (Hout y Hy) as [Hyv Hys]. split.
    + apply oset_add_elem. by right.
    + rewrite oset_add_elem. intros [->|?]; [by apply Hnb|done].
  - intros x Hx. apply oset_add_elem in Hx as [->|Hx]; apply oset_add_elem;
      [by left|right; by apply Hsub].
  - by apply oset_add_NoDup.
  - apply oset_add_elem. by left.
  - intros y Hy. by left.
Qed.

Lemma hasCycles_roots_leaves fuel roots : forall visited,
  hasCycles_roots fuel g roots visited [] = Some false ->
  dfs_closed g visited [] ->
  exists visited',
    (forall x, x ∈ roots -> x ∈ visited')
    /\ (forall x, x ∈ visited -> x ∈ visited')
    /\ dfs_closed g visited' [].
Proof.
  induction roots as [|n roots IH]; intros visited Hrun Hc.
  - exists visited. split; [|done]. intros x Hx. by apply elem_of_nil in Hx.
  - simpl in Hrun. destruct (mem_spec n visited) as [Hnv|Hnv]; simpl in Hrun.
    + destruct (IH _ Hrun Hc) as (v' & Hroots & Hmono & Hc'). exists v'.
      split; [|done]. intros x Hx. apply elem_of_cons in Hx as [->|Hx]; auto.
    + destruct (dfs fuel g n visited []) as [[[|] [v1 s1]]|] eqn:Hcall; try done.
      destruct (dfs_leaves_fuel fuel _ _ _ _ _ Hcall Hnv Hc) as (-> & Hmono & Hn1 & Hc1).
      { intros x Hx. by apply elem_of_nil in Hx. }
      { constructor. }
      destruct (IH _ Hrun Hc1) as (v' & Hroots & Hmono' & Hc'). exists v'.
      split; [|split; [|done]].
      * intros x Hx. apply elem_of_cons in Hx as [->|Hx]; auto.
      * intros x Hx. by apply Hmono', Hmono.
Qed.

Hypothesis Hwf : graph_wf g.

Lemma hasCycles_false_no_cycle : hasCycles g = false -> forall x, ~ tc (edge g) x x.
Proof.
  unfold hasCycles, hasCycles_opt. intros Hfalse.
  destruct (hasCycles_roots _ g _ [] []) as [[|]|] eqn:Hrun; try done.
  apply hasCycles_roots_leaves in Hrun as (visited' & Hroots & _ & Hc).
  - intros x Htc.
    assert (Hkey : x ∈ omap_keys (DependencyGraph.workOrders g)).
    { assert (exists y, edge g x y) as [y Hy] by (inversion Htc; eauto).
      unfold edge, neighbors in Hy. rewrite <- (wf_adj_keys g Hwf).
      destruct (omap_get x (adjacencyList g)) as [cs|] eqn:Hx;
        [by eapply omap_get_Some_keys|by apply elem_of_nil in Hy]. }
    assert (Hfin : finished visited' [] x).
    { split; [by apply Hroots|]. intros H. by apply elem_of_nil in H. }
    by apply (Hc x Hfin).
  - intros x [Hx _]. by apply elem_of_nil in Hx.
Qed.

End DfsComplete.

Lemma tc_dependsOn_edge workOrders g x y :
  DependencyGraph.buildGraph workOrders = Ok g ->
  tc (dependsOn workOrders) x y -> tc (edge g) y x.
Proof.
  intros Hbuild Htc. induction Htc as [x y Hxy|x y z Hxy _ IH].
  - apply tc_once. by apply (buildGraph_neighbors _ _ _ _ Hbuild).
  - eapply tc_r; [exact IH|]. by apply (buildGraph_neighbors _ _ _ _ Hbuild).
Qed.

Lemma hasCycles_false_acyclic workOrders g :
  DependencyGraph.buildGraph workOrders = Ok g ->
  DependencyGraph.hasCycles g = false -> acyclic workOrders.
Proof.
  intros Hbuild Hfalse id Htc.
  apply (tc_dependsOn_edge _ _ _ _ Hbuild) in Htc.
  by apply (hasCycles_false_no_cycle g (buildGraph_wf _ _ Hbuild) Hfalse id).
Qed.

(** X9: on a constructed graph [hasCycles] returns false exactly when no
    order depends on itself through a chain of declared dependencies. *)
Theorem hasCycles_false_iff_acyclic
    (workOrders : list WorkOrderDocument) (g : DependencyGraph.t) :
  DependencyGraph.buildGraph workOrders = Ok g ->
  (DependencyGraph.hasCycles g = false <-> acyclic workOrders).
Proof.
  intros Hbuild. split.
  - by apply hasCycles_false_acyclic.
  - by apply hasCycles_false.
Qed.

(** X9 on three orders that wait for one another. *)
Lemma hasCycles_false_iff_acyclic_witness :
  exists g, DependencyGraph.buildGraph MoreExamples.circular = Ok g
            /\ DependencyGraph.hasCycles g = true
            /\ ~ acyclic MoreExamples.circular.
Proof.
  destruct (DependencyGraph.buildGraph MoreExamples.circular) as [g|e] eqn:Hbuild;
    [|vm_compute in Hbuild; discriminate].
  exists g. split; [reflexivity|].
  assert (Htrue : DependencyGraph.hasCycles g = true).
  { vm_compute in Hbuild. injection Hbuild as <-. vm_compute. reflexivity. }
  split; [exact Htrue|].
  intros Hacyclic.
  apply (hasCycles_false_iff_acyclic MoreExamples.circular g Hbuild) in Hacyclic.
  rewrite Htrue in Hacyclic. discriminate.
Defined.

(** ** DependencyGraph: [getCycle] *)

Section GetCycle.
Import DependencyGraph.

Variable g : DependencyGraph.t.

Lemma sliceFrom_spec y (s : list string) :
  y ∈ s -> exists before rest, s = before ++ y :: rest /\ sliceFrom y s = y :: rest.
Proof.
  induction s as [|a s IH]; intros Hy; [by apply elem_of_nil in Hy|]. simpl.
  destruct (String.eqb_spec a y) as [->|Hne].
  - by exists [], s.
  - apply elem_of_cons in Hy as [->|Hy]; [done|].
    destruct (IH Hy) as (before & rest & -> & Hs). by exists (a :: before), rest.
Qed.

Lemma chain_snoc (R : relation string) l a b :
  chain R (l ++ [a]) -> R a b -> chain R ((l ++ [a]) ++ [b]).
Proof.
  intros Hchain Hab i x y Hx Hy.
  destruct (decide (S i < length (l ++ [a]))%nat) as [Hlt|Hge].
  - apply (Hchain i x y).
    + rewrite lookup_app_l in Hx by lia. done.
    + rewrite lookup_app_l in Hy by lia. done.
  - assert (Hi : S i = length (l ++ [a])).
    { apply lookup_lt_Some in Hy. rewrite length_app in Hy. simpl in Hy. lia. }
    rewrite lookup_app_r in Hy by lia. rewrite Hi, Nat.sub_diag in Hy.
    injection Hy as <-.
    rewrite lookup_app_l in Hx by lia.
    rewrite length_app in Hi. simpl in Hi.
    rewrite lookup_app_r in Hx by lia.
    replace (i - length l)%nat with 0%nat in Hx by lia. by injection Hx as <-.
Qed.

Lemma chain_singleton (R : relation string) a : chain R [a].
Proof. intros i x y Hx Hy. destruct i; done. Qed.

(** A neighbour that lies on the recursion stack closes a path. *)
Lemma sliceFrom_closedPath s0 n y :
  NoDup (s0 ++ [n]) -> chain (edge g) (s0 ++ [n]) -> y ∈ s0 ++ [n] -> edge g n y ->
  closedPath (edge g) (sliceFrom y (s0 ++ [n])).
Proof.
  intros Hnd Hchain Hy Hny.
  destruct (sliceFrom_spec y _ Hy) as (before & rest & Hs & ->).
  rewrite Hs in Hnd, Hchain. split; [by apply NoDup_app in Hnd as (_ & _ & ?)|].
  split; [by apply chain_app_r in Hchain|].
  exists y, n. split; [done|]. split; [|done].
  rewrite <- (last_app_cons before rest y), <- Hs. apply last_snoc.
Qed.

Lemma dfs_agree_mono r1 r2 visited visited' s :
  (forall x, x ∈ visited' -> x ∈ visited) ->
  dfs_agree g r1 r2 visited s -> dfs_agree g r1 r2 visited' s.
Proof.
  intros Hsub. unfold dfs_agree.
  destruct r1 as [[[|] [v1 s1]]|], r2 as [[[c|] [[v2 s2] p2]]|]; try done.
  intros (-> & -> & -> & Hm). repeat split; auto.
Qed.

Lemma getCycle_neighbors_follows rec1 rec2 n :
  getCycle_follows g rec1 rec2 ->
  forall ns visited s0 parent,
    NoDup (s0 ++ [n]) ->
    (forall x, x ∈ s0 ++ [n] -> x ∈ visited) ->
    chain (edge g) (s0 ++ [n]) ->
    (forall y, y ∈ ns -> edge g n y) ->
    dfs_agree g (dfs_neighbors rec1 n ns visited (s0 ++ [n]))
      (getCycle_neighbors rec2 n ns visited (s0 ++ [n]) parent) visited s0.
Proof.
  intros Hrec. induction ns as [|y ns IH]; intros visited s0 parent Hnd Hsub Hchain Hedges.
  - simpl. rewrite removelast_last, oset_delete_snoc.
    + done.
    + apply NoDup_app in Hnd as (_ & Hn & _). intros H. apply (Hn n H).
      apply list_elem_of_singleton. done.
  - assert (Hy : edge g n y) by (apply Hedges, elem_of_cons; by left).
    assert (Hrest : forall z, z ∈ ns -> edge g n z)
      by (intros z Hz; apply Hedges, elem_of_cons; by right).
    simpl. destruct (mem_spec y visited) as [Hyv|Hyv]; simpl.
    + destruct (mem_spec y (s0 ++ [n])) as [Hys|Hys].
      * by apply sliceFrom_closedPath.
      * by apply IH.
    + pose proof (Hrec y visited (s0 ++ [n]) (omap_set y n parent) Hyv Hsub Hnd
                    (chain_snoc _ _ _ _ Hchain Hy)) as Hcall.
      unfold dfs_agree in Hcall.
      destruct (rec1 y visited (s0 ++ [n])) as [[[|] [v1 s1]]|],
        (rec2 y visited (s0 ++ [n]) (omap_set y n parent)) as [[[c|] [[v2 s2] p2]]|];
        try done.
      destruct Hcall as (Hv & Hs & Hs' & Hm). subst v2 s2 s1.
      apply (dfs_agree_mono _ _ v1); [done|].
      apply IH; try done. intros x Hx. by apply Hm, Hsub.
Qed.

Lemma getCycle_follows_fuel fuel : getCycle_follows g (dfs fuel g) (getCycle_dfs fuel g).
Proof.
  induction fuel as [|fuel IH]; intros nb visited s parent Hnb Hsub Hnd Hchain; [done|].
  assert (Hns : nb ∉ s) by (intros H; by apply Hnb, Hsub).
  simpl. rewrite (oset_add_notin nb s Hns).
  apply (dfs_agree_mono _ _ (oset_add nb visited)).
  { intros x Hx. apply oset_add_elem. by right. }
  apply (getCycle_neighbors_follows _ _ _ IH); try done.
  - apply NoDup_app. split; [done|]. split; [|apply NoDup_singleton].
    intros x Hx Hx'. apply list_elem_of_singleton in Hx' as ->. done.
  - intros x Hx. apply oset_add_elem. apply elem_of_app in Hx as [Hx|Hx].
    + right. by apply Hsub.
    + left. by apply list_elem_of_singleton in Hx.
Qed.

Lemma getCycle_roots_follows fuel roots : forall visited parent,
  match hasCycles_roots fuel g roots visited [],
        getCycle_roots fuel g roots visited [] parent with
  | None, None => True
  | Some true, Some (Some cycle) => closedPath (edge g) cycle
  | Some false, Some None => True
  | _, _ => False
  end.
Proof.
  induction roots as [|n roots IH]; intros visited parent; [done|]. simpl.
  destruct (mem_spec n visited) as [Hnv|Hnv]; simpl; [apply IH|].
  assert (Hempty : forall x : string, x ∈ [] -> x ∈ visited)
    by (intros x Hx; by apply elem_of_nil in Hx).
  pose proof (getCycle_follows_fuel fuel n visited [] parent Hnv Hempty NoDup_nil_2
                (chain_singleton _ n)) as Hcall.
  unfold dfs_agree in Hcall.
  destruct (dfs fuel g n visited []) as [[[|] [v1 s1]]|],
    (getCycle_dfs fuel g n visited [] parent) as [[[c|] [[v2 s2] p2]]|]; try done.
  destruct Hcall as (Hv & Hs & Hs' & _). subst v2 s2 s1. apply IH.
Qed.

End GetCycle.

Lemma closedPath_parentOf workOrders g path :
  DependencyGraph.buildGraph workOrders = Ok g ->
  closedPath (edge g) path -> closedPath (parentOf workOrders) path.
Proof.
  intros Hbuild (Hnd & Hchain & first & final & Hh & Hl & He).
  split; [done|]. split.
  - intros i x y Hx Hy. apply (buildGraph_neighbors _ _ _ _ Hbuild).
    by apply (Hchain i).
  - exists first, final. split; [done|]. split; [done|].
    by apply (buildGraph_neighbors _ _ _ _ Hbuild).
Qed.

(** X10: on a constructed graph [getCycle] returns null exactly when
    [hasCycles] returns false; the list it returns otherwise names
    different orders, each a parent of the next in the list, and the last
    a parent of the first. *)
Theorem getCycle_returns_closed_path
    (workOrders : list WorkOrderDocument) (g : DependencyGraph.t) :
  DependencyGraph.buildGraph workOrders = Ok g ->
  match DependencyGraph.getCycle g with
  | Some cycle =>
      DependencyGraph.hasCycles g = true /\ closedPath (parentOf workOrders) cycle
  | None => DependencyGraph.hasCycles g = false
  end.
Proof.
  intros Hbuild.
  pose proof (hasCycles_fuel_enough _ _ Hbuild) as Hfuel.
  pose proof (getCycle_roots_follows g (length (DependencyGraph.workOrders g))
                (omap_keys (DependencyGraph.workOrders g)) [] []) as Hsim.
  unfold DependencyGraph.getCycle, DependencyGraph.getCycle_opt,
    DependencyGraph.hasCycles, DependencyGraph.hasCycles_opt in *.
  destruct (DependencyGraph.hasCycles_roots _ g _ [] []) as [[|]|],
    (DependencyGraph.getCycle_roots _ g _ [] [] []) as [[c|]|]; try done.
  split; [done|]. by eapply closedPath_parentOf.
Qed.

(** X10 on three orders that wait for one another. *)
Lemma getCycle_returns_closed_path_witness :
  exists g, DependencyGraph.buildGraph MoreExamples.circular = Ok g
            /\ DependencyGraph.getCycle g = Some ["A"; "B"; "C"]
            /\ closedPath (parentOf MoreExamples.circular) ["A"; "B"; "C"].
Proof.
  destruct (DependencyGraph.buildGraph MoreExamples.circular) as [g|e] eqn:Hbuild;
    [|vm_compute in Hbuild; discriminate].
  exists g. split; [reflexivity|].
  assert (Hcycle : DependencyGraph.getCycle g = Some ["A"; "B"; "C"]).
  { vm_compute in Hbuild. injection Hbuild as <-. vm_compute. reflexivity. }
  split; [exact Hcycle|].
  pose proof (getCycle_returns_closed_path MoreExamples.circular g Hbuild) as H.
  rewrite Hcycle in H. exact (proj2 H).
Defined.

(** ** DependencyGraph: the outcomes of [topologicalSort] *)

Lemma cascade_acyclic : acyclic (in_workOrders Examples.cascade).
Proof.
  destruct (DependencyGraph.buildGraph (in_workOrders Examples.cascade)) as [g|e] eqn:Hbuild;
    [|vm_compute in Hbuild; discriminate].
  apply (hasCycles_false_acyclic _ g Hbuild).
  vm_compute in Hbuild. injection Hbuild as <-. vm_compute. reflexivity.
Qed.

Lemma cascade_NoDup w :
  w ∈ in_workOrders Examples.cascade -> NoDup (dependsOnWorkOrderIds w).
Proof.
  unfold Examples.cascade. simpl. intros H.
  repeat (apply elem_of_cons in H as [->|H];
          [simpl; repeat constructor; by intros ?%elem_of_nil|]).
  by apply elem_of_nil in H.
Qed.

(** X11 on the cascade A -> B -> C with the separate order M. *)
Lemma topologicalSort_sorts_without_repeated_parents_witness :
  exists g ordered,
    DependencyGraph.buildGraph (in_workOrders Examples.cascade) = Ok g
    /\ DependencyGraph.topologicalSort g = Ok ordered
    /\ length ordered = 4%nat
    /\ parentsFirst (in_workOrders Examples.cascade) (map docId ordered).
Proof.
  destruct (DependencyGraph.buildGraph (in_workOrders Examples.cascade)) as [g|e] eqn:Hbuild;
    [|vm_compute in Hbuild; discriminate].
  destruct (topologicalSort_sorts_without_repeated_parents
              (in_workOrders Examples.cascade) g cascade_uniqueIds Hbuild
              cascade_acyclic cascade_NoDup) as (ordered & Hsort & Hlen & _ & Hfirst).
  by exists g, ordered.
Defined.

Section SortOutcomes.
Import DependencyGraph.

Variable workOrders : list WorkOrderDocument.
Variable g : DependencyGraph.t.
Hypothesis Hunique : uniqueIds workOrders.
Hypothesis Hbuild : buildGraph workOrders = Ok g.

(** What [topologicalSort] returns, in terms of the ids that the queue
    emits. *)
Lemma topologicalSort_kahn_ids ordered :
  topologicalSort g = Ok ordered ->
  exists ids deg',
    kahn_ids (length (DependencyGraph.workOrders g)) g
      (zeroDegreeNodes (inDegree g)) (inDegree g) = Some ids
    /\ kahn_inv g ids [] deg' /\ kahn_deps workOrders g ids [] deg'
    /\ ordered = lookupAll g ids
    /\ ids ≡ₚ map docId workOrders.
Proof.
  intros Hsort.
  destruct (topologicalSort_Ok workOrders g Hunique Hbuild ordered Hsort) as (Hperm & _ & _).
  revert Hsort Hperm. unfold topologicalSort. destruct (hasCycles g); [done|].
  unfold kahn. rewrite kahn_loop_ids.
  destruct (kahn_ids_result workOrders g Hunique Hbuild) as (ids & deg' & -> & Hinv & Hdeps).
  simpl. destruct (negb _); [done|]. intros [= <-] Hperm.
  exists ids, deg'. split; [done|]. split; [done|]. split; [done|]. split; [done|].
  rewrite <- Hperm. rewrite (lookupAll_keys workOrders g Hunique Hbuild); [done|].
  destruct Hinv as [_ Hk _ _]. by rewrite app_nil_r in Hk.
Qed.

Lemma topologicalSort_Ok_NoDup ordered :
  topologicalSort g = Ok ordered ->
  forall w, w ∈ workOrders -> NoDup (dependsOnWorkOrderIds w).
Proof.
  intros Hsort w Hw.
  destruct (topologicalSort_kahn_ids ordered Hsort)
    as (ids & deg' & _ & Hinv & Hdeps & _ & Hperm).
  destruct Hinv as [Hnd _ _ Hle]. rewrite app_nil_r in Hnd, Hle.
  assert (Hin : docId w ∈ ids) by (rewrite Hperm; by apply list_elem_of_fmap_2).
  pose proof (kd_deg _ _ _ _ _ Hdeps w Hw) as Hdeg.
  specialize (Hle _ _ Hin Hdeg).
  pose proof (parentCount_le workOrders g Hunique Hbuild w ids Hw Hnd) as Hcount.
  assert (Hfull : parentCount g (docId w) ids
                  = Z.of_nat (length (dependsOnWorkOrderIds w))) by lia.
  by apply (parentCount_full workOrders g Hunique Hbuild) in Hfull as [Hnodup _].
Qed.

Lemma topologicalSort_Ok_perm ordered :
  topologicalSort g = Ok ordered -> ordered ≡ₚ workOrders.
Proof.
  intros Hsort.
  destruct (topologicalSort_Ok workOrders g Hunique Hbuild ordered Hsort)
    as (Hperm & _ & Hsub).
  apply NoDup_Permutation.
  - apply (NoDup_fmap_1 docId). rewrite Hperm. exact Hunique.
  - by apply (NoDup_fmap_1 docId).
  - intros w. split; [apply Hsub|].
    by apply (ordered_complete workOrders g ordered).
Qed.

Lemma topologicalSort_Err e :
  topologicalSort g = Err e ->
  (e = CircularDependencyDetected /\ hasCycles g = true)
  \/ (e = CycleDetected /\ hasCycles g = false).
Proof.
  unfold topologicalSort. destruct (hasCycles g).
  - intros [= <-]. by left.
  - destruct (kahn g) as [result|]; [|intros [= <-]; by right].
    destruct (negb _); [|done]. intros [= <-]. by right.
Qed.

Lemma topologicalSort_complete :
  acyclic workOrders ->
  (forall w, w ∈ workOrders -> NoDup (dependsOnWorkOrderIds w)) ->
  exists ordered, topologicalSort g = Ok ordered.
Proof.
  intros Hacyclic Hnodup.
  destruct (kahn_ids_complete workOrders g Hunique Hbuild Hacyclic Hnodup)
    as (ids & Hrun & Hperm & _).
  assert (Hids : map docId (lookupAll g ids) = ids).
  { apply (lookupAll_keys _ _ Hunique Hbuild). intros x Hx.
    rewrite (buildGraph_keys_eq _ _ Hunique Hbuild). by rewrite <- Hperm. }
  exists (lookupAll g ids). unfold topologicalSort.
  rewrite (hasCycles_false _ _ Hbuild Hacyclic). unfold kahn.
  rewrite kahn_loop_ids, Hrun. simpl.
  assert (Hlen : length (lookupAll g ids) = length (DependencyGraph.workOrders g)).
  { rewrite <- (length_map docId (lookupAll g ids)), Hids, (Permutation_length Hperm).
    by rewrite <- omap_keys_length, (buildGraph_keys_eq _ _ Hunique Hbuild). }
  rewrite Hlen, Nat.eqb_refl. done.
Qed.

End SortOutcomes.

(** X12: the outcomes of [topologicalSort] on the graph of a list of work
    orders with distinct ids. It returns a list exactly when the list has
    no cycle and no dependency list repeats an id, and the list it returns
    is a rearrangement of the orders with every order after its parents.
    It raises "Circular dependency detected" exactly on a cycle, and
    "Cycle detected in dependency graph" when there is no cycle and some
    dependency list repeats an id. *)
Theorem topologicalSort_outcomes
    (workOrders : list WorkOrderDocument) (g : DependencyGraph.t) :
  uniqueIds workOrders ->
  DependencyGraph.buildGraph workOrders = Ok g ->
  match DependencyGraph.topologicalSort g with
  | Ok ordered =>
      acyclic workOrders
      /\ (forall w, w ∈ workOrders -> NoDup (dependsOnWorkOrderIds w))
      /\ ordered ≡ₚ workOrders
      /\ parentsFirst workOrders (map docId ordered)
  | Err CircularDependencyDetected => ~ acyclic workOrders
  | Err CycleDetected =>
      acyclic workOrders
      /\ exists w, w ∈ workOrders /\ ~ NoDup (dependsOnWorkOrderIds w)
  | Err _ => False
  end.
Proof.
  intros Hunique Hbuild.
  destruct (DependencyGraph.topologicalSort g) as [ordered|e] eqn:Hsort.
  - destruct (topologicalSort_Ok workOrders g Hunique Hbuild ordered Hsort)
      as (Hperm & Hfirst & _).
    split; [|split; [by eapply topologicalSort_Ok_NoDup|split; [|done]]].
    + apply (parentsFirst_acyclic _ (map docId ordered)); [| |done].
      * rewrite Hperm. exact Hunique.
      * intros w Hw. rewrite Hperm. by apply list_elem_of_fmap_2.
    + by eapply topologicalSort_Ok_perm.
  - destruct (topologicalSort_Err g e Hsort) as [[-> Hc]|[-> Hc]].
    + intros Hacyclic. by rewrite (hasCycles_false _ _ Hbuild Hacyclic) in Hc.
    + pose proof (hasCycles_false_acyclic _ _ Hbuild Hc) as Hacyclic.
      split; [done|].
      destruct (decide (Exists (fun w => ~ NoDup (dependsOnWorkOrderIds w)) workOrders))
        as [Hex|Hall].
      * apply Exists_exists in Hex as (w & Hw & Hdup). by exists w.
      * exfalso.
        destruct (topologicalSort_complete workOrders g Hunique Hbuild Hacyclic)
          as [ordered Hok]; [|by rewrite Hok in Hsort].
        intros w Hw. destruct (decide (NoDup (dependsOnWorkOrderIds w))) as [|Hdup];
          [done|].
        exfalso. apply Hall, Exists_exists. by exists w.
Qed.

(** X12 on the two orders A and B where B lists A twice. *)
Lemma topologicalSort_outcomes_witness :
  acyclic Examples.duplicatedParent
  /\ exists w, w ∈ Examples.duplicatedParent /\ ~ NoDup (dependsOnWorkOrderIds w).
Proof.
  destruct (DependencyGraph.buildGraph Examples.duplicatedParent) as [g|e] eqn:Hbuild;
    [|vm_compute in Hbuild; discriminate].
  pose proof (topologicalSort_outcomes Examples.duplicatedParent g
                duplicatedParent_uniqueIds Hbuild) as H.
  assert (Hsort : DependencyGraph.topologicalSort g = Err CycleDetected).
  { vm_compute in Hbuild. injection Hbuild as <-. vm_compute. reflexivity. }
  rewrite Hsort in H. exact H.
Defined.

(** ** DependencyGraph: the order that [topologicalSort] chooses *)





Section RootsFirst.
Import DependencyGraph.


Variable workOrders : list WorkOrderDocument.
Variable g : DependencyGraph.t.
Hypothesis Hunique : uniqueIds workOrders.
Hypothesis Hbuild : buildGraph workOrders = Ok g.




Lemma lookupAll_orders l :
  (forall w, w ∈ l -> w ∈ workOrders) -> lookupAll g (map docId l) = l.
Proof.
  induction l as [|w l IH]; intros Hsub; [done|].
  unfold lookupAll in *. simpl.
  rewrite (buildGraph_get workOrders g Hunique Hbuild w)
    by (apply Hsub, elem_of_cons; by left).
  simpl. f_equal. apply IH. intros w' Hw'. apply Hsub, elem_of_cons. by right.
Qed.


End RootsFirst.



(** ** DependencyGraph: parents and children *)

Section Relatives.
Import DependencyGraph.

Variable workOrders : list WorkOrderDocument.
Variable g : DependencyGraph.t.
Hypothesis Hunique : uniqueIds workOrders.
Hypothesis Hbuild : buildGraph workOrders = Ok g.

Lemma getParents_Ok id parents :
  getParents g id = Ok parents ->
  exists w, w ∈ workOrders /\ docId w = id
            /\ map docId parents = dependsOnWorkOrderIds w
            /\ forall p, p ∈ parents -> p ∈ workOrders.
Proof.
  intros Hp. assert (Hp' := Hp). revert Hp'. unfold getParents.
  destruct (omap_get id (DependencyGraph.workOrders g)) as [w|] eqn:Hw; [|done].
  intros [= <-].
  apply (buildGraph_get_inv workOrders g Hunique Hbuild) in Hw as [Hw <-].
  exists w. split; [done|]. split; [done|]. split.
  - destruct (getParents_ids workOrders g w Hunique Hbuild Hw) as (ps & Hps & Hids).
    rewrite Hp in Hps. by injection Hps as <-.
  - intros p Hin. apply list_elem_of_omap in Hin as (k & _ & Hk).
    by apply (buildGraph_get_inv workOrders g Hunique Hbuild) in Hk as [? _].
Qed.

Lemma getParents_Err id e :
  getParents g id = Err e -> e = WorkOrderNotFound id /\ id ∉ map docId workOrders.
Proof.
  unfold getParents.
  destruct (omap_get id (DependencyGraph.workOrders g)) as [w|] eqn:Hw; [done|].
  intros [= <-]. split; [done|].
  rewrite <- (buildGraph_keys_eq workOrders g Hunique Hbuild).
  by apply omap_get_None_keys.
Qed.

Lemma neighbors_as_filter id :
  neighbors g id
  = map docId (filter (fun c => id ∈ dependsOnWorkOrderIds c) workOrders).
Proof.
  apply (sublist_unique (map docId workOrders)); [exact Hunique| | |].
  - by apply buildGraph_neighbors_sublist.
  - apply fmap_sublist, sublist_filter.
  - intros x. rewrite (buildGraph_neighbors _ _ _ _ Hbuild). split.
    + intros (w & Hw & <- & Hid). apply list_elem_of_fmap_2.
      by apply list_elem_of_filter.
    + intros Hx. apply list_elem_of_fmap in Hx as (w & -> & Hw).
      apply list_elem_of_filter in Hw as [Hid Hw]. by exists w.
Qed.

Lemma forallb_completed (parents : list WorkOrderDocument) (completed : list string) :
  forallb (fun parent => mem (docId parent) completed) parents = true
  <-> forall p, p ∈ map docId parents -> p ∈ completed.
Proof.
  rewrite forallb_forall. split.
  - intros H p Hp. apply list_elem_of_fmap in Hp as (w & -> & Hw).
    apply mem_true, H. by apply list_elem_of_In.
  - intros H w Hw. apply mem_true, H, list_elem_of_fmap_2. by apply list_elem_of_In.
Qed.

End Relatives.

(** X15: on the graph of work orders with distinct ids, [getParents] of
    the id of an order returns the orders that its dependency list names,
    one for each entry and in the order of the list (an id listed twice
    gives its order twice); for an id that no order has it raises "Work
    order ... not found". *)
Theorem getParents_returns_listed_orders
    (workOrders : list WorkOrderDocument) (g : DependencyGraph.t) (id : string) :
  uniqueIds workOrders ->
  DependencyGraph.buildGraph workOrders = Ok g ->
  match DependencyGraph.getParents g id with
  | Ok parents =>
      exists w, w ∈ workOrders /\ docId w = id
                /\ map docId parents = dependsOnWorkOrderIds w
                /\ forall p, p ∈ parents -> p ∈ workOrders
  | Err e => e = WorkOrderNotFound id /\ id ∉ map docId workOrders
  end.
Proof.
  intros Hunique Hbuild.
  destruct (DependencyGraph.getParents g id) as [parents|e] eqn:Hp.
  - by apply (getParents_Ok workOrders g).
  - by apply (getParents_Err workOrders g).
Qed.

(** X15 on the two orders A and B where B lists A twice: A is returned
    twice. *)
Lemma getParents_returns_listed_orders_witness :
  exists g parents,
    DependencyGraph.buildGraph Examples.duplicatedParent = Ok g
    /\ DependencyGraph.getParents g "B" = Ok parents
    /\ map docId parents = ["A"; "A"].
Proof.
  destruct (DependencyGraph.buildGraph Examples.duplicatedParent) as [g|e] eqn:Hbuild;
    [|vm_compute in Hbuild; discriminate].
  pose proof (getParents_returns_listed_orders Examples.duplicatedParent g "B"
                duplicatedParent_uniqueIds Hbuild) as H.
  destruct (DependencyGraph.getParents g "B") as [parents|e] eqn:Hp.
  - exists g, parents. split; [reflexivity|]. split; [exact Hp|].
    destruct H as (w & Hw & Hid & Hids & _). rewrite Hids.
    unfold Examples.duplicatedParent in Hw.
    repeat (apply elem_of_cons in Hw as [->|Hw]; [by (discriminate Hid || reflexivity)|]).
    by apply elem_of_nil in Hw.
  - exfalso. destruct H as [_ H]. apply H. vm_compute. right. left.
Defined.

(** X16: on the graph of work orders with distinct ids, [getChildren] of
    an id returns the orders whose dependency list names the id, in the
    order of the input, each once; for an id that no order names (and so
    for an id that no order has) it returns the empty list. *)
Theorem getChildren_returns_dependents
    (workOrders : list WorkOrderDocument) (g : DependencyGraph.t) (id : string) :
  uniqueIds workOrders ->
  DependencyGraph.buildGraph workOrders = Ok g ->
  DependencyGraph.getChildren g id
  = filter (fun c => id ∈ dependsOnWorkOrderIds c) workOrders.
Proof.
  intros Hunique Hbuild. unfold DependencyGraph.getChildren.
  rewrite (neighbors_as_filter workOrders g Hunique Hbuild).
  apply (lookupAll_orders workOrders g Hunique Hbuild).
  intros w Hw. by apply list_elem_of_filter in Hw as [_ ?].
Qed.

(** X16 on the two orders A and B where B lists A twice: B is a child of A
    once. *)
Lemma getChildren_returns_dependents_witness :
  exists g, DependencyGraph.buildGraph Examples.duplicatedParent = Ok g
            /\ map docId (DependencyGraph.getChildren g "A") = ["B"].
Proof.
  destruct (DependencyGraph.buildGraph Examples.duplicatedParent) as [g|e] eqn:Hbuild;
    [|vm_compute in Hbuild; discriminate].
  exists g. split; [reflexivity|].
  rewrite (getChildren_returns_dependents Examples.duplicatedParent g "A"
             duplicatedParent_uniqueIds Hbuild).
  vm_compute. reflexivity.
Defined.

(** X17: on the graph of work orders with distinct ids, [canStart] of the
    id of an order is true exactly when every id of its dependency list is
    in the set of completed ids; for an id that no order has it raises
    "Work order ... not found". *)
Theorem canStart_iff_parents_completed
    (workOrders : list WorkOrderDocument) (g : DependencyGraph.t)
    (id : string) (completedWorkOrderIds : list string) :
  uniqueIds workOrders ->
  DependencyGraph.buildGraph workOrders = Ok g ->
  match DependencyGraph.canStart g id completedWorkOrderIds with
  | Ok b =>
      exists w, w ∈ workOrders /\ docId w = id
                /\ (b = true <->
                    forall p, p ∈ dependsOnWorkOrderIds w -> p ∈ completedWorkOrderIds)
  | Err e => e = WorkOrderNotFound id /\ id ∉ map docId workOrders
  end.
Proof.
  intros Hunique Hbuild. unfold DependencyGraph.canStart.
  destruct (DependencyGraph.getParents g id) as [parents|e] eqn:Hp; simpl.
  - destruct (getParents_Ok workOrders g Hunique Hbuild id parents Hp)
      as (w & Hw & Hid & Hids & _).
    exists w. split; [done|]. split; [done|]. rewrite <- Hids.
    apply forallb_completed.
  - by apply (getParents_Err workOrders g).
Qed.

(** X17 on the cascade A -> B -> C: B can start once A is completed. *)
Lemma canStart_iff_parents_completed_witness :
  exists g, DependencyGraph.buildGraph (in_workOrders Examples.cascade) = Ok g
            /\ DependencyGraph.canStart g "B" ["A"] = Ok true.
Proof.
  destruct (DependencyGraph.buildGraph (in_workOrders Examples.cascade)) as [g|e] eqn:Hbuild;
    [|vm_compute in Hbuild; discriminate].
  exists g. split; [reflexivity|].
  pose proof (canStart_iff_parents_completed (in_workOrders Examples.cascade) g "B" ["A"]
                cascade_uniqueIds Hbuild) as H.
  destruct (DependencyGraph.canStart g "B" ["A"]) as [b|e] eqn:Hc.
  - f_equal. destruct H as (w & Hw & Hid & Hb). apply Hb.
    unfold Examples.cascade in Hw. simpl in Hw.
    repeat (apply elem_of_cons in Hw as [->|Hw];
            [first [discriminate Hid | simpl; intros p Hp; exact Hp]|]).
    by apply elem_of_nil in Hw.
  - exfalso. destruct H as [_ H]. apply H. vm_compute. right. left.
Defined.



(** ** ConstraintChecker: the map of the work centers *)

Lemma workCenterMapOf_snoc workCenters wc :
  workCenterMapOf (workCenters ++ [wc])
  = omap_set (wc_docId wc) wc (workCenterMapOf workCenters).
Proof. unfold workCenterMapOf. by rewrite fold_left_app. Qed.

Lemma workCenterMapOf_find workCenters id :
  omap_get id (workCenterMapOf workCenters)
  = List.find (fun wc => String.eqb (wc_docId wc) id) (rev workCenters).
Proof.
  induction workCenters as [|wc l IH] using rev_ind; [done|].
  rewrite workCenterMapOf_snoc, rev_unit. simpl.
  destruct (String.eqb_spec (wc_docId wc) id) as [<-|Hne].
  - apply omap_get_set_eq.
  - by rewrite omap_get_set_ne.
Qed.

Lemma workCenterMapOf_elem workCenters id wc :
  omap_get id (workCenterMapOf workCenters) = Some wc -> wc ∈ workCenters.
Proof.
  rewrite workCenterMapOf_find. intros Hf. apply find_some in Hf as [Hin _].
  apply list_elem_of_In. by apply in_rev.
Qed.

(** X19: the map that [validate] and [reflow] build from the work centers
    gives, for an id, the last work center of the input with that id, and
    nothing exactly for the ids that no work center has. *)
Theorem workCenterMap_last_wins (workCenters : list WorkCenterDocument) (id : string) :
  omap_get id (workCenterMapOf workCenters)
  = List.find (fun wc => String.eqb (wc_docId wc) id) (rev workCenters)
  /\ (omap_get id (workCenterMapOf workCenters) = None
      <-> id ∉ map wc_docId workCenters).
Proof.
  pose proof (workCenterMapOf_find workCenters id) as Hfind.
  split; [exact Hfind|]. rewrite Hfind. split.
  - intros Hnone Hin. apply list_elem_of_fmap in Hin as (wc & -> & Hwc).
    assert (Hin : In wc (rev workCenters)).
    { apply in_rev. rewrite rev_involutive. by apply list_elem_of_In. }
    pose proof (find_none _ _ Hnone wc Hin) as Hne. simpl in Hne.
    by rewrite String.eqb_refl in Hne.
  - intros Hnot. destruct (List.find _ (rev workCenters)) as [wc|] eqn:Hf; [|done].
    apply find_some in Hf as [Hin Heq]. exfalso. apply Hnot.
    apply String.eqb_eq in Heq as <-. apply list_elem_of_fmap_2.
    apply list_elem_of_In. by apply in_rev.
Qed.

(** ** ConstraintChecker: unmet dependencies *)

Section CheckDependencies.
Import ConstraintChecker DependencyGraph.

Variable workOrders : list WorkOrderDocument.
Variable g : DependencyGraph.t.
Hypothesis Hunique : uniqueIds workOrders.
Hypothesis Hbuild : buildGraph workOrders = Ok g.

Lemma checkDependencies_fold l : forall vs0,
  (forall w, w ∈ l -> w ∈ workOrders) ->
  fold_left
    (fun acc workOrder =>
       bind acc (fun violations =>
       bind (getParents g (docId workOrder)) (fun parents =>
       Ok (violations ++
           flat_map
             (fun parent =>
                if endDate parent >? startDate workOrder
                then [mkViolation DEPENDENCY_NOT_MET (docId workOrder)
                        (Some (docId parent))]
                else [])
             parents))))
    l (Ok vs0)
  = Ok (vs0 ++ flat_map (dependencyViolations g) l).
Proof.
  induction l as [|w l IH]; intros vs0 Hl; simpl; [by rewrite app_nil_r|].
  destruct (getParents_ids workOrders g w Hunique Hbuild) as (ps & Hps & _).
  { apply Hl, elem_of_cons. by left. }
  unfold dependencyViolations at 1. rewrite Hps. simpl.
  rewrite IH by (intros x Hx; apply Hl, elem_of_cons; by right).
  by rewrite app_assoc.
Qed.

Lemma checkDependencies_closed_form :
  checkDependencies workOrders = Ok (flat_map (dependencyViolations g) workOrders).
Proof.
  unfold checkDependencies. rewrite Hbuild. simpl.
  by rewrite checkDependencies_fold.
Qed.

Lemma dependencyViolations_elem w v :
  w ∈ workOrders ->
  v ∈ dependencyViolations g w
  <-> exists p, p ∈ workOrders /\ docId p ∈ dependsOnWorkOrderIds w
                /\ startDate w < endDate p
                /\ v = mkViolation DEPENDENCY_NOT_MET (docId w) (Some (docId p)).
Proof.
  intros Hw. unfold dependencyViolations.
  destruct (getParents g (docId w)) as [parents|e] eqn:Hp.
  2: { destruct (getParents_ids workOrders g w Hunique Hbuild Hw) as (ps & Hps & _).
       by rewrite Hp in Hps. }
  destruct (getParents_Ok workOrders g Hunique Hbuild _ _ Hp)
    as (w' & Hw' & Hid & Hids & Hsub).
  apply (uniqueIds_inj workOrders Hunique) in Hid; [subst w'|done|done].
  rewrite list_elem_of_In, in_flat_map. split.
  - intros (p & Hin & Hv). apply list_elem_of_In in Hin.
    destruct (Z.gtb_spec (endDate p) (startDate w)) as [Hgt|Hle];
      [|by apply list_elem_of_In, elem_of_nil in Hv].
    apply list_elem_of_In, list_elem_of_singleton in Hv as ->.
    exists p. split; [by apply Hsub|]. split; [|split; [lia|done]].
    rewrite <- Hids. by apply list_elem_of_fmap_2.
  - intros (p & Hpw & Hdep & Hlt & ->).
    rewrite <- Hids in Hdep. apply list_elem_of_fmap in Hdep as (p' & Hid' & Hin).
    assert (p' = p) as ->.
    { apply (uniqueIds_inj workOrders Hunique); [by apply Hsub|done|done]. }
    exists p. split; [by apply list_elem_of_In|].
    rewrite (proj2 (Z.gtb_lt (endDate p) (startDate w))) by lia.
    apply list_elem_of_In, list_elem_of_singleton. done.
Qed.

Lemma checkDependencies_elem v :
  v ∈ flat_map (dependencyViolations g) workOrders <-> unmetDependency workOrders v.
Proof.
  rewrite list_elem_of_In, in_flat_map. split.
  - intros (w & Hw & Hv). apply list_elem_of_In in Hw, Hv.
    apply (dependencyViolations_elem w v Hw) in Hv as (p & Hp & Hdep & Hlt & ->).
    by exists w, p.
  - intros (w & p & Hw & Hp & Hdep & Hlt & ->). exists w.
    split; [by apply list_elem_of_In|].
    apply list_elem_of_In, (dependencyViolations_elem w _ Hw). by exists p.
Qed.

End CheckDependencies.

(** X20: for work orders with distinct ids, [checkDependencies] (the second
    pass of [validate]) reports a DEPENDENCY_NOT_MET violation for an order
    and a parent exactly when the parent ends after the order starts: one
    violation for each such pair, naming the order and the parent, and no
    other. It raises only when a dependency id names no order. *)
Theorem checkDependencies_reports_unmet_dependencies
    (workOrders : list WorkOrderDocument) :
  uniqueIds workOrders ->
  match ConstraintChecker.checkDependencies workOrders with
  | Ok vs => forall v, v ∈ vs <-> unmetDependency workOrders v
  | Err _ => ~ dependenciesExist workOrders
  end.
Proof.
  intros Hunique.
  destruct (DependencyGraph.buildGraph workOrders) as [g|e] eqn:Hbuild.
  - rewrite (checkDependencies_closed_form workOrders g Hunique Hbuild).
    intros v. by apply checkDependencies_elem.
  - unfold ConstraintChecker.checkDependencies. rewrite Hbuild. simpl.
    intros Hdeps. destruct (buildGraph_ok _ Hdeps) as [g Hg]. by rewrite Hg in Hbuild.
Qed.

(** X20 on the cascade A -> B -> C as it is given: B starts at 09:00, an
    hour before its parent A ends. *)
Lemma checkDependencies_reports_unmet_dependencies_witness :
  exists vs,
    ConstraintChecker.checkDependencies (in_workOrders Examples.cascade) = Ok vs
    /\ mkViolation DEPENDENCY_NOT_MET "B" (Some "A") ∈ vs
    /\ unmetDependency (in_workOrders Examples.cascade)
         (mkViolation DEPENDENCY_NOT_MET "B" (Some "A")).
Proof.
  pose proof (checkDependencies_reports_unmet_dependencies
                (in_workOrders Examples.cascade) cascade_uniqueIds) as H.
  destruct (ConstraintChecker.checkDependencies (in_workOrders Examples.cascade))
    as [vs|e] eqn:Hcheck; [|vm_compute in Hcheck; discriminate].
  exists vs. split; [reflexivity|].
  assert (Hin : mkViolation DEPENDENCY_NOT_MET "B" (Some "A") ∈ vs).
  { vm_compute in Hcheck. injection Hcheck as <-. left. }
  split; [exact Hin|]. by apply H.
Defined.

(** ** ConstraintChecker: what a valid schedule is *)

Section ValidSchedule.
Import ConstraintChecker.

Lemma flat_map_nil_iff {A B} (f : A -> list B) (l : list A) :
  flat_map f l = [] <-> forall x, x ∈ l -> f x = [].
Proof.
  induction l as [|a l IH]; simpl.
  - split; [|done]. intros _ x Hx. by apply elem_of_nil in Hx.
  - rewrite app_nil, IH. split.
    + intros [Ha Hl] x Hx. apply elem_of_cons in Hx as [->|Hx]; auto.
    + intros H. split; [apply H, elem_of_cons; by left|].
      intros x Hx. apply H, elem_of_cons. by right.
Qed.

Lemma checkShiftBoundaries_nil workOrders workCenters :
  checkShiftBoundaries workOrders (workCenterMapOf workCenters) = []
  <-> withinShifts workOrders workCenters.
Proof.
  unfold checkShiftBoundaries, withinShifts. rewrite flat_map_nil_iff. split.
  - intros H w wc Hw Hwc. specialize (H w Hw). rewrite Hwc in H.
    apply app_nil in H as [H1 H2].
    by destruct (isDuringShift (startDate w) (shifts wc)),
         (isDuringShift (endDate w) (shifts wc)).
  - intros H w Hw.
    destruct (omap_get (workCenterId w) (workCenterMapOf workCenters)) as [wc|] eqn:Hwc;
      [|done].
    destruct (H w wc Hw Hwc) as [-> ->]. done.
Qed.

Lemma checkMaintenanceConflicts_nil workOrders workCenters :
  checkMaintenanceConflicts workOrders (workCenterMapOf workCenters) = []
  <-> clearOfMaintenance workOrders workCenters.
Proof.
  unfold checkMaintenanceConflicts, clearOfMaintenance. rewrite flat_map_nil_iff. split.
  - intros H w wc Hw Hwc. specialize (H w Hw). rewrite Hwc in H.
    by destruct (overlapsMaintenance _ _ _).
  - intros H w Hw.
    destruct (omap_get (workCenterId w) (workCenterMapOf workCenters)) as [wc|] eqn:Hwc;
      [|done].
    by rewrite (H w wc Hw Hwc).
Qed.

Lemma unmetDependency_none workOrders (vs : list ConstraintViolation) :
  (forall v, v ∈ vs <-> unmetDependency workOrders v) ->
  vs = [] <-> dependenciesMet workOrders.
Proof.
  intros Hvs. split.
  - intros -> w p Hw Hp Hdep.
    destruct (Z.le_gt_cases (endDate p) (startDate w)) as [|Hlt]; [done|].
    exfalso. apply (elem_of_nil (mkViolation DEPENDENCY_NOT_MET (docId w) (Some (docId p)))).
    apply Hvs. by exists w, p.
  - intros Hmet. destruct vs as [|v vs]; [done|]. exfalso.
    destruct (proj1 (Hvs v) ltac:(apply elem_of_cons; by left))
      as (w & p & Hw & Hp & Hdep & Hlt & _).
    specialize (Hmet w p Hw Hp Hdep). lia.
Qed.

End ValidSchedule.

(** X21: for work orders with distinct ids and intervals that are not
    empty, [ConstraintChecker.isValid] returns true exactly for the
    schedules in which no two orders of a work center overlap, every order
    starts at or after the end of each order it depends on, and every
    order whose work center is listed starts and ends during a shift of
    that work center and meets none of its maintenance windows. It raises
    only when a dependency id names no order. *)
Theorem isValid_iff_all_constraints_hold
    (workOrders : list WorkOrderDocument) (workCenters : list WorkCenterDocument) :
  uniqueIds workOrders ->
  (forall w, w ∈ workOrders -> startDate w < endDate w) ->
  match ConstraintChecker.isValid workOrders workCenters with
  | Ok b =>
      b = true
      <-> ~ overlappingPair workOrders
          /\ dependenciesMet workOrders
          /\ withinShifts workOrders workCenters
          /\ clearOfMaintenance workOrders workCenters
  | Err _ => ~ dependenciesExist workOrders
  end.
Proof.
  intros Hunique Hpos.
  unfold ConstraintChecker.isValid, ConstraintChecker.validate.
  destruct (DependencyGraph.buildGraph workOrders) as [g|e] eqn:Hbuild.
  2: { unfold ConstraintChecker.checkDependencies. rewrite Hbuild. simpl.
       intros Hdeps. destruct (buildGraph_ok _ Hdeps) as [g Hg]. by rewrite Hg in Hbuild. }
  rewrite (checkDependencies_closed_form workOrders g Hunique Hbuild). simpl.
  rewrite Nat.eqb_eq, length_zero_iff_nil, !app_nil.
  rewrite (unmetDependency_none workOrders _
             (checkDependencies_elem workOrders g Hunique Hbuild)).
  rewrite checkShiftBoundaries_nil, checkMaintenanceConflicts_nil.
  pose proof (checkWorkCenterConflicts_spec workOrders (workCenterMapOf workCenters) Hpos)
    as Hoverlap.
  destruct (ConstraintChecker.checkWorkCenterConflicts workOrders
              (workCenterMapOf workCenters)) as [|v v1].
  - split; [|tauto]. intros (_ & H). split; [|done].
    intros Hpair. by apply Hoverlap in Hpair.
  - split; [by intros [? _]|]. intros [Hno _]. exfalso. apply Hno, Hoverlap. done.
Qed.

(** X21 on two orders that follow one another during the Monday shift. *)
Lemma isValid_iff_all_constraints_hold_witness :
  ConstraintChecker.isValid MoreExamples.sequence [Examples.line1] = Ok true
  /\ ~ overlappingPair MoreExamples.sequence
  /\ dependenciesMet MoreExamples.sequence
  /\ withinShifts MoreExamples.sequence [Examples.line1]
  /\ clearOfMaintenance MoreExamples.sequence [Examples.line1].
Proof.
  assert (Hvalid : ConstraintChecker.isValid MoreExamples.sequence [Examples.line1]
                   = Ok true) by (vm_compute; reflexivity).
  split; [exact Hvalid|].
  assert (Hunique : uniqueIds MoreExamples.sequence).
  { unfold uniqueIds. simpl. apply NoDup_cons. split; [|apply NoDup_singleton].
    intros H. apply list_elem_of_singleton in H. discriminate. }
  assert (Hpos : forall w, w ∈ MoreExamples.sequence -> startDate w < endDate w).
  { unfold MoreExamples.sequence. intros w Hw.
    repeat (apply elem_of_cons in Hw as [->|Hw]; [vm_compute; reflexivity|]).
    by apply elem_of_nil in Hw. }
  pose proof (isValid_iff_all_constraints_hold MoreExamples.sequence [Examples.line1]
                Hunique Hpos) as H.
  rewrite Hvalid in H. by apply H.
Defined.

(** ** ReflowService: the result and its validity *)

(** X22: in every result of [reflow], [isValid] is true exactly when the
    list of violations is empty; and when it is true the work orders
    returned pass [ConstraintChecker.isValid] with the work centers of
    the input. *)
Theorem reflow_isValid_iff_no_violations (clock : nat -> Z) (input : ReflowInput) :
  let result := reflow clock input in
  (isValid result = true <-> violations result = [])
  /\ (isValid result = true ->
      ConstraintChecker.isValid (updatedWorkOrders result) (in_workCenters input)
      = Ok true).
Proof.
  intros result.
  destruct (reflow_cases clock input) as [e _ Hr|dag _ _ Hr|dag ordered init st vs
    _ _ _ _ _ Hval Hup _ Hvalid Hviol]; fold result in Hr || fold result in Hup, Hvalid, Hviol.
  - rewrite Hr. simpl. split; [split|]; done.
  - rewrite Hr. simpl. split; [split|]; done.
  - rewrite Hvalid, Hviol, Hup. split.
    + rewrite Nat.eqb_eq, length_zero_iff_nil. split; [by intros ->|].
      by destruct vs.
    + intros Hzero. unfold ConstraintChecker.isValid. rewrite Hval. simpl.
      by rewrite Hzero.
Qed.

(** ** ReflowService: work centers without shifts *)

Section NoShift.
Import ReflowService.

Variable clock : nat -> Z.

Lemma findNextShiftStart_loop_no_shifts n : forall currentDate,
  findNextShiftStart_loop n currentDate [] = Err NoShiftFound.
Proof. induction n as [|n IH]; intros currentDate; [done|]. simpl. apply IH. Qed.

Lemma initAvailability_no_shifts workCenters wc :
  wc ∈ workCenters -> shifts wc = [] ->
  forall availability tick,
    exists e, initAvailability clock workCenters availability tick = Err e.
Proof.
  intros Hwc Hnone. induction workCenters as [|wc0 wcs IH]; intros availability tick;
    [by apply elem_of_nil in Hwc|].
  simpl. destruct (findNextShiftStart (clock tick) (shifts wc0)) as [nextShift|e] eqn:Hnext;
    simpl; [|by exists e].
  apply elem_of_cons in Hwc as [<-|Hwc]; [|by apply IH].
  rewrite Hnone in Hnext. unfold findNextShiftStart in Hnext.
  by rewrite findNextShiftStart_loop_no_shifts in Hnext.
Qed.

End NoShift.

(** X23: when a work center of the input has no shift at all, [reflow]
    returns the failure result, whatever the work orders are and whether
    or not any of them is assigned to that work center. *)
Theorem reflow_fails_on_work_center_without_shift
    (clock : nat -> Z) (input : ReflowInput) (wc : WorkCenterDocument) :
  wc ∈ in_workCenters input ->
  shifts wc = [] ->
  failureResult (reflow clock input).
Proof.
  intros Hwc Hnone.
  destruct (reflow_cases clock input) as [e _ Hr|dag _ _ Hr|dag ordered init st vs
    _ _ _ Hinit _ _ _ _ _ _].
  - rewrite Hr. unfold failureResult. simpl. eauto 10.
  - rewrite Hr. unfold failureResult. simpl. eauto 10.
  - destruct (initAvailability_no_shifts clock _ wc Hwc Hnone [] 0%nat) as [e He].
    by rewrite He in Hinit.
Qed.

(** X23 on the cascade with a second work center that has no shift. *)
Lemma reflow_fails_on_work_center_without_shift_witness :
  failureResult
    (reflow Examples.mondayMorning
       (mkInput (in_workOrders Examples.cascade)
          [Examples.line1; mkWorkCenter "wc-2" "Line 2" [] []] [])).
Proof.
  apply (reflow_fails_on_work_center_without_shift _ _
           (mkWorkCenter "wc-2" "Line 2" [] [])).
  - simpl. right. left.
  - reflexivity.
Defined.

(** ** ReflowService: the dates of the scheduled orders *)

Section ScheduledDates.
Import ReflowService.

Variable clock : nat -> Z.
Variable dag : DependencyGraph.t.
Variable workCenterMap : list (string * WorkCenterDocument).

(** A property of the state that every iteration keeps holds at the end
    of the loop. *)
Lemma scheduleAll_invariant (I : LoopState -> Prop) :
  (forall st w st', I st -> scheduleOne clock dag workCenterMap st w = Ok st' -> I st') ->
  forall ordered st st',
    scheduleAll clock dag workCenterMap ordered st = Ok st' -> I st -> I st'.
Proof.
  intros Hstep. induction ordered as [|w rest IH]; intros st st' Hall HI; simpl in Hall.
  - by injection Hall as <-.
  - destruct (scheduleOne clock dag workCenterMap st w) as [st1|] eqn:Hone; [|done].
    simpl in Hall. apply (IH _ _ Hall). by eapply Hstep.
Qed.

Lemma initAvailability_after_clock workCenters : forall availability tick init,
  initAvailability clock workCenters availability tick = Ok init ->
  snd init = (tick + length workCenters)%nat
  /\ (forall k v, omap_get k (fst init) = Some v ->
        omap_get k availability = Some v
        \/ exists t, (tick <= t < snd init)%nat /\ clock t < v)
  /\ (forall k, k ∈ omap_keys availability -> k ∈ omap_keys (fst init))
  /\ (forall wc, wc ∈ workCenters -> wc_docId wc ∈ omap_keys (fst init)).
Proof.
  induction workCenters as [|wc wcs IH]; intros availability tick init; simpl.
  - intros [= <-]. simpl. split; [lia|]. split; [by left|]. split; [done|].
    intros wc Hwc. by apply elem_of_nil in Hwc.
  - destruct (findNextShiftStart (clock tick) (shifts wc)) as [nextShift|] eqn:Hnext;
      [|done].
    simpl. intros Hinit. apply findNextShiftStart_gt in Hnext.
    destruct (IH _ _ _ Hinit) as (Htick & Hvals & Hkeys & Hwcs).
    split; [lia|]. split; [|split].
    + intros k v Hk. destruct (Hvals k v Hk) as [Hold|(t & Ht & Hv)].
      * destruct (decide (wc_docId wc = k)) as [<-|Hne].
        -- rewrite omap_get_set_eq in Hold. injection Hold as <-.
           right. exists tick. split; [lia|done].
        -- rewrite omap_get_set_ne in Hold by done. by left.
      * right. exists t. split; [lia|done].
    + intros k Hk. apply Hkeys, omap_keys_set_elem. by right.
    + intros wc' Hwc'. apply elem_of_cons in Hwc' as [->|Hwc']; [|by apply Hwcs].
      apply Hkeys, omap_keys_set_elem. by left.
Qed.

Variable n : nat.
Hypothesis Hkey : forall k wc, omap_get k workCenterMap = Some wc -> wc_docId wc = k.

(** Every availability is after a reading of the clock, every work center
    has one, and so every scheduled order starts after a reading. *)
Lemma scheduleOne_after_clock st w st' :
  (forall k v, omap_get k (st_availability st) = Some v -> afterClock clock n v)
  /\ (forall k wc, omap_get k workCenterMap = Some wc ->
        k ∈ omap_keys (st_availability st))
  /\ (forall u, u ∈ st_updated st -> isMaintenance u = false ->
        afterClock clock n (startDate u)) ->
  scheduleOne clock dag workCenterMap st w = Ok st' ->
  (forall k v, omap_get k (st_availability st') = Some v -> afterClock clock n v)
  /\ (forall k wc, omap_get k workCenterMap = Some wc ->
        k ∈ omap_keys (st_availability st'))
  /\ (forall u, u ∈ st_updated st' -> isMaintenance u = false ->
        afterClock clock n (startDate u)).
Proof.
  intros (Hav & Hkeys & Hup) Hone.
  apply scheduleOne_updated in Hone
    as [(Hm & -> & ->)|(Hm & wc & ps & a & s & e & Hwc & _ & Ha & Hs & He & -> & ->)].
  - split; [done|]. split; [done|].
    intros u Hu Hmu. apply elem_of_app in Hu as [Hu|Hu]; [by apply Hup|].
    apply list_elem_of_singleton in Hu as ->. congruence.
  - pose proof (Hkey _ _ Hwc) as Hid.
    destruct (omap_keys_get _ _ (Hkeys _ _ Hwc)) as [a0 Ha0].
    rewrite Hid, Ha0 in Ha. subst a.
    destruct (Hav _ _ Ha0) as (t & Ht & Hclock).
    apply getEarliestStartTime_ge in Hs as [Hs _].
    apply calculateEndDate_ge in He.
    split; [|split].
    + intros k v. destruct (decide (wc_docId wc = k)) as [<-|Hne].
      * rewrite omap_get_set_eq. intros [= <-]. exists t. split; [done|lia].
      * rewrite omap_get_set_ne by done. apply Hav.
    + intros k wc' Hwc'. apply omap_keys_set_elem. right. by eapply Hkeys.
    + intros u Hu Hmu. apply elem_of_app in Hu as [Hu|Hu]; [by apply Hup|].
      apply list_elem_of_singleton in Hu as ->. simpl. exists t. split; [done|lia].
Qed.

(** Every scheduled order starts during a shift of its work center and
    ends no earlier than its duration after its start. *)
Lemma scheduleOne_in_shift st w st' :
  (forall k wc, omap_get k workCenterMap = Some wc -> wellFormedShifts (shifts wc)) ->
  (forall u, u ∈ st_updated st -> isMaintenance u = false ->
     exists wc, omap_get (workCenterId u) workCenterMap = Some wc
                /\ isDuringShift (startDate u) (shifts wc) = true
                /\ startDate u + durationMinutes u * msPerMinute <= endDate u) ->
  scheduleOne clock dag workCenterMap st w = Ok st' ->
  forall u, u ∈ st_updated st' -> isMaintenance u = false ->
    exists wc, omap_get (workCenterId u) workCenterMap = Some wc
               /\ isDuringShift (startDate u) (shifts wc) = true
               /\ startDate u + durationMinutes u * msPerMinute <= endDate u.
Proof.
  intros Hshifts Hup Hone.
  apply scheduleOne_updated in Hone
    as [(Hm & -> & _)|(Hm & wc & ps & a & s & e & Hwc & _ & _ & Hs & He & -> & _)];
    intros u Hu Hmu; (apply elem_of_app in Hu as [Hu|Hu]; [by apply Hup|]);
    apply list_elem_of_singleton in Hu as ->; [congruence|].
  exists wc. split; [done|]. simpl. pose proof (Hshifts _ _ Hwc) as Hwf. split.
  - apply (getEarliestStartTime_during_shift (shifts wc)) in Hs; [done|].
    intros shift Hin. specialize (Hwf shift Hin). lia.
  - destruct (calculateEndDate_Ok_loop _ _ _ _ _ He) as [k Hloop].
    apply (calculateEndDate_loop_elapsed (shifts wc) (maintenanceWindows wc)) in Hloop;
      [done|].
    intros shift Hin. specialize (Hwf shift Hin). lia.
Qed.

End ScheduledDates.

(** X24: [reflow] never schedules in the past: every order it returns that
    is not a maintenance order starts strictly after one of the readings
    of the clock that [reflow] took for the work centers of the input at
    the beginning. *)
Theorem reflow_starts_after_clock_reading
    (clock : nat -> Z) (input : ReflowInput) (u : WorkOrderDocument) :
  u ∈ updatedWorkOrders (reflow clock input) ->
  isMaintenance u = false ->
  exists t, (t < length (in_workCenters input))%nat /\ clock t < startDate u.
Proof.
  intros Hu Hmu.
  destruct (reflow_cases clock input) as [e _ Hr|dag _ _ Hr|dag ordered init st vs
    _ _ _ Hinit Hall _ Hup _ _ _].
  - rewrite Hr in Hu. by apply elem_of_nil in Hu.
  - rewrite Hr in Hu. by apply elem_of_nil in Hu.
  - rewrite Hup in Hu.
    destruct (initAvailability_after_clock clock _ _ _ _ Hinit)
      as (Htick & Hvals & _ & Hwcs). simpl in Htick.
    pose proof (scheduleAll_invariant clock dag (workCenterMapOf (in_workCenters input))
      (fun st =>
         (forall k v, omap_get k (ReflowService.st_availability st) = Some v ->
            afterClock clock (length (in_workCenters input)) v)
         /\ (forall k wc, omap_get k (workCenterMapOf (in_workCenters input)) = Some wc ->
               k ∈ omap_keys (ReflowService.st_availability st))
         /\ (forall u, u ∈ ReflowService.st_updated st -> isMaintenance u = false ->
               afterClock clock (length (in_workCenters input)) (startDate u)))) as Hinv.
    destruct (Hinv (scheduleOne_after_clock clock dag
                      (workCenterMapOf (in_workCenters input))
                      (length (in_workCenters input))
                      (workCenterMapOf_key (in_workCenters input)))
                _ _ _ Hall) as (_ & _ & Hstart).
    + simpl. split; [|split].
      * intros k v Hk. destruct (Hvals k v Hk) as [Hold|(t & Ht & Hv)]; [done|].
        exists t. split; [lia|done].
      * intros k wc Hwc. pose proof (workCenterMapOf_key _ _ _ Hwc) as <-.
        apply Hwcs. by eapply workCenterMapOf_elem.
      * intros u' Hu'. by apply elem_of_nil in Hu'.
    + by apply Hstart.
Qed.

(** X24 on the cascade, with the clock at Monday 06:00: A starts later. *)
Lemma reflow_starts_after_clock_reading_witness :
  exists u t,
    updatedWorkOrders (reflow Examples.mondayMorning Examples.cascade) !! 0%nat = Some u
    /\ (t < 1)%nat /\ Examples.mondayMorning t < startDate u.
Proof.
  assert (Hu : exists u,
            updatedWorkOrders (reflow Examples.mondayMorning Examples.cascade) !! 0%nat
            = Some u /\ isMaintenance u = false).
  { vm_compute. eexists. split; reflexivity. }
  destruct Hu as (u & Hu & Hmu).
  destruct (reflow_starts_after_clock_reading Examples.mondayMorning Examples.cascade u
              (list_elem_of_lookup_2 _ _ _ Hu) Hmu) as (t & Ht & Hlt).
  exists u, t. split; [exact Hu|]. split; [exact Ht|exact Hlt].
Defined.

(** X25: when the shifts of every work center of the input start at an
    hour from 0 to 23 and end after they start, by hour 24, every order
    that [reflow] returns and that is not a maintenance order is assigned
    to a listed work center, starts during a shift of that work center
    and ends no earlier than its duration after its start. *)
Theorem reflow_starts_in_shift_and_leaves_duration
    (clock : nat -> Z) (input : ReflowInput) (u : WorkOrderDocument) :
  (forall wc, wc ∈ in_workCenters input -> wellFormedShifts (shifts wc)) ->
  u ∈ updatedWorkOrders (reflow clock input) ->
  isMaintenance u = false ->
  exists wc,
    omap_get (workCenterId u) (workCenterMapOf (in_workCenters input)) = Some wc
    /\ isDuringShift (startDate u) (shifts wc) = true
    /\ startDate u + durationMinutes u * msPerMinute <= endDate u.
Proof.
  intros Hshifts Hu Hmu.
  destruct (reflow_cases clock input) as [e _ Hr|dag _ _ Hr|dag ordered init st vs
    _ _ _ _ Hall _ Hup _ _ _].
  - rewrite Hr in Hu. by apply elem_of_nil in Hu.
  - rewrite Hr in Hu. by apply elem_of_nil in Hu.
  - rewrite Hup in Hu.
    apply (scheduleAll_invariant clock dag (workCenterMapOf (in_workCenters input))
      (fun st => forall u, u ∈ ReflowService.st_updated st -> isMaintenance u = false ->
         exists wc,
           omap_get (workCenterId u) (workCenterMapOf (in_workCenters input)) = Some wc
           /\ isDuringShift (startDate u) (shifts wc) = true
           /\ startDate u + durationMinutes u * msPerMinute <= endDate u)
      ) with (ordered := ordered) (st := ReflowService.mkState (fst init) [] [] (snd init))
             (st' := st); try done.
    + intros st0 w st1 HI Hone. apply (scheduleOne_in_shift clock dag _ st0 w st1); try done.
      intros k wc Hwc. apply Hshifts. by eapply workCenterMapOf_elem.
    + simpl. intros u' Hu'. by apply elem_of_nil in Hu'.
Qed.

(** X25 on the cascade: A is scheduled on Monday from 08:00 for its 120
    minutes. *)
Lemma reflow_starts_in_shift_and_leaves_duration_witness :
  exists u wc,
    updatedWorkOrders (reflow Examples.mondayMorning Examples.cascade) !! 0%nat = Some u
    /\ omap_get (workCenterId u) (workCenterMapOf (in_workCenters Examples.cascade))
       = Some wc
    /\ isDuringShift (startDate u) (shifts wc) = true
    /\ startDate u + durationMinutes u * msPerMinute <= endDate u.
Proof.
  assert (Hu : exists u,
            updatedWorkOrders (reflow Examples.mondayMorning Examples.cascade) !! 0%nat
            = Some u /\ isMaintenance u = false).
  { vm_compute. eexists. split; reflexivity. }
  destruct Hu as (u & Hu & Hmu).
  assert (Hshifts : forall wc, wc ∈ in_workCenters Examples.cascade ->
                      wellFormedShifts (shifts wc)).
  { intros wc Hwc shift Hshift. simpl in Hwc.
    apply list_elem_of_singleton in Hwc as ->. apply weekShifts_hours in Hshift. lia. }
  destruct (reflow_starts_in_shift_and_leaves_duration Examples.mondayMorning
              Examples.cascade u Hshifts (list_elem_of_lookup_2 _ _ _ Hu) Hmu)
    as (wc & Hwc & Hres).
  exists u, wc. split; [exact Hu|]. split; [exact Hwc|exact Hres].
Defined.

(** ** ReflowService: what [reflow] changes *)

(** X26: when [reflow] returns work orders for an input whose orders have
    distinct ids, it returns one order for each order of the input, with
    the same id and the same fields but for the two dates (a maintenance
    order as it is), and it lists them with every order after the orders
    it depends on. *)
Theorem reflow_returns_every_order_with_new_dates
    (clock : nat -> Z) (input : ReflowInput) :
  let result := reflow clock input in
  uniqueIds (in_workOrders input) ->
  updatedWorkOrders result <> [] ->
  length (updatedWorkOrders result) = length (in_workOrders input)
  /\ (forall u, u ∈ updatedWorkOrders result ->
        exists w, w ∈ in_workOrders input /\ updates w u)
  /\ (forall w, w ∈ in_workOrders input ->
        exists u, u ∈ updatedWorkOrders result /\ updates w u)
  /\ parentsFirst (in_workOrders input) (map docId (updatedWorkOrders result)).
Proof.
  intros result Hunique Hne.
  destruct (reflow_scheduled_inv clock input Hunique Hne)
    as (dag & ordered & Hbuild & Hsort & Hupd & _). fold result in Hupd.
  pose proof (topologicalSort_Ok _ _ Hunique Hbuild _ Hsort) as (Hperm & Hfirst & _).
  pose proof (Forall2_updates_ids _ _ Hupd) as Hids.
  split; [|split; [|split]].
  - rewrite <- (length_map docId (updatedWorkOrders result)), Hids.
    rewrite (Permutation_length Hperm). apply length_map.
  - by apply (us_origin _ dag ordered).
  - by apply (us_image _ dag ordered).
  - by rewrite Hids.
Qed.

(** X26 on the cascade A -> B -> C with the maintenance order M. *)
Lemma reflow_returns_every_order_with_new_dates_witness :
  length (updatedWorkOrders (reflow Examples.mondayMorning Examples.cascade)) = 4%nat
  /\ parentsFirst (in_workOrders Examples.cascade)
       (map docId (updatedWorkOrders (reflow Examples.mondayMorning Examples.cascade))).
Proof.
  assert (Hne : updatedWorkOrders (reflow Examples.mondayMorning Examples.cascade) <> []).
  { vm_compute. discriminate. }
  destruct (reflow_returns_every_order_with_new_dates Examples.mondayMorning
              Examples.cascade cascade_uniqueIds Hne) as (Hlen & _ & _ & Hfirst).
  split; [exact Hlen|exact Hfirst].
Defined.

Section Changes.
Import ReflowService.

Variable clock : nat -> Z.
Variable dag : DependencyGraph.t.
Variable workCenterMap : list (string * WorkCenterDocument).



End Changes.





(** ** ReflowService: the schedule and the checker *)

Section OwnValidation.
Import ConstraintChecker.

Lemma checkWorkCenterConflicts_sound l workCenterMap :
  checkWorkCenterConflicts l workCenterMap <> [] -> overlappingPair l.
Proof.
  rewrite overlappingPair_alt.
  destruct (groupByWorkCenter_spec l) as (Hnd & Hgroup & _).
  unfold checkWorkCenterConflicts. intros Hne.
  assert (Hex : exists k orders, (k, orders) ∈ groupByWorkCenter l
                 /\ scanConsecutive (sortByStart orders) <> []).
  { clear -Hne. induction (groupByWorkCenter l) as [|[k orders] m IH]; simpl in Hne; [done|].
    destruct (scanConsecutive (sortByStart orders)) eqn:E.
    - destruct IH as (k' & o' & Hin & Hs); [done|]. exists k', o'. split; [by right|done].
    - exists k, orders. split; [left|]. by rewrite E. }
  destruct Hex as (k & orders & Hin & Hscan).
  apply omap_elem_of_get in Hin; [|done]. apply Hgroup in Hin as ->.
  apply scanConsecutive_sound in Hscan as (a & b & Hsub & Hm).
  rewrite sortByStart_perm in Hsub. exists a, b. split; [|split; [|done]].
  - etransitivity; [exact Hsub|]. apply sublist_submseteq, sublist_filter.
  - assert (Ha : a ∈ filter (fun w => workCenterId w = k) l)
      by (eapply elem_of_submseteq; [|exact Hsub]; left).
    assert (Hb : b ∈ filter (fun w => workCenterId w = k) l)
      by (eapply elem_of_submseteq; [|exact Hsub]; right; left).
    apply list_elem_of_filter in Ha as [-> _]. by apply list_elem_of_filter in Hb as [-> _].
Qed.

(** Orders that follow one another on every work center do not overlap. *)
Lemma sequenced_no_overlap updated availability :
  sequenced updated availability ->
  (forall u, u ∈ updated -> isMaintenance u = false) ->
  ~ overlappingPair updated.
Proof.
  intros [_ Hpair] Hnone (i & j & wi & wj & Hij & Hi & Hj & Hsame & H1 & H2).
  pose proof (Hnone _ (list_elem_of_lookup_2 _ _ _ Hi)) as Hmi.
  pose proof (Hnone _ (list_elem_of_lookup_2 _ _ _ Hj)) as Hmj.
  destruct (Nat.lt_total i j) as [Hlt|[Heq|Hlt]]; [|done|].
  - pose proof (Hpair i j wi wj Hlt Hi Hj Hmi Hmj Hsame). lia.
  - pose proof (Hpair j i wj wi Hlt Hj Hi Hmj Hmi (eq_sym Hsame)). lia.
Qed.

(** Orders that start after their parents meet every dependency. *)
Lemma startsAfterParents_met updated :
  uniqueIds updated -> startsAfterParents updated ->
  (forall u, u ∈ updated -> isMaintenance u = false) ->
  dependenciesMet updated.
Proof.
  intros Hunique Hstart Hnone w p Hw Hp Hdep.
  apply list_elem_of_lookup_1 in Hw as [i Hi].
  destruct (Hstart i w (docId p) Hi (Hnone _ (list_elem_of_lookup_2 _ _ _ Hi)) Hdep)
    as (j & p' & _ & Hj & Hid & Hle).
  assert (p' = p) as ->; [|done].
  apply (uniqueIds_inj updated Hunique); [by eapply list_elem_of_lookup_2|done|done].
Qed.

End OwnValidation.

(** X28: for an input without maintenance orders whose orders have
    distinct ids, the violations that [reflow] reports for its own
    schedule are of the types OUTSIDE_SHIFT and DURING_MAINTENANCE only:
    the schedule never has two orders of a work center that overlap, nor
    an order that starts before a parent ends. *)
Theorem reflow_schedule_meets_order_constraints
    (clock : nat -> Z) (input : ReflowInput) (v : ConstraintViolation) :
  uniqueIds (in_workOrders input) ->
  (forall w, w ∈ in_workOrders input -> isMaintenance w = false) ->
  MsgViolation v ∈ violations (reflow clock input) ->
  v_type v = OUTSIDE_SHIFT \/ v_type v = DURING_MAINTENANCE.
Proof.
  intros Hunique Hnone Hv.
  destruct (reflow_cases clock input) as [e _ Hr|dag _ _ Hr|dag ordered init st vs
    Hbuild _ Hsort _ Hall Hval Hup _ _ Hviol].
  - rewrite Hr in Hv. simpl in Hv. by apply list_elem_of_singleton in Hv.
  - rewrite Hr in Hv. simpl in Hv. by apply list_elem_of_singleton in Hv.
  - rewrite Hviol in Hv. apply list_elem_of_fmap in Hv as (v' & [= <-] & Hv).
    (* the orders returned *)
    pose proof (scheduleAll_updates _ _ _ _ _ _ Hall) as (us & Hus & Hupd).
    simpl in Hus. rewrite Hus in *.
    assert (Hnone' : forall u, u ∈ us -> isMaintenance u = false).
    { intros u Hu.
      destruct (us_origin _ dag ordered us Hunique Hbuild Hsort Hupd u Hu) as (w & Hw & Hwu).
      rewrite (updates_isMaintenance _ _ Hwu). by apply Hnone. }
    pose proof (us_unique _ dag ordered us Hunique Hbuild Hsort Hupd) as Hunique'.
    assert (Hseq : sequenced us (ReflowService.st_availability st)).
    { rewrite <- Hus.
      apply (sequenced_all clock dag _ ordered (workCenterMapOf_key (in_workCenters input))
               _ _ Hall).
      split; simpl.
      - intros w Hw. by apply elem_of_nil in Hw.
      - intros i j wi wj _ Hi. by rewrite lookup_nil in Hi. }
    assert (Hstart : startsAfterParents us).
    { rewrite <- Hus.
      pose proof (topologicalSort_Ok _ _ Hunique Hbuild _ Hsort) as (_ & Hfirst & Hin).
      apply (startsAfterParents_all clock _ dag (workCenterMapOf (in_workCenters input))
               Hunique Hbuild ordered []
               (ReflowService.mkState (fst init) [] [] (snd init)) st); auto.
      intros i w pid Hi. simpl in Hi. by rewrite lookup_nil in Hi. }
    (* the four passes of the checker *)
    unfold ConstraintChecker.validate in Hval.
    destruct (DependencyGraph.buildGraph us) as [g'|e'] eqn:Hbuild'.
    2: { unfold ConstraintChecker.checkDependencies in Hval. by rewrite Hbuild' in Hval. }
    rewrite (checkDependencies_closed_form us g' Hunique' Hbuild') in Hval.
    simpl in Hval. injection Hval as <-.
    apply elem_of_app in Hv as [Hv|Hv].
    { exfalso. apply (sequenced_no_overlap us _ Hseq Hnone').
      apply (checkWorkCenterConflicts_sound us (workCenterMapOf (in_workCenters input))).
      intros Hnil. rewrite Hnil in Hv. by apply elem_of_nil in Hv. }
    apply elem_of_app in Hv as [Hv|Hv].
    { exfalso. apply (checkDependencies_elem us g' Hunique' Hbuild') in Hv
        as (w & p & Hw & Hp & Hdep & Hlt & _).
      pose proof (startsAfterParents_met us Hunique' Hstart Hnone' w p Hw Hp Hdep). lia. }
    apply elem_of_app in Hv as [Hv|Hv].
    + left. by eapply checkShiftBoundaries_types.
    + right. by eapply checkMaintenanceConflicts_types.
Qed.

(** X28 on one order of nine hours: it is scheduled from 08:00 to 17:00,
    and reported as ending outside shift hours. *)
Lemma reflow_schedule_meets_order_constraints_witness :
  MsgViolation (mkViolation OUTSIDE_SHIFT "A" None)
    ∈ violations (reflow Examples.mondayMorning MoreExamples.fullShift)
  /\ (v_type (mkViolation OUTSIDE_SHIFT "A" None) = OUTSIDE_SHIFT
      \/ v_type (mkViolation OUTSIDE_SHIFT "A" None) = DURING_MAINTENANCE).
Proof.
  assert (Hin : MsgViolation (mkViolation OUTSIDE_SHIFT "A" None)
                  ∈ violations (reflow Examples.mondayMorning MoreExamples.fullShift)).
  { vm_compute. left. }
  split; [exact Hin|].
  apply (reflow_schedule_meets_order_constraints Examples.mondayMorning
           MoreExamples.fullShift).
  - unfold uniqueIds. simpl. apply NoDup_singleton.
  - intros w Hw. simpl in Hw. by apply list_elem_of_singleton in Hw as ->.
  - exact Hin.
Defined.

(** ** DateUtils and ConstraintChecker: the end of a shift *)

(** X29: an order that starts during a shift of its work center and whose
    duration fills the time up to the end of that shift gets the end of
    the shift as its end date from [calculateEndDate]; [isDuringShift] is
    false at that instant, and [checkShiftBoundaries] reports every order
    of that work center with this end date as outside shift hours. *)
Theorem calculateEndDate_at_shift_end_is_outside_shift
    (startDate durationMinutes : Z) (workCenter : WorkCenterDocument) (shift : Shift) :
  getShiftForDay (weekday startDate) (shifts workCenter) = Some shift ->
  0 <= endHour shift <= 23 ->
  setHour startDate (startHour shift) <= startDate ->
  0 < durationMinutes ->
  startDate + durationMinutes * msPerMinute = setHour startDate (endHour shift) ->
  calculateEndDate startDate durationMinutes (shifts workCenter) []
  = Ok (setHour startDate (endHour shift))
  /\ isDuringShift (setHour startDate (endHour shift)) (shifts workCenter) = false
  /\ (forall workOrders workCenters workOrder,
        workOrder ∈ workOrders ->
        omap_get (workCenterId workOrder) (workCenterMapOf workCenters) = Some workCenter ->
        endDate workOrder = setHour startDate (endHour shift) ->
        mkViolation OUTSIDE_SHIFT (docId workOrder) None
        ∈ ConstraintChecker.checkShiftBoundaries workOrders (workCenterMapOf workCenters)).
Proof.
  intros Hshift Hend Hstart Hd Hfill.
  assert (Hout : isDuringShift (setHour startDate (endHour shift)) (shifts workCenter) = false).
  { assert (Hday : dayOf (setHour startDate (endHour shift)) = dayOf startDate)
      by (by apply dayOf_setHour).
    rewrite (isDuringShift_interval _ _ shift)
      by (by rewrite (weekday_same_day _ _ Hday)).
    rewrite !(setHour_same_day _ _ _ Hday).
    apply andb_false_iff. right. apply Z.ltb_ge. lia. }
  split; [|split; [exact Hout|]].
  - unfold calculateEndDate, maxDays.
    rewrite (calculateEndDate_loop_complete 364 startDate (durationMinutes * msPerMinute)
               (shifts workCenter) [] shift Hshift).
    + rewrite Z.max_l by lia. by rewrite Hfill.
    + rewrite Z.max_l by lia. unfold msPerMinute in *. lia.
    + rewrite Z.max_l by lia. unfold getEffectiveShiftEnd. simpl.
      unfold msPerMinute in *. lia.
  - intros workOrders workCenters workOrder Hin Hwc Hdate.
    unfold ConstraintChecker.checkShiftBoundaries.
    apply list_elem_of_In, in_flat_map. exists workOrder.
    split; [by apply list_elem_of_In|].
    rewrite Hwc, Hdate, Hout. apply in_or_app. right. by left.
Qed.

(** X29 on an order of nine hours that starts on Monday at 08:00 on a work
    center with the day shifts of the week. *)
Lemma calculateEndDate_at_shift_end_is_outside_shift_witness :
  let workCenter := Examples.line1 in
  calculateEndDate (at_ 20101 8 0) 540 (shifts workCenter) []
  = Ok (setHour (at_ 20101 8 0) 17)
  /\ isDuringShift (setHour (at_ 20101 8 0) 17) (shifts workCenter) = false
  /\ (forall workOrders workCenters workOrder,
        workOrder ∈ workOrders ->
        omap_get (workCenterId workOrder) (workCenterMapOf workCenters) = Some workCenter ->
        endDate workOrder = setHour (at_ 20101 8 0) 17 ->
        mkViolation OUTSIDE_SHIFT (docId workOrder) None
        ∈ ConstraintChecker.checkShiftBoundaries workOrders (workCenterMapOf workCenters)).
Proof.
  apply (calculateEndDate_at_shift_end_is_outside_shift (at_ 20101 8 0) 540
           Examples.line1 (mkShift 1 8 17)).
  - vm_compute. reflexivity.
  - simpl. lia.
  - vm_compute. discriminate.
  - lia.
  - vm_compute. reflexivity.
Defined.
